(** * wxt/storage: a shallow embedding of [packages/wxt/src/storage.ts]

    The development follows the source file top to bottom: the JavaScript
    values the module handles, the browser storage areas it talks to, the
    area drivers ([createDriver]), the helpers and public operations of
    [createStorage], and the defined items ([defineItem]) with their
    migrations and initialiser.

    Modelling conventions.
    - A value that went through a storage area is JSON: [JSON] below, with
      numbers restricted to integers.  Where the source handles a value of
      type [any] that may be [undefined], the model uses [option JSON] and
      [None] is [undefined].
    - A JavaScript object used as a dictionary is a finite map of its own
      properties ([gmap string _]).  A read [o[name]] is the lookup in that
      map: [undefined] for a name the object has no field of.  The source
      agrees for every name but the few that objects inherit from
      [Object.prototype] ([prototype_members]), where it finds the
      inherited member, a value that is not JSON; the statements that rest
      on such a read are made for the other names.  An assignment
      [o[name] = v] adds or overwrites a field, except under the name
      [__proto__] ([assign], [Driver.reduce_step]).
    - Versions are integers with exact arithmetic; the statements about
      migrations bound them to the range in which a JavaScript number is
      exact and an array can hold the versions to run.
    - [browser.storage.<area>] is an external collaborator.  It is modelled as
      an in-memory map that is always available; every call made to it is
      recorded in a trace, so that "which backend calls happen, and in which
      order" is a statement about the trace.
    - The callbacks a caller hands in, the migration functions and [init],
      are pure and total: they return a value and do nothing else; each call
      is recorded on the trace.
    - Asynchronous code is sequenced at its [await]s.  Where the order in
      which promises settle is not the program's choice, it is a parameter
      ([completion] in [getItems] and [setItemMetas]) or a schedule (module
      [InitRace], for several callers of [getOrInitValue]).
    - Functions of other packages are arguments: [dequal] in the listeners
      of [watch]; [toArray] has been applied to what [removeMeta] is
      given.  The registration of listeners with the browser is not
      modelled, only what a registered listener does with an event.
    - Calls of [logger] and [console] are left out. *)

From Stdlib Require Import ZArith.
From stdpp Require Import gmap strings list fin_maps pretty.

#[local] Set Warnings "-register-all".
#[local] Open Scope Z_scope.

(** ** JavaScript values *)

Inductive JSON : Type :=
  | JNull
  | JBool (b : bool)
  | JNum (n : Z)
  | JStr (s : string)
  | JArr (xs : list JSON)
  | JObj (fields : gmap string JSON).

(** A value of type [any]: [None] is [undefined]. *)
Abbreviation JSAny := (option JSON).

(** [x == null], true of both [null] and [undefined]. *)
Definition nullish (x : JSAny) : bool :=
  match x with
  | None | Some JNull => true
  | Some _ => false
  end.

(** [a ?? b] *)
Definition coalesce (a b : JSAny) : JSAny :=
  if nullish a then b else a.

Infix "??" := coalesce (at level 45, right associativity).

(** [a ?? b] when [b] is known not to be [undefined] *)
Definition orElse (a : JSAny) (b : JSON) : JSON :=
  default b (a ?? Some b).

(** [a ?? null] *)
Definition orNull (a : JSAny) : JSON := orElse a JNull.

(** [typeof x === 'object'].  As in the language, [null] answers yes. *)
Definition typeof_object (x : JSAny) : bool :=
  match x with
  | Some JNull | Some (JArr _) | Some (JObj _) => true
  | _ => false
  end.

(** [Array.isArray(x)] *)
Definition isArray (x : JSAny) : bool :=
  match x with
  | Some (JArr _) => true
  | _ => false
  end.

(** The elements of a list under their indices, written in decimal. *)
Definition indexed {A} (xs : list A) : list (string * A) :=
  imap (fun i x => (pretty i, x)) xs.

(** The characters of a string, each a string of its own. *)
Fixpoint chars (s : string) : list JSON :=
  match s with
  | EmptyString => []
  | String c s' => JStr (String c EmptyString) :: chars s'
  end.

(** The own enumerable properties copied by an object spread [{ ...x }]:
    the fields of an object, the indexed elements of an array, the indexed
    characters of a string, nothing for the other values. *)
Definition spread (x : JSAny) : gmap string JSON :=
  match x with
  | Some (JObj m) => m
  | Some (JArr xs) => list_to_map (indexed xs)
  | Some (JStr s) => list_to_map (indexed (chars s))
  | _ => ∅
  end.

(** [x?.[p]] for a property name [p] that is not an array index and not
    [length]: only an object has it. *)
Definition prop (x : JSAny) (p : string) : JSAny :=
  match x with
  | Some (JObj m) => m !! p
  | _ => None
  end.

(** The names that every plain object inherits from [Object.prototype]:
    a read [o[name]] of an object without a field of that name finds the
    inherited member there, not [undefined]. *)
Definition prototype_members : list string :=
  [ "constructor"; "hasOwnProperty"; "isPrototypeOf"; "propertyIsEnumerable";
    "toLocaleString"; "toString"; "valueOf"; "__proto__";
    "__defineGetter__"; "__defineSetter__"; "__lookupGetter__";
    "__lookupSetter__" ].

Definition prototype_member (name : string) : bool :=
  bool_decide (name ∈ prototype_members).

(** [o[key] = value] on a plain object [o]: a field is added or
    overwritten, except under the name [__proto__]: unless [o] has a
    field of that name of its own, the assignment runs the setter of
    [Object.prototype] and adds no field. *)
Definition assign {V} (key : string) (value : V) (o : gmap string V)
  : gmap string V :=
  if decide (key = "__proto__") then
    match o !! key with
    | Some _ => <[key := value]> o
    | None => o
    end
  else <[key := value]> o.

(** ** Strings *)

(** [s.indexOf(c)]: the first position of [c] in [s], or [-1]. *)
Definition indexOf (s c : string) : Z :=
  match String.index 0 c s with
  | Some n => Z.of_nat n
  | None => -1
  end.

(** [s.substring(start, end)]: both arguments are clamped to
    [0 .. s.length] and swapped when out of order; without [end] the
    substring runs to the end of [s]. *)
Definition substring (s : string) (start : Z) (end_ : option Z) : string :=
  let len := Z.of_nat (String.length s) in
  let clamp x := Z.max 0 (Z.min x len) in
  let a := clamp start in
  let b := match end_ with Some e => clamp e | None => len end in
  let lo := Z.min a b in
  let hi := Z.max a b in
  String.substring (Z.to_nat lo) (Z.to_nat (hi - lo)) s.

(** [s == null] for a string [s]: a string, even the empty one, is never
    nullish. *)
Definition string_nullish (s : string) : bool := false.

(** ** Errors and results *)

Inductive StorageArea : Type := local | session | sync | managed.

#[global] Instance StorageArea_eq_dec : EqDecision StorageArea.
Proof. solve_decision. Defined.

Inductive Error : Type :=
  | InvalidArea (area : string)
      (* Invalid area "<area>". Options: local, session, sync, managed *)
  | MalformedKey (key : string)
      (* Storage key should be in the form of "area:key", but received ... *)
  | InvalidVersion
      (* Storage item version cannot be less than 1. ... *)
  | VersionDowngrade (current target : Z) (key : string)
      (* Version downgrade detected (v<current> -> v<target>) for "<key>" *)
  | TypeError (what : string)
      (* raised by the language itself *)
  | UnsupportedVersion (v : JSON).
      (* a stored version that is not an integer: outside this model *)

Inductive Result (A : Type) : Type :=
  | Ok (a : A)
  | Throw (e : Error).
Arguments Ok {A} a.
Arguments Throw {A} e.

(** ** The browser's storage areas

    [browser.storage.<area>] with its [get], [set] and [remove].  Each area
    is a finite map from keys to JSON; [get] answers with an object holding
    the requested keys that are stored, [set] stores every entry of the
    object it is given (an entry whose value is [undefined] does not
    survive serialisation and is skipped), [remove] deletes keys. *)

Inductive Event : Type :=
  | AreaGet (a : StorageArea) (keys : list string)
  | AreaGetAll (a : StorageArea)
  | AreaSet (a : StorageArea) (items : gmap string JSAny)
  | AreaRemove (a : StorageArea) (keys : list string)
  | MigrationCall (version : Z) (arg : JSON)
  | InitCall.

Record World : Type := mkWorld {
  w_local : gmap string JSON;
  w_session : gmap string JSON;
  w_sync : gmap string JSON;
  w_managed : gmap string JSON;
  w_trace : list Event
}.

Definition area (a : StorageArea) (w : World) : gmap string JSON :=
  match a with
  | local => w_local w
  | session => w_session w
  | sync => w_sync w
  | managed => w_managed w
  end.

Definition set_area (a : StorageArea) (st : gmap string JSON) (w : World) : World :=
  match a with
  | local => mkWorld st (w_session w) (w_sync w) (w_managed w) (w_trace w)
  | session => mkWorld (w_local w) st (w_sync w) (w_managed w) (w_trace w)
  | sync => mkWorld (w_local w) (w_session w) st (w_managed w) (w_trace w)
  | managed => mkWorld (w_local w) (w_session w) (w_sync w) st (w_trace w)
  end.

Definition record (e : Event) (w : World) : World :=
  mkWorld (w_local w) (w_session w) (w_sync w) (w_managed w) (w_trace w ++ [e]).

Definition empty_world : World := mkWorld ∅ ∅ ∅ ∅ [].

(** Computations that read and write the areas and may throw.  A throw
    keeps the effects that happened before it. *)
Definition M (A : Type) : Type := World -> Result A * World.

Definition ret {A} (a : A) : M A := fun w => (Ok a, w).
Definition throw {A} (e : Error) : M A := fun w => (Throw e, w).
Definition bind {A B} (m : M A) (k : A -> M B) : M B :=
  fun w =>
    match m w with
    | (Ok a, w') => k a w'
    | (Throw e, w') => (Throw e, w')
    end.
Definition lift {A} (r : Result A) : M A := fun w => (r, w).

(** [m.catch(handler)] *)
Definition catch {A} (m : M A) (handler : Error -> M A) : M A :=
  fun w =>
    match m w with
    | (Ok a, w') => (Ok a, w')
    | (Throw e, w') => handler e w'
    end.

Notation "x <- m ;; k" := (bind m (fun x => k))
  (at level 100, m at next level, right associativity).
Notation "m ;;; k" := (bind m (fun _ => k))
  (at level 100, right associativity).

(** The answer of [area.get(keys)]. *)
Definition answer (keys : list string) (st : gmap string JSON) : gmap string JSON :=
  filter (fun kv => kv.1 ∈ keys) st.

Definition area_get (a : StorageArea) (keys : list string) : M (gmap string JSON) :=
  fun w => (Ok (answer keys (area a w)), record (AreaGet a keys) w).

Definition area_get_all (a : StorageArea) : M (gmap string JSON) :=
  fun w => (Ok (area a w), record (AreaGetAll a) w).

Definition area_set (a : StorageArea) (items : gmap string JSAny) : M unit :=
  fun w => (Ok tt, record (AreaSet a items) (set_area a (omap id items ∪ area a w) w)).

Definition area_remove (a : StorageArea) (keys : list string) : M unit :=
  fun w =>
    (Ok tt, record (AreaRemove a keys)
              (set_area a (foldr delete (area a w) keys) w)).

(** One entry of the [changes] object of an [onChanged] event. *)
Record Change : Type := {
  newValue : JSAny;
  oldValue : JSAny
}.

(** ** Area drivers ([createDriver]) *)

Module Driver.

(** [res[key]], read as the field of [res] of that name.  This is what
    the source reads when the key is stored, and when it is not stored
    and is not one of the [prototype_members]; for an unstored key of
    that list the source reads the inherited member, a value that is not
    JSON and that this model does not have. *)
Definition getItem (a : StorageArea) (key : string) : M JSAny :=
  res <- area_get a [key] ;;
  ret (res !! key).

(** [result[key] ?? null], with the same reading of [result[key]]. *)
Definition getItems (a : StorageArea) (keys : list string)
  : M (list (string * JSON)) :=
  result <- area_get a keys ;;
  ret (map (fun key => (key, orNull (result !! key))) keys).

Definition setItem (a : StorageArea) (key : string) (value : JSAny) : M unit :=
  if nullish value then area_remove a [key]
  else area_set a {[ key := value ]}.

(** One round of the [reduce] of [setItems]: [map[key] = value] on the
    object that starts as [{}], given by its fields and by whether it
    still inherits from [Object.prototype].  While it does, an assignment
    under the name [__proto__] runs the inherited setter and adds no
    field; the setter given [null] takes the prototype away, and from
    then on [__proto__] names a field like any other. *)
Definition reduce_step (map : gmap string JSAny * bool) (kv : string * JSAny)
  : gmap string JSAny * bool :=
  if decide (kv.1 = "__proto__") then
    if map.2 then
      (map.1, match kv.2 with Some JNull => false | _ => true end)
    else (<[kv.1 := kv.2]> map.1, false)
  else (<[kv.1 := kv.2]> map.1, map.2).

Definition setItems (a : StorageArea) (values : list (string * JSAny)) : M unit :=
  let map := fold_left reduce_step values (∅, true) in
  area_set a map.1.

Definition removeItem (a : StorageArea) (key : string) : M unit :=
  area_remove a [key].

Definition removeItems (a : StorageArea) (keys : list string) : M unit :=
  area_remove a keys.

Definition snapshot (a : StorageArea) : M (gmap string JSON) :=
  area_get_all a.

Definition restoreSnapshot (a : StorageArea) (data : gmap string JSAny) : M unit :=
  area_set a data.

(** The listener that [watch(key, cb)] registers with the area: the
    arguments of the call of [cb] that an [onChanged] event leads to, if
    it leads to one.  [dequal] is the deep equality of the [dequal]
    package. *)
Definition listener (dequal : JSAny -> JSAny -> bool) (key : string)
    (changes : gmap string Change) : option (JSON * JSON) :=
  match changes !! key with
  | None => None
  | Some change =>
      if dequal (newValue change) (oldValue change) then None
      else Some (orNull (newValue change), orNull (oldValue change))
  end.

End Driver.

(** ** JavaScript [Map]: keys in insertion order *)

Module JsMap.

Definition t (V : Type) : Type := list (string * V).

Fixpoint get {V} (k : string) (m : t V) : option V :=
  match m with
  | [] => None
  | (k', v) :: m' => if String.eqb k' k then Some v else get k m'
  end.

(** [m.set(k, v)]: an existing key keeps its place. *)
Fixpoint set {V} (k : string) (v : V) (m : t V) : t V :=
  match m with
  | [] => [(k, v)]
  | (k', v') :: m' =>
      if String.eqb k' k then (k, v) :: m' else (k', v') :: set k v m'
  end.

Definition entries {V} (m : t V) : list (string * V) := m.

End JsMap.

(** ** Option records of the public interface *)

Record GetItemOptions : Type := {
  defaultValue : JSAny;
  fallback : JSAny
}.

Record RemoveItemOptions : Type := {
  removeMeta_opt : bool
}.

Record SnapshotOptions : Type := {
  excludeKeys : option (list string)
}.

Record WxtStorageItemOptions : Type := {
  opt_defaultValue : JSAny;
  opt_fallback : JSAny;
  (** what [init()] resolves to, when an initialiser is given *)
  init : option JSAny;
  version : option Z;
  migrations : option (gmap Z (JSON -> JSAny))
}.

(** [opts?.fallback ?? opts?.defaultValue] *)
Definition fallback_of (opts : option GetItemOptions) : JSAny :=
  (opts ≫= fallback) ?? (opts ≫= defaultValue).

(** ** [createStorage]: helpers *)

Definition bindR {A B} (r : Result A) (k : A -> Result B) : Result B :=
  match r with
  | Ok a => k a
  | Throw e => Throw e
  end.

(** The name under which the [drivers] record holds an area's driver. *)
Definition area_name (a : StorageArea) : string :=
  match a with
  | local => "local"
  | session => "session"
  | sync => "sync"
  | managed => "managed"
  end.

(** The [drivers] record: one driver per area.  [drivers[name]] is read
    as the field of the record of that name; for a name of
    [prototype_members] the source finds the inherited member instead,
    which is not null and is not a driver, so that [getDriver] returns
    it and the first call of one of its methods throws.  The model
    covers the other names. *)
Definition drivers (name : string) : option StorageArea :=
  if String.eqb name "local" then Some local
  else if String.eqb name "session" then Some session
  else if String.eqb name "sync" then Some sync
  else if String.eqb name "managed" then Some managed
  else None.

Definition getDriver (name : string) : Result StorageArea :=
  match drivers name with
  | Some driver => Ok driver
  | None => Throw (InvalidArea name)
  end.

Record ResolvedKey : Type := {
  driverArea : string;
  driverKey : string;
  driver : StorageArea
}.

Definition resolveKey (key : string) : Result ResolvedKey :=
  let deliminatorIndex := indexOf key ":" in
  let driverArea := substring key 0 (Some deliminatorIndex) in
  let driverKey := substring key (deliminatorIndex + 1) None in
  if string_nullish driverKey then Throw (MalformedKey key)
  else
    bindR (getDriver driverArea) (fun driver =>
    Ok {| driverArea := driverArea; driverKey := driverKey; driver := driver |}).

Definition getMetaKey (key : string) : string := key +:+ "$".

Definition getValueOrFallback (value fallback : JSAny) : JSON :=
  orNull (value ?? fallback).

Definition getMetaValue (properties : JSAny) : JSAny :=
  if typeof_object properties && negb (isArray properties)
  then properties
  else Some (JObj ∅).

(** One step of the [forEach] over [Object.entries(properties)]:
    [delete newFields[key]] or [newFields[key] = value], the assignment
    as [assign] has it. *)
Definition mergeField (key : string) (value : JSAny)
    (newFields : gmap string JSON) : gmap string JSON :=
  if nullish value then delete key newFields
  else match value with
       | Some v => assign key v newFields
       | None => newFields
       end.

(** The closures of [createStorage] that work on a resolved driver. *)
Module Internal.

Definition getItem (driver : StorageArea) (driverKey : string)
    (opts : option GetItemOptions) : M JSON :=
  res <- Driver.getItem driver driverKey ;;
  ret (getValueOrFallback res (fallback_of opts)).

Definition getMeta (driver : StorageArea) (driverKey : string) : M JSAny :=
  let metaKey := getMetaKey driverKey in
  res <- Driver.getItem driver metaKey ;;
  ret (getMetaValue res).

Definition setItem (driver : StorageArea) (driverKey : string)
    (value : JSAny) : M unit :=
  Driver.setItem driver driverKey (Some (orNull value)).

(** [Object.entries(null)] throws; the stored mapping has been read by
    then. *)
Definition setMeta (driver : StorageArea) (driverKey : string)
    (properties : option (gmap string JSAny)) : M unit :=
  let metaKey := getMetaKey driverKey in
  res <- Driver.getItem driver metaKey ;;
  let existingFields := getMetaValue res in
  let newFields := spread existingFields in
  match properties with
  | None => throw (TypeError "Cannot convert undefined or null to object")
  | Some properties =>
      let newFields := map_fold mergeField newFields properties in
      Driver.setItem driver metaKey (Some (JObj newFields))
  end.

(** [opts?.removeMeta] *)
Definition wants_removeMeta (opts : option RemoveItemOptions) : bool :=
  match opts with
  | Some o => removeMeta_opt o
  | None => false
  end.

Definition removeItem (driver : StorageArea) (driverKey : string)
    (opts : option RemoveItemOptions) : M unit :=
  Driver.removeItem driver driverKey ;;;
  if wants_removeMeta opts
  then Driver.removeItem driver (getMetaKey driverKey)
  else ret tt.

(** [delete newFields[field]] for each field of [toArray(properties)],
    given here as that list.  When the shadow key holds [null],
    [getMetaValue] hands [null] back and the first [delete] throws. *)
Definition removeMeta (driver : StorageArea) (driverKey : string)
    (properties : option (list string)) : M unit :=
  let metaKey := getMetaKey driverKey in
  match properties with
  | None => Driver.removeItem driver metaKey
  | Some fields =>
      res <- Driver.getItem driver metaKey ;;
      match getMetaValue res, fields with
      | Some (JObj newFields), _ =>
          Driver.setItem driver metaKey
            (Some (JObj (fold_left (fun m field => delete field m) fields newFields)))
      | other, [] => Driver.setItem driver metaKey other
      | _, _ :: _ => throw (TypeError "Cannot convert undefined or null to object")
      end
  end.

End Internal.

(** ** Defined items *)

(** What [defineItem] closes over. *)
Record WxtStorageItem : Type := {
  key : string;
  resolved : ResolvedKey;
  opts : option WxtStorageItemOptions
}.

(** [const { version: targetVersion = 1, migrations = {} } = opts ?? {}] *)
Definition targetVersion (opts : option WxtStorageItemOptions) : Z :=
  default 1 (opts ≫= version).

Definition migrations_of (opts : option WxtStorageItemOptions)
  : gmap Z (JSON -> JSAny) :=
  default ∅ (opts ≫= migrations).

(** [opts?.fallback ?? opts?.defaultValue ?? null] *)
Definition getFallback (it : WxtStorageItem) : JSON :=
  orNull ((opts it ≫= opt_fallback) ?? (opts it ≫= opt_defaultValue)).

(** The item's options read as [GetItemOptions]. *)
Definition as_GetItemOptions (opts : option WxtStorageItemOptions)
  : option GetItemOptions :=
  (fun o => {| defaultValue := opt_defaultValue o; fallback := opt_fallback o |})
    <$> opts.

(** [Array.from({ length: n }, (_, i) => f i)] *)
Definition Array_from {A} (n : Z) (f : Z -> A) : list A :=
  map (fun i => f (Z.of_nat i)) (seq 0 (Z.to_nat n)).

(** [for (const x of xs) acc = await body(acc, x)] *)
Fixpoint forOf {A B} (body : B -> A -> M B) (xs : list A) (acc : B) : M B :=
  match xs with
  | [] => ret acc
  | x :: xs' => acc' <- body acc x ;; forOf body xs' acc'
  end.

(** [migrations?.[version]?.(value)], recording the call when there is a
    function to call.  The function returns: a migration that throws is
    not modelled. *)
Definition callMigration (migrations : gmap Z (JSON -> JSAny))
    (version : Z) (value : JSON) : M JSAny :=
  match migrations !! version with
  | Some f => fun w => (Ok (f value), record (MigrationCall version value) w)
  | None => ret None
  end.

(** Versions are integers, with exact arithmetic: this is the source's
    arithmetic as long as the versions are within [-2^53 .. 2^53], where a
    JavaScript number holds every integer, and the list of versions to
    run has fewer than [2^32] elements, the longest array there is.
    A stored [v] that is not an integer is not modelled
    ([UnsupportedVersion]). *)
Definition migrate (it : WxtStorageItem) : M unit :=
  let driver := driver (resolved it) in
  let driverKey := driverKey (resolved it) in
  let targetVersion := targetVersion (opts it) in
  let migrations := migrations_of (opts it) in
  let driverMetaKey := getMetaKey driverKey in
  res <- Driver.getItems driver [driverKey; driverMetaKey] ;;
  match res with
  | (_, value) :: (_, meta) :: _ =>
      if nullish (Some value) then ret tt
      else
        match orElse (prop (Some meta) "v") (JNum 1) with
        | JNum currentVersion =>
            if currentVersion >? targetVersion
            then throw (VersionDowngrade currentVersion targetVersion (key it))
            else
              let migrationsToRun :=
                Array_from (targetVersion - currentVersion)
                           (fun i => currentVersion + i + 1) in
              migratedValue <-
                forOf (fun migratedValue migrateToVersion =>
                         r <- callMigration migrations migrateToVersion migratedValue ;;
                         ret (orElse r migratedValue))
                      migrationsToRun value ;;
              Driver.setItems driver
                [ (driverKey, Some migratedValue);
                  (driverMetaKey,
                   Some (JObj (<["v" := JNum targetVersion]> (spread (Some meta))))) ]
        | other => throw (UnsupportedVersion other)
        end
  | _ => throw (TypeError "Cannot destructure")
  end.

(** [opts?.migrations == null ? Promise.resolve() : migrate().catch(...)] *)
Definition migrationsDone (it : WxtStorageItem) : M unit :=
  match opts it ≫= migrations with
  | None => ret tt
  | Some _ => catch (migrate it) (fun err => ret tt)
  end.

(** The body that [initMutex.runExclusive] protects. *)
Definition getOrInitValue (it : WxtStorageItem) : M JSAny :=
  let driver := driver (resolved it) in
  let driverKey := driverKey (resolved it) in
  value <- Driver.getItem driver driverKey ;;
  match opts it ≫= init with
  | Some newValue =>
      if negb (nullish value) then ret value
      else
        (fun w => (Ok tt, record InitCall w)) ;;;
        Driver.setItem driver driverKey newValue ;;;
        ret newValue
  | None => ret value
  end.

Definition defineItem (key : string) (opts : option WxtStorageItemOptions)
  : Result WxtStorageItem :=
  bindR (resolveKey key) (fun resolved =>
  if targetVersion opts <? 1 then Throw InvalidVersion
  else Ok {| key := key; resolved := resolved; opts := opts |}).

(** What a fresh item starts on its own: the migration, then the
    initialisation ([migrationsDone.then(getOrInitValue)]). *)
Definition startup (it : WxtStorageItem) : M unit :=
  migrationsDone it ;;; getOrInitValue it ;;; ret tt.

(** The item's methods; each awaits [migrationsDone] first, which has
    settled by then. *)
Module Item.

Definition getValue (it : WxtStorageItem) : M JSAny :=
  match opts it ≫= init with
  | Some _ => getOrInitValue it
  | None =>
      v <- Internal.getItem (driver (resolved it)) (driverKey (resolved it))
             (as_GetItemOptions (opts it)) ;;
      ret (Some v)
  end.

Definition getMeta (it : WxtStorageItem) : M JSAny :=
  Internal.getMeta (driver (resolved it)) (driverKey (resolved it)).

Definition setValue (it : WxtStorageItem) (value : JSAny) : M unit :=
  Internal.setItem (driver (resolved it)) (driverKey (resolved it)) value.

Definition setMeta (it : WxtStorageItem)
    (properties : option (gmap string JSAny)) : M unit :=
  Internal.setMeta (driver (resolved it)) (driverKey (resolved it)) properties.

Definition removeValue (it : WxtStorageItem)
    (opts : option RemoveItemOptions) : M unit :=
  Internal.removeItem (driver (resolved it)) (driverKey (resolved it)) opts.

Definition removeMeta (it : WxtStorageItem)
    (properties : option (list string)) : M unit :=
  Internal.removeMeta (driver (resolved it)) (driverKey (resolved it)) properties.

(** The listener that [watch(cb)] registers, through the driver's
    [watch]: the arguments of the call of [cb], if there is one. *)
Definition listener (dequal : JSAny -> JSAny -> bool) (it : WxtStorageItem)
    (changes : gmap string Change) : option (JSON * JSON) :=
  match Driver.listener dequal (driverKey (resolved it)) changes with
  | Some (newValue, oldValue) =>
      Some (orElse (Some newValue) (getFallback it),
            orElse (Some oldValue) (getFallback it))
  | None => None
  end.

End Item.

(** ** The public [storage] object *)

(** An entry of the list given to [getItems]. *)
Inductive GetItemsKey : Type :=
  | KeyString (key : string)
  | KeyItem (item : WxtStorageItem)
  | KeyWithOptions (key : string) (options : option GetItemOptions).

(** An entry of the list given to [removeItems]. *)
Inductive RemoveItemsKey : Type :=
  | RemoveKey (key : string)
  | RemoveItem (item : WxtStorageItem)
  | RemoveItemWith (item : WxtStorageItem) (options : option RemoveItemOptions)
  | RemoveKeyWith (key : string) (options : option RemoveItemOptions).

(** The character [:], which delimits the segments of a key. *)
Definition colon : Ascii.ascii := Eval cbv in Ascii.ascii_of_nat 58.

(** [s.split(sep)] for a separator of one character: the array is never
    empty, so it is given as its first element and the rest. *)
Fixpoint split (sep : Ascii.ascii) (s : string) : string * list string :=
  match s with
  | EmptyString => (EmptyString, [])
  | String c s' =>
      let '(first, rest) := split sep s' in
      if Ascii.eqb c sep then (EmptyString, first :: rest)
      else (String c first, rest)
  end.

(** [Promise.all(fs.map(f))]: every call is started, in order; the whole
    fails with the first failure. *)
Fixpoint Promise_all {A} (ms : list (M A)) : M (list A) :=
  match ms with
  | [] => ret []
  | m :: ms' =>
      fun w =>
        let '(r, w1) := m w in
        let '(rs, w2) := Promise_all ms' w1 in
        (match r, rs with
         | Ok a, Ok l => Ok (a :: l)
         | Throw e, _ => Throw e
         | Ok _, Throw e => Throw e
         end, w2)
  end.

(** [keys.forEach(...)] with a body that may throw. *)
Fixpoint foldResult {A S} (f : S -> A -> Result S) (xs : list A) (s : S) : Result S :=
  match xs with
  | [] => Ok s
  | x :: xs' => bindR (f s x) (foldResult f xs')
  end.

(** [xs.map(f)] with an [f] that may throw. *)
Fixpoint mapResult {A B} (f : A -> Result B) (xs : list A) : Result (list B) :=
  match xs with
  | [] => Ok []
  | x :: xs' =>
      bindR (f x) (fun y => bindR (mapResult f xs') (fun ys => Ok (y :: ys)))
  end.

(** Asynchronous functions started one after the other, each running to
    its end: the outcome of each, in order. *)
Fixpoint start_all {A} (ms : list (M A)) (w : World) : list (Result A) * World :=
  match ms with
  | [] => ([], w)
  | m :: ms' =>
      let '(r, w1) := m w in
      let '(rs, w2) := start_all ms' w1 in
      (r :: rs, w2)
  end.

(** The values of the outcomes that are not failures. *)
Definition fulfilled {A} (rs : list (Result A)) : list A :=
  omap (fun r => match r with Ok a => Some a | Throw _ => None end) rs.

(** The first failure among outcomes, if any. *)
Definition first_failure {A} (rs : list (Result A)) : option Error :=
  head (omap (fun r => match r with Ok _ => None | Throw e => Some e end) rs).

Module storage.

Definition getItem (key : string) (opts : option GetItemOptions) : M JSON :=
  rk <- lift (resolveKey key) ;;
  Internal.getItem (driver rk) (driverKey rk) opts.

(** The three maps built by the first loop of [getItems]. *)
Record Request : Type := {
  areaToKeyMap : JsMap.t (list string);
  keyToOptsMap : gmap string (option GetItemOptions);
  orderedKeys : list string
}.

(** The [keyStr] and [opts] the loop reads off one entry. *)
Definition keyStr_of (entry : GetItemsKey) : string :=
  match entry with
  | KeyString k => k
  | KeyItem item => key item
  | KeyWithOptions k _ => k
  end.

Definition opts_of (entry : GetItemsKey) : option GetItemOptions :=
  match entry with
  | KeyString _ => None
  | KeyItem item =>
      Some {| defaultValue := None; fallback := Some (getFallback item) |}
  | KeyWithOptions _ options => options
  end.

Definition request_step (rq : Request) (entry : GetItemsKey) : Result Request :=
  let keyStr := keyStr_of entry in
  let opts := opts_of entry in
  let orderedKeys := orderedKeys rq ++ [keyStr] in
  bindR (resolveKey keyStr) (fun rk =>
  let areaKeys := default [] (JsMap.get (driverArea rk) (areaToKeyMap rq)) in
  Ok {| areaToKeyMap :=
          JsMap.set (driverArea rk) (areaKeys ++ [driverKey rk]) (areaToKeyMap rq);
        keyToOptsMap := <[keyStr := opts]> (keyToOptsMap rq);
        orderedKeys := orderedKeys |}).

Definition empty_request : Request :=
  {| areaToKeyMap := []; keyToOptsMap := ∅; orderedKeys := [] |}.

(** One area's batch: the driver call, whose answer is handled later. *)
Definition fetch (entry : string * list string)
  : M (string * list (string * JSON)) :=
  let '(driverArea, keys) := entry in
  match drivers driverArea with
  | Some driver =>
      driverResults <- Driver.getItems driver keys ;;
      ret (driverArea, driverResults)
  | None => throw (TypeError "Cannot read properties of undefined")
  end.

(** The continuation of one batch: [driverResults.forEach(...)]. *)
Definition collect (keyToOptsMap : gmap string (option GetItemOptions))
    (resultsMap : gmap string JSON)
    (batch : string * list (string * JSON)) : gmap string JSON :=
  let '(driverArea, driverResults) := batch in
  fold_left
    (fun resultsMap driverResult =>
       let key := driverArea +:+ ":" +:+ driverResult.1 in
       let opts := mjoin (keyToOptsMap !! key) in
       let value := getValueOrFallback (Some driverResult.2) (fallback_of opts) in
       <[key := value]> resultsMap)
    driverResults resultsMap.

(** [getItems].  The batches are started in the order of the map's
    entries; their answers come back in an order the caller does not
    control, [completion]. *)
Definition getItems
    (completion : list (string * list (string * JSON)) ->
                  list (string * list (string * JSON)))
    (keys : list GetItemsKey) : M (list (string * JSAny)) :=
  rq <- lift (foldResult request_step keys empty_request) ;;
  batches <- Promise_all (map fetch (JsMap.entries (areaToKeyMap rq))) ;;
  let resultsMap := fold_left (collect (keyToOptsMap rq)) (completion batches) ∅ in
  ret (map (fun key => (key, resultsMap !! key)) (orderedKeys rq)).

Definition getMeta (key : string) : M JSAny :=
  rk <- lift (resolveKey key) ;;
  Internal.getMeta (driver rk) (driverKey rk).

Definition setItem (key : string) (value : JSAny) : M unit :=
  rk <- lift (resolveKey key) ;;
  Internal.setItem (driver rk) (driverKey rk) value.

Definition setItems_step (areaToKeyValueMap : JsMap.t (list (string * JSAny)))
    (entry : string * JSAny) : Result (JsMap.t (list (string * JSAny))) :=
  bindR (resolveKey entry.1) (fun rk =>
  let values := default [] (JsMap.get (driverArea rk) areaToKeyValueMap) in
  Ok (JsMap.set (driverArea rk) (values ++ [(driverKey rk, entry.2)])
        areaToKeyValueMap)).

Definition setItems (values : list (string * JSAny)) : M unit :=
  areaToKeyValueMap <- lift (foldResult setItems_step values []) ;;
  Promise_all
    (map (fun entry : string * list (string * JSAny) =>
            driver <- lift (getDriver entry.1) ;;
            Driver.setItems driver entry.2)
         (JsMap.entries areaToKeyValueMap)) ;;;
  ret tt.

Definition setMeta (key : string) (properties : option (gmap string JSAny))
  : M unit :=
  rk <- lift (resolveKey key) ;;
  Internal.setMeta (driver rk) (driverKey rk) properties.

Definition removeItem (key : string) (opts : option RemoveItemOptions) : M unit :=
  rk <- lift (resolveKey key) ;;
  Internal.removeItem (driver rk) (driverKey rk) opts.

Definition removeMeta (key : string) (properties : option (list string)) : M unit :=
  rk <- lift (resolveKey key) ;;
  Internal.removeMeta (driver rk) (driverKey rk) properties.

(** [opts?.excludeKeys?.forEach(...)] on the object the driver returned. *)
Definition snapshot (base : string) (opts : option SnapshotOptions)
  : M (gmap string JSON) :=
  driver <- lift (getDriver base) ;;
  data <- Driver.snapshot driver ;;
  ret (fold_left
         (fun data key => delete (getMetaKey key) (delete key data))
         (default [] (opts ≫= excludeKeys)) data).

Definition restoreSnapshot (base : string) (data : gmap string JSAny) : M unit :=
  driver <- lift (getDriver base) ;;
  Driver.restoreSnapshot driver data.

(** The [keyStr] and [opts] the loop of [removeItems] reads off one entry. *)
Definition removed_keyStr (entry : RemoveItemsKey) : string :=
  match entry with
  | RemoveKey k => k
  | RemoveItem item => key item
  | RemoveItemWith item _ => key item
  | RemoveKeyWith k _ => k
  end.

Definition removed_opts (entry : RemoveItemsKey) : option RemoveItemOptions :=
  match entry with
  | RemoveKey _ | RemoveItem _ => None
  | RemoveItemWith _ options => options
  | RemoveKeyWith _ options => options
  end.

Definition removeItems_step (areaToKeysMap : JsMap.t (list string))
    (entry : RemoveItemsKey) : Result (JsMap.t (list string)) :=
  let keyStr := removed_keyStr entry in
  let opts := removed_opts entry in
  bindR (resolveKey keyStr) (fun rk =>
  let areaKeys := default [] (JsMap.get (driverArea rk) areaToKeysMap) in
  let areaKeys := areaKeys ++ [driverKey rk] in
  let areaKeys :=
    if Internal.wants_removeMeta opts
    then areaKeys ++ [getMetaKey (driverKey rk)]
    else areaKeys in
  Ok (JsMap.set (driverArea rk) areaKeys areaToKeysMap)).

Definition removeItems (keys : list RemoveItemsKey) : M unit :=
  areaToKeysMap <- lift (foldResult removeItems_step keys []) ;;
  Promise_all
    (map (fun entry : string * list string =>
            driver <- lift (getDriver entry.1) ;;
            Driver.removeItems driver entry.2)
         (JsMap.entries areaToKeysMap)) ;;;
  ret tt.

(** [setItemValues(items, values)]: [items] is given as its
    [Object.entries]. *)
Definition setItemValues_step (values : gmap string JSAny)
    (areaToValuesMap : JsMap.t (list (string * JSAny)))
    (entry : string * WxtStorageItem)
  : Result (JsMap.t (list (string * JSAny))) :=
  bindR (resolveKey (key entry.2)) (fun rk =>
  let list := default [] (JsMap.get (driverArea rk) areaToValuesMap) in
  Ok (JsMap.set (driverArea rk)
        (list ++ [(driverKey rk, mjoin (values !! entry.1))])
        areaToValuesMap)).

Definition setItemValues (items : list (string * WxtStorageItem))
    (values : gmap string JSAny) : M unit :=
  areaToValuesMap <- lift (foldResult (setItemValues_step values) items []) ;;
  Promise_all
    (map (fun entry : string * list (string * JSAny) =>
            driver <- lift (getDriver entry.1) ;;
            Driver.setItems driver entry.2)
         (JsMap.entries areaToValuesMap)) ;;;
  ret tt.

(** [getItemMetas(items)]: [items] is given as its [Object.entries].  The
    first loop files each item under the first segment of its key, with
    the second segment as storage key ([undefined] when the key has no
    delimiter). *)
Definition getItemMetas_step
    (areaToItemListMap : JsMap.t (list (string * option string)))
    (entry : string * WxtStorageItem)
  : JsMap.t (list (string * option string)) :=
  let '(storageArea, segments) := split colon (key entry.2) in
  let list := default [] (JsMap.get storageArea areaToItemListMap) in
  JsMap.set storageArea (list ++ [(entry.1, segments !! 0%nat)])
    areaToItemListMap.

(** [getMetaKey(item.storageKey)]: the concatenation prints [undefined]. *)
Definition getMetaKey_of (storageKey : option string) : string :=
  getMetaKey (default "undefined" storageKey).

(** One round of the [for ... of] loop over the areas.  No shadow key is
    the name of an inherited property, so [valueMap[metaKey]] is a lookup
    in the collected entries. *)
Definition getItemMetas_area (resultsMap : gmap string JSON)
    (entry : string * list (string * option string)) : M (gmap string JSON) :=
  let '(storageArea, itemList) := entry in
  driver <- lift (getDriver storageArea) ;;
  let metaKeys := map (fun item => getMetaKey_of item.2) itemList in
  results <- Driver.getItems driver metaKeys ;;
  let valueMap :=
    fold_left (fun map (r : string * JSON) => <[r.1 := r.2]> map) results
      (∅ : gmap string JSON) in
  ret (fold_left
         (fun resultsMap (item : string * option string) =>
            let metaKey := getMetaKey_of item.2 in
            let value := valueMap !! metaKey in
            <[item.1 := orElse (getMetaValue value) (JObj ∅)]> resultsMap)
         itemList resultsMap).

Definition getItemMetas (items : list (string * WxtStorageItem))
  : M (list (string * JSAny)) :=
  let orderedKeys := map fst items in
  let areaToItemListMap := fold_left getItemMetas_step items [] in
  resultsMap <- forOf getItemMetas_area (JsMap.entries areaToItemListMap) ∅ ;;
  ret (map (fun key => (key, resultsMap !! key)) orderedKeys).

(** [setItemMetas(items, metas)]: [items] is given as its
    [Object.entries]; the properties of an item are [None] when [metas]
    has [null] or nothing under the item's name. *)
Definition setItemMetas_step (metas : gmap string (option (gmap string JSAny)))
    (areaToMetaUpdatesMap : JsMap.t (list (string * option (gmap string JSAny))))
    (entry : string * WxtStorageItem)
  : Result (JsMap.t (list (string * option (gmap string JSAny)))) :=
  bindR (resolveKey (key entry.2)) (fun rk =>
  let list := default [] (JsMap.get (driverArea rk) areaToMetaUpdatesMap) in
  Ok (JsMap.set (driverArea rk)
        (list ++ [(driverKey rk, mjoin (metas !! entry.1))])
        areaToMetaUpdatesMap)).

(** One area's function up to its first [await]: the read is started. *)
Definition setItemMetas_read
    (entry : string * list (string * option (gmap string JSAny)))
  : M (StorageArea * list (string * option (gmap string JSAny)) *
       list (string * JSON)) :=
  let '(storageArea, updates) := entry in
  driver <- lift (getDriver storageArea) ;;
  let metaKeys := map (fun update : string * option (gmap string JSAny) =>
                         getMetaKey update.1) updates in
  existingMetas <- Driver.getItems driver metaKeys ;;
  ret (driver, updates, existingMetas).

(** The body of [updates.map(...)]. *)
Definition metaUpdate (existingMetaMap : gmap string JSAny)
    (update : string * option (gmap string JSAny)) : Result (string * JSAny) :=
  let metaKey := getMetaKey update.1 in
  let existingFields := orElse (mjoin (existingMetaMap !! metaKey)) (JObj ∅) in
  let newFields := spread (Some existingFields) in
  match update.2 with
  | None => Throw (TypeError "Cannot convert undefined or null to object")
  | Some properties =>
      Ok (metaKey, Some (JObj (map_fold mergeField newFields properties)))
  end.

(** The rest of one area's function, once its read has been answered. *)
Definition setItemMetas_write
    (batch : StorageArea * list (string * option (gmap string JSAny)) *
             list (string * JSON)) : M unit :=
  let '(driver, updates, existingMetas) := batch in
  let existingMetaMap :=
    fold_left (fun m (r : string * JSON) => <[r.1 := getMetaValue (Some r.2)]> m)
      existingMetas (∅ : gmap string JSAny) in
  metaUpdates <- lift (mapResult (metaUpdate existingMetaMap) updates) ;;
  Driver.setItems driver metaUpdates.

(** [setItemMetas].  Every area's function is started in the order of the
    map's entries and runs up to its read; the reads are answered in an
    order the caller does not control, [completion], and each function
    goes on from its answer.  The whole fails with the failure that comes
    first. *)
Definition setItemMetas
    (completion :
       list (StorageArea * list (string * option (gmap string JSAny)) *
             list (string * JSON)) ->
       list (StorageArea * list (string * option (gmap string JSAny)) *
             list (string * JSON)))
    (items : list (string * WxtStorageItem))
    (metas : gmap string (option (gmap string JSAny))) : M unit :=
  areaToMetaUpdatesMap <-
    lift (foldResult (setItemMetas_step metas) items []) ;;
  fun w =>
    let '(reads, w1) :=
      start_all (map setItemMetas_read (JsMap.entries areaToMetaUpdatesMap)) w in
    let '(writes, w2) :=
      start_all (map setItemMetas_write (completion (fulfilled reads))) w1 in
    (match first_failure reads, first_failure writes with
     | Some e, _ => Throw e
     | None, Some e => Throw e
     | None, None => Ok tt
     end, w2).

End storage.

(** ** Concurrent callers of [getOrInitValue]

    Several calls of [getOrInitValue] on one item, each an asynchronous
    task that runs from one [await] to the next without interruption.  The
    scheduler is free to resume any task whose awaited promise can settle;
    [initMutex.runExclusive] lets a task start its callback only while no
    other task is inside it, and frees the mutex when the callback
    returns or throws. *)

Module InitRace.

Inductive Task : Type :=
  | Waiting                        (* in [runExclusive], callback not started *)
  | Reading                        (* at [await driver.getItem(driverKey)] *)
  | Initialising                   (* at [await opts.init()] *)
  | Writing (newValue : JSAny)     (* at [await driver.setItem(driverKey, newValue)] *)
  | Done (result : Result JSAny).  (* settled *)

Record State : Type := {
  world : World;
  locked : bool;
  tasks : list Task
}.

(** Task [i] settles with [result] and frees the mutex. *)
Definition settle (i : nat) (result : Result JSAny) (w : World) (s : State)
  : State :=
  {| world := w; locked := false; tasks := <[i := Done result]> (tasks s) |}.

(** Task [i] goes on inside the callback, at its next [await]. *)
Definition proceed (i : nat) (t : Task) (w : World) (s : State) : State :=
  {| world := w; locked := true; tasks := <[i := t]> (tasks s) |}.

(** Resume task [i], if it can be resumed: it runs up to its next
    [await], or to its end. *)
Definition resume (it : WxtStorageItem) (i : nat) (s : State) : option State :=
  let driver := driver (resolved it) in
  let driverKey := driverKey (resolved it) in
  match tasks s !! i with
  | Some Waiting =>
      if locked s then None else Some (proceed i Reading (world s) s)
  | Some Reading =>
      match Driver.getItem driver driverKey (world s) with
      | (Ok value, w) =>
          match opts it ≫= init with
          | Some _ =>
              if negb (nullish value) then Some (settle i (Ok value) w s)
              else Some (proceed i Initialising (record InitCall w) s)
          | None => Some (settle i (Ok value) w s)
          end
      | (Throw e, w) => Some (settle i (Throw e) w s)
      end
  | Some Initialising =>
      match opts it ≫= init with
      | Some newValue =>
          match Driver.setItem driver driverKey newValue (world s) with
          | (Ok _, w) => Some (proceed i (Writing newValue) w s)
          | (Throw e, w) => Some (settle i (Throw e) w s)
          end
      | None => None
      end
  | Some (Writing newValue) => Some (settle i (Ok newValue) (world s) s)
  | Some (Done _) | None => None
  end.

(** The scheduler's choices, one task index after the other; a task that
    cannot be resumed is passed over. *)
Fixpoint run (it : WxtStorageItem) (schedule : list nat) (s : State) : State :=
  match schedule with
  | [] => s
  | i :: schedule' => run it schedule' (default s (resume it i s))
  end.

(** [n] calls made at once in world [w]. *)
Definition start (n : nat) (w : World) : State :=
  {| world := w; locked := false; tasks := replicate n Waiting |}.

Definition is_done (t : Task) : bool :=
  match t with
  | Done _ => true
  | _ => false
  end.

Definition finished (s : State) : bool := forallb is_done (tasks s).

Definition is_init_call (e : Event) : bool :=
  match e with
  | InitCall => true
  | _ => false
  end.

Definition is_write (e : Event) : bool :=
  match e with
  | AreaSet _ _ | AreaRemove _ _ => true
  | _ => false
  end.

Definition init_calls (w : World) : nat :=
  length (List.filter is_init_call (w_trace w)).

Definition writes (w : World) : nat :=
  length (List.filter is_write (w_trace w)).

(** How many more times a task can be resumed, at most. *)
Definition weight (t : Task) : nat :=
  match t with
  | Waiting => 4
  | Reading => 3
  | Initialising => 2
  | Writing _ => 1
  | Done _ => 0
  end.

End InitRace.

(** * Vocabulary of the statements *)

(** What the stored mapping looks like, field by field, after the loop of
    [setMeta] and [setItemMetas]: a field of the properties is gone when
    its value is null or undefined and has the value otherwise, except
    that a value for [__proto__] is taken only over a stored field of
    that name; the other fields are as stored. *)
Definition merged (existing : gmap string JSON) (properties : gmap string JSAny)
    (field : string) : option JSON :=
  match properties !! field with
  | Some value =>
      if nullish value then None
      else if decide (field = "__proto__")
           then existing !! field ≫= fun _ => value
           else value
  | None => existing !! field
  end.

(** The fallback a caller configured, the deprecated [defaultValue] standing
    in for a missing [fallback]; [null] when there is none. *)
Definition configured_fallback (opts : option GetItemOptions) : JSON :=
  match opts with
  | None => JNull
  | Some o =>
      match fallback o with
      | Some JNull | None => orNull (defaultValue o)
      | Some f => f
      end
  end.

(** What is stored for an item: its value and its metadata. *)
Definition stored_value (it : WxtStorageItem) (w : World) : JSAny :=
  area (driver (resolved it)) w !! driverKey (resolved it).

Definition stored_meta (it : WxtStorageItem) (w : World) : JSAny :=
  area (driver (resolved it)) w !! getMetaKey (driverKey (resolved it)).

(** The version that metadata gives: its [v] field, and 1 when there is
    no such field.  A [v] that is not an integer gives no version in this
    model. *)
Definition version_of (meta : JSAny) : option Z :=
  match prop meta "v" with
  | Some (JNum n) => Some n
  | Some JNull | None => Some 1
  | Some _ => None
  end.

(** The stored version of an item: the version of its stored value.
    Without a stored value there is none. *)
Definition stored_version (it : WxtStorageItem) (w : World) : option Z :=
  if nullish (stored_value it w) then None
  else version_of (stored_meta it w).

(** The metadata object a migration commits: what an object spread copies
    from the stored metadata, with the [v] field set to the target
    version. *)
Definition committed_meta (it : WxtStorageItem) (w : World) : gmap string JSON :=
  <["v" := JNum (targetVersion (opts it))]> (spread (stored_meta it w)).

(** One migration step on the running value, as the loop performs it: the
    registered function's result when it is neither null nor undefined, the
    running value itself otherwise and when no function is registered. *)
Definition step (migs : gmap Z (JSON -> JSAny)) (version : Z) (value : JSON)
  : JSON :=
  match migs !! version with
  | Some f => orElse (f value) value
  | None => value
  end.

(** The running value after the [n] versions that follow [from], taken in
    ascending order. *)
Fixpoint chain (migs : gmap Z (JSON -> JSAny)) (n : nat) (from : Z)
    (value : JSON) : JSON :=
  match n with
  | O => value
  | S n' => chain migs n' (from + 1) (step migs (from + 1) value)
  end.

(** The calls of migration functions made on the way: one per version
    with a registered function, with the running value as argument. *)
Fixpoint chain_calls (migs : gmap Z (JSON -> JSAny)) (n : nat) (from : Z)
    (value : JSON) : list Event :=
  match n with
  | O => []
  | S n' =>
      match migs !! (from + 1) with
      | Some _ => [MigrationCall (from + 1) value]
      | None => []
      end ++ chain_calls migs n' (from + 1) (step migs (from + 1) value)
  end.

(** The step as the specification words it, for comparison: the result of
    the registered function becomes the running value, whatever it is. *)
Definition claimed_step (migs : gmap Z (JSON -> JSAny)) (version : Z)
    (value : JSAny) : JSAny :=
  match migs !! version with
  | Some f => value ≫= f
  | None => value
  end.

Fixpoint claimed_chain (migs : gmap Z (JSON -> JSAny)) (n : nat) (from : Z)
    (value : JSAny) : JSAny :=
  match n with
  | O => value
  | S n' => claimed_chain migs n' (from + 1) (claimed_step migs (from + 1) value)
  end.

(** The options that count for a key string in a [getItems] request:
    those of the last entry that names it. *)
Definition last_opts (keys : list GetItemsKey) (k : string)
  : option GetItemOptions :=
  last (filter (fun entry => storage.keyStr_of entry = k) keys)
    ≫= storage.opts_of.

(** What [getItems] answers for a key: the stored value, or the fallback
    of the options that count for it. *)
Definition expected_value (keys : list GetItemsKey) (w : World) (k : string)
  : JSON :=
  match resolveKey k with
  | Ok rk =>
      getValueOrFallback (area (driver rk) w !! driverKey rk)
        (fallback_of (last_opts keys k))
  | Throw _ => JNull
  end.

(** What the first loop of [getItems] maintains: every local key filed
    under an area is the local key of a key of that area; every key seen so
    far is filed under its area. *)
Definition filed (entry : string * list string) : Prop :=
  is_Some (drivers entry.1) /\
  forall k, k ∈ entry.2 ->
    exists d, resolveKey (entry.1 +:+ ":" +:+ k) =
                Ok {| driverArea := entry.1; driverKey := k; driver := d |}.

(** The answer of the driver to one area's batch, read in world [w]. *)
Definition answered (w : World) (entry : string * list string)
  : string * list (string * JSON) :=
  (entry.1,
   map (fun k => (k, orNull (drivers entry.1 ≫= fun d => area d w !! k)))
       entry.2).

(** The backend call of one area's batch. *)
Definition batch_call (entry : string * list string) : option Event :=
  (fun d => AreaGet d entry.2) <$> drivers entry.1.

Definition covered (rq : storage.Request) (k : string) : Prop :=
  exists rk ks,
    resolveKey k = Ok rk /\
    JsMap.get (driverArea rk) (storage.areaToKeyMap rq) = Some ks /\
    driverKey rk ∈ ks.

(** A world with more calls on its trace. *)
Definition add_trace (es : list Event) (w : World) : World :=
  mkWorld (w_local w) (w_session w) (w_sync w) (w_managed w) (w_trace w ++ es).

Import InitRace.

(** A task inside the callback of [runExclusive]. *)
Definition inside (t : Task) : Prop :=
  match t with
  | Reading | Initialising | Writing _ => True
  | Waiting | Done _ => False
  end.

(** A task other than the one inside the callback. *)
Definition outside (v : JSON) (t : Task) : Prop :=
  t = Waiting \/ t = Done (Ok (Some v)).

(** The states that concurrent calls go through, started in a world
    without a stored value, when [init] yields [v].  [inits] and [sets] are
    the numbers of [init] calls and of backend writes made before the
    calls started. *)
Inductive reachable (it : WxtStorageItem) (v : JSON) (inits sets : nat)
  : State -> Prop :=
  | fresh_free s :
      locked s = false ->
      nullish (stored_value it (world s)) = true ->
      init_calls (world s) = inits -> writes (world s) = sets ->
      (forall j t, tasks s !! j = Some t -> t = Waiting) ->
      reachable it v inits sets s
  | fresh_reading s i :
      locked s = true ->
      nullish (stored_value it (world s)) = true ->
      init_calls (world s) = inits -> writes (world s) = sets ->
      tasks s !! i = Some Reading ->
      (forall j t, j <> i -> tasks s !! j = Some t -> t = Waiting) ->
      reachable it v inits sets s
  | initialising s i :
      locked s = true ->
      nullish (stored_value it (world s)) = true ->
      init_calls (world s) = S inits -> writes (world s) = sets ->
      tasks s !! i = Some Initialising ->
      (forall j t, j <> i -> tasks s !! j = Some t -> t = Waiting) ->
      reachable it v inits sets s
  | stored_busy s i t :
      locked s = true ->
      stored_value it (world s) = Some v ->
      init_calls (world s) = S inits -> writes (world s) = S sets ->
      t = Reading \/ t = Writing (Some v) ->
      tasks s !! i = Some t ->
      (forall j t, j <> i -> tasks s !! j = Some t -> outside v t) ->
      reachable it v inits sets s
  | stored_free s :
      locked s = false ->
      stored_value it (world s) = Some v ->
      init_calls (world s) = S inits -> writes (world s) = S sets ->
      (forall j t, tasks s !! j = Some t -> outside v t) ->
      reachable it v inits sets s.

(** ** Batches

    The batch operations share one scheme: a first loop files what each
    entry asks for under the name of its area, in a map that keeps the
    areas in the order of their first entry; one backend call per area
    follows.  [locate] gives, for one entry, the area name and what the
    entry adds to that area's list. *)
Definition file_under {E V} (locate : E -> Result (string * list V))
    (acc : JsMap.t (list V)) (entry : E) : Result (JsMap.t (list V)) :=
  bindR (locate entry) (fun '(name, items) =>
  Ok (JsMap.set name (default [] (JsMap.get name acc) ++ items) acc)).

(** What the entries add to the list of area [name], in order. *)
Definition bucket {E V} (locate : E -> Result (string * list V))
    (name : string) (entries : list E) : list V :=
  flat_map (fun entry =>
              match locate entry with
              | Ok (n, items) => if decide (n = name) then items else []
              | Throw _ => []
              end) entries.

(** Whether some entry is filed under [name]. *)
Definition touched {E V} (locate : E -> Result (string * list V))
    (name : string) (entries : list E) : bool :=
  existsb (fun entry =>
             match locate entry with
             | Ok (n, _) => bool_decide (n = name)
             | Throw _ => false
             end) entries.

(** Where [setItems] files an entry, and where [removeItems] does. *)
Definition located_value (entry : string * JSAny)
  : Result (string * list (string * JSAny)) :=
  bindR (resolveKey entry.1) (fun rk =>
  Ok (driverArea rk, [(driverKey rk, entry.2)])).

Definition located_removal (entry : RemoveItemsKey)
  : Result (string * list string) :=
  bindR (resolveKey (storage.removed_keyStr entry)) (fun rk =>
  Ok (driverArea rk,
      driverKey rk ::
        if Internal.wants_removeMeta (storage.removed_opts entry)
        then [getMetaKey (driverKey rk)] else [])).

(** Where [getItemMetas] files an item. *)
Definition located_meta (entry : string * WxtStorageItem)
  : Result (string * list (string * option string)) :=
  let '(storageArea, segments) := split colon (key entry.2) in
  Ok (storageArea, [(entry.1, segments !! 0%nat)]).

(** Where [setItemMetas] files an item. *)
Definition located_update (metas : gmap string (option (gmap string JSAny)))
    (entry : string * WxtStorageItem)
  : Result (string * list (string * option (gmap string JSAny))) :=
  bindR (resolveKey (key entry.2)) (fun rk =>
  Ok (driverArea rk, [(driverKey rk, mjoin (metas !! entry.1))])).

(** The properties that [metas] gives for the shadow key [k] of area [a],
    in the order of the items. *)
Definition updates_to (a : StorageArea) (k : string)
    (items : list (string * WxtStorageItem))
    (metas : gmap string (option (gmap string JSAny)))
  : list (option (gmap string JSAny)) :=
  (fun entry : string * WxtStorageItem => mjoin (metas !! entry.1)) <$>
  filter (fun entry : string * WxtStorageItem =>
            driver (resolved entry.2) = a /\
            getMetaKey (driverKey (resolved entry.2)) = k) items.

(** The driver of an area name. *)
Definition area_of_name (name : string) : StorageArea :=
  default local (drivers name).

(** What one area's function of [setItemMetas] reads, and what it
    writes when every update has its properties. *)
Definition existing_metas (w : World) (d : StorageArea)
    (updates : list (string * option (gmap string JSAny)))
  : list (string * JSON) :=
  map (fun key => (key, orNull (area d w !! key)))
      (map (fun update : string * option (gmap string JSAny) =>
              getMetaKey update.1) updates).

Definition meta_updates (w : World) (d : StorageArea)
    (updates : list (string * option (gmap string JSAny)))
  : list (string * JSAny) :=
  map (fun update : string * option (gmap string JSAny) =>
         (getMetaKey update.1,
          Some (JObj (map_fold mergeField
                        (spread (getMetaValue (area d w !! getMetaKey update.1)))
                        (default ∅ update.2)))))
      updates.

(** One area's function of [setItemMetas] at its [await]. *)
Definition batch_of (w : World)
    (entry : string * list (string * option (gmap string JSAny)))
  : StorageArea * list (string * option (gmap string JSAny)) *
    list (string * JSON) :=
  (area_of_name entry.1, entry.2,
   existing_metas w (area_of_name entry.1) entry.2).

(** Whether [key] names the key [k] of area [a]. *)
Definition resolves_to (a : StorageArea) (k : string) (key : string) : bool :=
  match resolveKey key with
  | Ok rk => bool_decide (driver rk = a) && bool_decide (driverKey rk = k)
  | Throw _ => false
  end.

(** The values a list of key-value pairs gives for the key [k] of area
    [a], in the order of the list. *)
Definition writes_to (a : StorageArea) (k : string)
    (values : list (string * JSAny)) : list JSAny :=
  snd <$> filter (fun entry => resolves_to a k entry.1 = true) values.

(** Whether an entry of [removeItems] asks for the removal of the key [k]
    of area [a]: it names that key, or, with [removeMeta], the key whose
    shadow key [k] is. *)
Definition removes (a : StorageArea) (k : string) (entry : RemoveItemsKey)
  : bool :=
  match resolveKey (storage.removed_keyStr entry) with
  | Ok rk =>
      bool_decide (driver rk = a) &&
      (bool_decide (k = driverKey rk) ||
       Internal.wants_removeMeta (storage.removed_opts entry) &&
       bool_decide (k = getMetaKey (driverKey rk)))
  | Throw _ => false
  end.

(** The entry of [setItems] that [setItemValues] makes of an item. *)
Definition value_entry (values : gmap string JSAny)
    (entry : string * WxtStorageItem) : string * JSAny :=
  (key entry.2, mjoin (values !! entry.1)).

(** Metadata as [getItemMetas] answers it: the stored object, and the
    empty object for everything else. *)
Definition meta_object (stored : JSAny) : JSON :=
  match stored with
  | Some (JObj m) => JObj m
  | _ => JObj ∅
  end.

(** The first segment of a local key, up to its first delimiter. *)
Definition first_segment (k : string) : string := (split colon k).1.

(** The part of a key that [resolveKey] takes for the name of the area:
    what stands before the first delimiter. *)
Definition area_token (k : string) : string :=
  substring k 0 (Some (indexOf k ":")).

(** The entries of a batch that become fields of the object that
    [Driver.setItems] hands to the backend, [inherits] telling whether
    the object inherits from [Object.prototype] when the batch starts. *)
Fixpoint own_fields (inherits : bool) (values : list (string * JSAny))
  : list (string * JSAny) :=
  match values with
  | [] => []
  | kv :: values =>
      if decide (kv.1 = "__proto__") then
        if inherits
        then own_fields (match kv.2 with Some JNull => false | _ => true end)
                        values
        else kv :: own_fields false values
      else kv :: own_fields inherits values
  end.

(** The values that follow the first [null] of a list. *)
Fixpoint after_null (writes : list JSAny) : list JSAny :=
  match writes with
  | [] => []
  | Some JNull :: writes => writes
  | _ :: writes => after_null writes
  end.

(** Of the values a batch gives for the key [k] of an area, in order,
    those that reach the backend: all of them, except for the key
    [__proto__], where they are the values after the first [null]. *)
Definition reaching (k : string) (writes : list JSAny) : list JSAny :=
  if decide (k = "__proto__") then after_null writes else writes.

(** * Properties *)

(** ** Assignments and the names of [Object.prototype] *)

Lemma assign_ne {V} key (v : V) o :
  key <> "__proto__" -> assign key v o = <[key := v]> o.
Proof. intros Hkey. unfold assign. by rewrite decide_False. Qed.

Lemma lookup_assign_eq {V} key (v : V) o :
  assign key v o !! key =
    if decide (key = "__proto__") then (fun _ => v) <$> o !! key else Some v.
Proof.
  unfold assign. destruct (decide (key = "__proto__")) as [->|].
  - destruct (o !! "__proto__") as [x|] eqn:Hx; simpl.
    + by rewrite lookup_insert_eq.
    + by rewrite Hx.
  - by rewrite lookup_insert_eq.
Qed.

Lemma lookup_assign_ne {V} key k (v : V) o :
  key <> k -> assign key v o !! k = o !! k.
Proof.
  intros Hne. unfold assign. destruct (decide (key = "__proto__")).
  - destruct (o !! key); [by rewrite lookup_insert_ne|done].
  - by rewrite lookup_insert_ne.
Qed.

Lemma assign_proto_empty {V} (v : V) : assign "__proto__" v ∅ = ∅.
Proof. done. Qed.

Lemma prototype_member_proto k :
  prototype_member k = false -> k <> "__proto__".
Proof. by intros Hk ->. Qed.

Lemma append_dollar_not_proto k : k +:+ "$" <> "__proto__".
Proof.
  intros Heq.
  repeat (destruct k as [|? k]; [discriminate Heq|];
          change (String ?c ?s +:+ ?t) with (String c (s +:+ t)) in Heq;
          first [discriminate Heq | injection Heq as _ Heq]).
Qed.

(** ** Areas and drivers *)

Lemma area_record a e w : area a (record e w) = area a w.
Proof. by destruct a. Qed.

Lemma trace_record e w : w_trace (record e w) = w_trace w ++ [e].
Proof. done. Qed.

Lemma area_set_area a b st w :
  area a (set_area b st w) = if decide (a = b) then st else area a w.
Proof. by destruct a, b. Qed.

Lemma trace_set_area a st w : w_trace (set_area a st w) = w_trace w.
Proof. by destruct a. Qed.

Lemma answer_lookup keys (st : gmap string JSON) k :
  answer keys st !! k = if decide (k ∈ keys) then st !! k else None.
Proof.
  unfold answer. rewrite map_lookup_filter.
  destruct (st !! k) as [x|]; simpl; [|by destruct (decide _)].
  destruct (decide (k ∈ keys)).
  - by rewrite option_guard_True.
  - by rewrite option_guard_False.
Qed.

Lemma answer_lookup_in keys (st : gmap string JSON) k :
  k ∈ keys -> answer keys st !! k = st !! k.
Proof. intros Hin. rewrite answer_lookup. by case_decide. Qed.

Lemma Driver_getItem_eq a k w :
  Driver.getItem a k w = (Ok (area a w !! k), record (AreaGet a [k]) w).
Proof.
  unfold Driver.getItem, bind, area_get, ret.
  by rewrite answer_lookup_in by set_solver.
Qed.

Lemma Driver_getItems_eq a keys w :
  Driver.getItems a keys w =
    (Ok (map (fun k => (k, orNull (area a w !! k))) keys),
     record (AreaGet a keys) w).
Proof.
  unfold Driver.getItems, bind, area_get, ret. do 2 f_equal.
  apply map_ext_in. intros k Hk.
  by rewrite answer_lookup_in by by apply list_elem_of_In.
Qed.

Lemma orNull_Some v : orNull (Some v) = v.
Proof. by destruct v. Qed.

(** ** Key resolution *)

Lemma drivers_area_name a : drivers (area_name a) = Some a.
Proof. by destruct a. Qed.

(** X2: The format check of [resolveKey] can never fire: whatever the key, a
    failure of [resolveKey] is an invalid-area error. *)
Lemma resolveKey_failure_is_invalid_area k e :
  resolveKey k = Throw e -> exists name, e = InvalidArea name.
Proof.
  unfold resolveKey, getDriver. simpl.
  destruct (drivers _); simpl; [done|]. intros [= <-]. eauto.
Qed.

(** A key without delimiter is refused as an invalid (empty) area. *)
Lemma resolveKey_no_delimiter k :
  indexOf k ":" = -1 -> resolveKey k = Throw (InvalidArea "").
Proof.
  intros Hi. unfold resolveKey. rewrite Hi. simpl.
  unfold substring at 1.
  replace (Z.min (Z.max 0 (Z.min 0 _)) _) with 0 by lia.
  replace (Z.to_nat (Z.max _ _ - 0)) with 0%nat by lia.
  simpl. by destruct k.
Qed.

(** C4 (code defect): a key whose local-key segment is empty is accepted.
    For every area [a], resolving the key made of the area's name and the
    delimiter alone returns normally, with the empty string as local key;
    no malformed-key error is raised. *)
Theorem resolveKey_accepts_empty_local_key a :
  resolveKey (area_name a +:+ ":") =
    Ok {| driverArea := area_name a; driverKey := ""; driver := a |}.
Proof. by destruct a. Qed.

(** An area token that is not one of the four names is refused. *)
Lemma resolveKey_unknown_area k :
  let token := substring k 0 (Some (indexOf k ":")) in
  drivers token = None -> resolveKey k = Throw (InvalidArea token).
Proof.
  intros token Htoken. subst token. unfold resolveKey, getDriver. simpl.
  by rewrite Htoken.
Qed.

(** X3: A key that does not resolve fails the operation before any backend
    call: the world, trace included, is as it was.  This is for a key
    whose area token is not the name of a member of [Object.prototype]
    ([prototype_members]): for such a token the lookup of the area in the
    source finds the inherited member and the key is not refused. *)
Lemma unresolved_key_fails_fast k e w :
  prototype_member (area_token k) = false ->
  resolveKey k = Throw e ->
  (forall opts, storage.getItem k opts w = (Throw e, w)) /\
  (forall value, storage.setItem k value w = (Throw e, w)) /\
  storage.getMeta k w = (Throw e, w) /\
  (forall properties, storage.setMeta k properties w = (Throw e, w)) /\
  (forall opts, storage.removeItem k opts w = (Throw e, w)) /\
  (forall properties, storage.removeMeta k properties w = (Throw e, w)).
Proof.
  intros _ Hk.
  unfold storage.getItem, storage.setItem, storage.getMeta, storage.setMeta,
    storage.removeItem, storage.removeMeta, bind, lift.
  by rewrite Hk.
Qed.

(** [defineItem] refuses a target version below 1. *)
Lemma defineItem_version_below_1 k rk o :
  resolveKey k = Ok rk -> targetVersion (Some o) < 1 ->
  defineItem k (Some o) = Throw InvalidVersion.
Proof.
  intros Hk Hlt. unfold defineItem. rewrite Hk. simpl.
  by replace (targetVersion (Some o) <? 1) with true by lia.
Qed.

(** ** Metadata *)

Lemma getMeta_eq driver driverKey w :
  Internal.getMeta driver driverKey w =
    (Ok (getMetaValue (area driver w !! getMetaKey driverKey)),
     record (AreaGet driver [getMetaKey driverKey]) w).
Proof. unfold Internal.getMeta, bind, ret. by rewrite Driver_getItem_eq. Qed.

(** An object is handed back as it is. *)
Lemma getMetaValue_object m : getMetaValue (Some (JObj m)) = Some (JObj m).
Proof. done. Qed.

(** Absent, array, string, number and boolean all degrade to the empty
    mapping. *)
Lemma getMetaValue_degrades (x : JSAny) :
  x <> Some JNull -> (forall m, x <> Some (JObj m)) ->
  getMetaValue x = Some (JObj ∅).
Proof. destruct x as [[]|]; naive_solver. Qed.

(** X4: Whatever is stored at the shadow key, [getMeta] does not throw; for
    every shape other than an object and [null] it answers the empty
    mapping. *)
Lemma getMeta_degrades driver driverKey w :
  let stored := area driver w !! getMetaKey driverKey in
  stored <> Some JNull -> (forall m, stored <> Some (JObj m)) ->
  (Internal.getMeta driver driverKey w).1 = Ok (Some (JObj ∅)).
Proof.
  intros stored Hnull Hobj. rewrite getMeta_eq. simpl.
  by rewrite getMetaValue_degrades.
Qed.

(** C7 (code defect): [null] is the one stored shape that is not a plain
    object and yet is not turned into the empty mapping.  When the shadow
    key holds [null], [getMeta] returns [null]: [typeof null] is
    ['object'], so [getMetaValue] takes it for an object. *)
Theorem getMeta_of_stored_null driver driverKey w :
  area driver w !! getMetaKey driverKey = Some JNull ->
  (Internal.getMeta driver driverKey w).1 = Ok (Some JNull).
Proof. intros Hnull. by rewrite getMeta_eq, Hnull. Qed.

Lemma getMeta_of_stored_null_witness :
  let w := mkWorld {[ "installDate$" := JNull ]} ∅ ∅ ∅ [] in
  area local w !! getMetaKey "installDate" = Some JNull /\
  (Internal.getMeta local "installDate" w).1 = Ok (Some JNull).
Proof.
  split; [reflexivity|].
  apply (getMeta_of_stored_null local "installDate"). reflexivity.
Defined.

(** The same through the public interface: a [null] written to the shadow
    key by [setItems] is what [getMeta] answers afterwards. *)
Lemma getMeta_after_setItems_null :
  ((storage.setItems [("local:installDate$", Some JNull)] ;;;
    storage.getMeta "local:installDate") empty_world).1 = Ok (Some JNull).
Proof. reflexivity. Qed.

Lemma Driver_setItem_defined a k v w :
  v <> JNull ->
  Driver.setItem a k (Some v) w =
    (Ok tt, record (AreaSet a {[ k := Some v ]})
              (set_area a (<[k := v]> (area a w)) w)).
Proof.
  intros Hv. unfold Driver.setItem.
  replace (nullish (Some v)) with false by by destruct v.
  unfold area_set. do 3 f_equal.
  rewrite omap_singleton_Some with (y := v) by done.
  by rewrite <- insert_union_singleton_l.
Qed.

Lemma Driver_setItem_nullish a k x w :
  nullish x = true ->
  Driver.setItem a k x w =
    (Ok tt, record (AreaRemove a [k]) (set_area a (delete k (area a w)) w)).
Proof. intros Hx. unfold Driver.setItem. by rewrite Hx. Qed.

Lemma map_fold_mergeField existing properties field :
  map_fold mergeField existing properties !! field =
    merged existing properties field.
Proof.
  unfold merged. revert field.
  apply (map_fold_weak_ind
    (fun r (m : gmap string JSAny) => forall field,
       r !! field = match m !! field with
                    | Some value =>
                        if nullish value then None
                        else if decide (field = "__proto__")
                             then existing !! field ≫= fun _ => value
                             else value
                    | None => existing !! field
                    end)).
  - intros field. by rewrite lookup_empty.
  - intros i x m r Hi IH field. unfold mergeField.
    destruct (decide (field = i)) as [->|Hne].
    + rewrite lookup_insert_eq. pose proof (IH i) as Hr. rewrite Hi in Hr.
      destruct (nullish x) eqn:Hx; [by rewrite lookup_delete_eq|].
      destruct x as [v|]; [|done].
      rewrite lookup_assign_eq, Hr.
      destruct (decide (i = "__proto__")); [|done].
      by destruct (existing !! i).
    + rewrite (lookup_insert_ne m) by done. rewrite <- IH.
      destruct (nullish x); [by rewrite lookup_delete_ne|].
      destruct x; [by rewrite lookup_assign_ne|done].
Qed.

Lemma setMeta_eq driver driverKey properties w :
  let metaKey := getMetaKey driverKey in
  let newFields :=
    map_fold mergeField
      (spread (getMetaValue (area driver w !! metaKey))) properties in
  Internal.setMeta driver driverKey (Some properties) w =
    (Ok tt,
     record (AreaSet driver {[ metaKey := Some (JObj newFields) ]})
       (set_area driver (<[metaKey := JObj newFields]> (area driver w))
          (record (AreaGet driver [metaKey]) w))).
Proof.
  intros metaKey newFields. unfold Internal.setMeta, bind.
  rewrite Driver_getItem_eq. fold metaKey. fold newFields.
  rewrite Driver_setItem_defined by done. by rewrite area_record.
Qed.

(** The mapping [getMeta] reads after [setMeta] has run. *)
Lemma getMeta_after_setMeta driver driverKey properties w :
  ((Internal.setMeta driver driverKey (Some properties) ;;;
    Internal.getMeta driver driverKey) w).1 =
  Ok (Some (JObj (map_fold mergeField
       (spread (getMetaValue (area driver w !! getMetaKey driverKey)))
       properties))).
Proof.
  unfold bind at 1. rewrite setMeta_eq. cbv zeta. rewrite getMeta_eq. simpl.
  rewrite area_record, area_set_area.
  destruct (decide (driver = driver)); [|done]. by rewrite lookup_insert_eq.
Qed.

Lemma stored_after_setMeta driver driverKey properties w w' :
  Internal.setMeta driver driverKey (Some properties) w = (Ok tt, w') ->
  area driver w' !! getMetaKey driverKey =
    Some (JObj (map_fold mergeField
      (spread (getMetaValue (area driver w !! getMetaKey driverKey)))
      properties)).
Proof.
  rewrite setMeta_eq. cbv zeta. intros [= <-].
  rewrite area_record, area_set_area.
  destruct (decide (driver = driver)); [|done]. by rewrite lookup_insert_eq.
Qed.

(** C6 (code defect at the field [__proto__]): [setMeta] merges field by
    field.  After [setMeta], the shadow key (the key followed by [$])
    holds, and [getMeta] answers, a mapping in which every field of the
    input is deleted when its value is null or undefined and overwritten
    otherwise, and every stored field that the input does not mention is
    as before.  Hence [{a:1}] followed by [{b:2}] leaves both fields set
    on top of what was stored (exactly [{a:1, b:2}] on a key without
    metadata), and [{a:null}] removes [a].  The field [__proto__] is the
    exception: it is deleted as the others are, but a value given for it
    is written only over a stored field of that name, so that
    [{__proto__: 1}] on a key without metadata leaves the metadata
    empty. *)
Theorem setMeta_merges_fields driver driverKey w :
  let shadow := driverKey +:+ "$" in
  let stored := spread (getMetaValue (area driver w !! shadow)) in
  let setMeta properties := Internal.setMeta driver driverKey (Some properties) in
  let getMeta := Internal.getMeta driver driverKey in
  (forall properties, exists newFields,
      ((setMeta properties ;;; getMeta) w).1 = Ok (Some (JObj newFields)) /\
      area driver (setMeta properties w).2 !! shadow = Some (JObj newFields) /\
      forall field, newFields !! field = merged stored properties field) /\
  (forall properties field value,
      properties !! field = Some (Some value) -> value <> JNull ->
      field <> "__proto__" ->
      exists newFields,
        ((setMeta properties ;;; getMeta) w).1 = Ok (Some (JObj newFields)) /\
        newFields !! field = Some value) /\
  ((setMeta {[ "a" := Some (JNum 1) ]} ;;; setMeta {[ "b" := Some (JNum 2) ]} ;;;
    getMeta) w).1 = Ok (Some (JObj (<["b" := JNum 2]> (<["a" := JNum 1]> stored)))) /\
  ((storage.setMeta "local:k" (Some {[ "a" := Some (JNum 1) ]}) ;;;
    storage.setMeta "local:k" (Some {[ "b" := Some (JNum 2) ]}) ;;;
    storage.getMeta "local:k") empty_world).1 =
    Ok (Some (JObj (<["b" := JNum 2]> {[ "a" := JNum 1 ]}))) /\
  area local
    (storage.setMeta "local:k" (Some {[ "a" := Some (JNum 1) ]}) empty_world).2
    !! "k$" = Some (JObj {[ "a" := JNum 1 ]}) /\
  (exists newFields,
      ((setMeta {[ "a" := Some JNull ]} ;;; getMeta) w).1 =
        Ok (Some (JObj newFields)) /\
      newFields !! "a" = None /\
      forall field, field <> "a" -> newFields !! field = stored !! field) /\
  ((storage.setMeta "local:k" (Some {[ "__proto__" := Some (JNum 1) ]}) ;;;
    storage.getMeta "local:k") empty_world).1 = Ok (Some (JObj ∅)).
Proof.
  intros shadow stored setMeta getMeta. subst setMeta getMeta. cbv beta.
  change shadow with (getMetaKey driverKey) in *.
  split; [|split; [|split; [|split; [|split; [|split]]]]].
  - intros properties. eexists. split; [|split].
    + apply getMeta_after_setMeta.
    + eapply stored_after_setMeta. rewrite setMeta_eq. reflexivity.
    + intros field. apply map_fold_mergeField.
  - intros properties field value Hfield Hvalue Hproto. eexists.
    split; [apply getMeta_after_setMeta|].
    rewrite map_fold_mergeField. unfold merged. rewrite Hfield.
    replace (nullish (Some value)) with false by by destruct value.
    by rewrite decide_False.
  - unfold bind at 1.
    destruct (Internal.setMeta _ _ _ w) as [r w1] eqn:Hw1.
    pose proof Hw1 as Hw1'. rewrite setMeta_eq in Hw1'. cbv zeta in Hw1'.
    injection Hw1' as <- _.
    apply stored_after_setMeta in Hw1.
    rewrite getMeta_after_setMeta, Hw1.
    by rewrite !(map_fold_singleton mergeField).
  - reflexivity.
  - reflexivity.
  - eexists. split; [apply getMeta_after_setMeta|]. fold stored.
    rewrite (map_fold_singleton mergeField). unfold mergeField. simpl. split.
    + apply lookup_delete_eq.
    + intros field Hne. by apply lookup_delete_ne.
  - reflexivity.
Qed.

(** ** Values *)

Lemma getValueOrFallback_absent opts :
  getValueOrFallback None (fallback_of opts) = configured_fallback opts.
Proof.
  unfold getValueOrFallback, fallback_of, configured_fallback.
  destruct opts as [[d f]|]; simpl; [|done].
  destruct f as [[]|]; try done; by destruct d as [[]|].
Qed.

Lemma getValueOrFallback_present v fb :
  v <> JNull -> getValueOrFallback (Some v) fb = v.
Proof. by destruct v. Qed.

Lemma getItem_eq driver driverKey opts w :
  Internal.getItem driver driverKey opts w =
    (Ok (getValueOrFallback (area driver w !! driverKey) (fallback_of opts)),
     record (AreaGet driver [driverKey]) w).
Proof. unfold Internal.getItem, bind, ret. by rewrite Driver_getItem_eq. Qed.

Lemma setItem_nullish_eq driver driverKey x w :
  nullish x = true ->
  Internal.setItem driver driverKey x w =
    (Ok tt, record (AreaRemove driver [driverKey])
              (set_area driver (delete driverKey (area driver w)) w)).
Proof.
  intros Hx. unfold Internal.setItem.
  apply Driver_setItem_nullish. by destruct x as [[]|].
Qed.

(** C8 (code defect at the local keys that name a member of
    [Object.prototype]): a value that is not null reads back as written,
    whatever fallback is configured; writing null or undefined is the
    very same computation as [removeItem]; and, for a local key that is
    not one of the [prototype_members], writing null or undefined makes
    the next read answer the configured fallback, or null without one.
    For a local key of that list the read after the removal finds the
    member that the answer of the backend inherits, and the fallback is
    not consulted. *)
Theorem setItem_getItem_roundtrip k rk opts w :
  resolveKey k = Ok rk ->
  (forall v, v <> JNull ->
     ((storage.setItem k (Some v) ;;; storage.getItem k opts) w).1 = Ok v) /\
  (forall x, nullish x = true ->
     (prototype_member (driverKey rk) = false ->
      ((storage.setItem k x ;;; storage.getItem k opts) w).1 =
        Ok (configured_fallback opts)) /\
     storage.setItem k x w = storage.removeItem k None w).
Proof.
  intros Hrk. split.
  - intros v Hv.
    unfold storage.setItem, storage.getItem, lift, bind. rewrite Hrk.
    unfold Internal.setItem. rewrite orNull_Some.
    rewrite Driver_setItem_defined by done. rewrite getItem_eq. simpl.
    rewrite area_record, area_set_area.
    destruct (decide _); [|done]. rewrite lookup_insert_eq.
    by rewrite getValueOrFallback_present.
  - intros x Hx. split.
    + intros _.
      unfold storage.setItem, storage.getItem, lift, bind. rewrite Hrk.
      rewrite setItem_nullish_eq by done. rewrite getItem_eq. simpl.
      rewrite area_record, area_set_area.
      destruct (decide _); [|done]. rewrite lookup_delete_eq.
      by rewrite getValueOrFallback_absent.
    + unfold storage.setItem, storage.removeItem, lift, bind. rewrite Hrk.
      by rewrite setItem_nullish_eq.
Qed.

Lemma setItem_getItem_roundtrip_witness :
  let k := "local:installDate" in
  let opts := Some {| defaultValue := None; fallback := Some (JNum 7) |} in
  resolveKey k =
    Ok {| driverArea := "local"; driverKey := "installDate"; driver := local |} /\
  ((storage.setItem k (Some (JStr "today")) ;;; storage.getItem k opts)
     empty_world).1 = Ok (JStr "today") /\
  ((storage.setItem k (Some JNull) ;;; storage.getItem k opts)
     empty_world).1 = Ok (JNum 7).
Proof.
  intros k opts.
  destruct (setItem_getItem_roundtrip k _ opts empty_world eq_refl)
    as [Hset Hnull].
  split; [reflexivity|]. split.
  - by apply Hset.
  - destruct (Hnull (Some JNull) eq_refl) as [Hfallback _].
    exact (Hfallback eq_refl).
Defined.

(** ** Snapshots *)

Lemma excluded_cons (k key : string) keys :
  k ∈ (key :: keys) ++ (getMetaKey <$> key :: keys) <->
  k = key \/ k = getMetaKey key \/ k ∈ keys ++ (getMetaKey <$> keys).
Proof.
  rewrite fmap_cons, !elem_of_app, !elem_of_cons. tauto.
Qed.

Lemma exclude_lookup (keys : list string) (data : gmap string JSON) k :
  fold_left (fun data key => delete (getMetaKey key) (delete key data)) keys data
    !! k =
  if decide (k ∈ keys ++ (getMetaKey <$> keys)) then None else data !! k.
Proof.
  revert data. induction keys as [|key keys IH]; intros data.
  - destruct (decide (k ∈ [] ++ (getMetaKey <$> []))) as [H|]; [|done].
    by apply elem_of_nil in H.
  - simpl fold_left. rewrite IH. clear IH.
    destruct (decide (k ∈ keys ++ _)) as [Hin|Hnin].
    { rewrite decide_True; [done|]. apply excluded_cons. tauto. }
    destruct (decide (k = getMetaKey key)) as [->|Hm].
    { rewrite lookup_delete_eq, decide_True; [done|]. apply excluded_cons. tauto. }
    rewrite lookup_delete_ne by done.
    destruct (decide (k = key)) as [->|Hk].
    { rewrite lookup_delete_eq, decide_True; [done|]. apply excluded_cons. tauto. }
    rewrite lookup_delete_ne by done.
    rewrite decide_False; [done|]. rewrite excluded_cons. tauto.
Qed.

(** C10: the snapshot of an area with [excludeKeys] has neither an excluded
    key nor its shadow key (the key followed by [$]); every other entry of
    the area is in it, unchanged; and the area itself is only read. *)
Theorem snapshot_excludes_keys a keys w :
  exists data,
    storage.snapshot (area_name a) (Some {| excludeKeys := Some keys |}) w =
      (Ok data, record (AreaGetAll a) w) /\
    (forall k, k ∈ keys -> data !! k = None /\ data !! (k +:+ "$") = None) /\
    (forall k, k ∉ keys -> (forall key, key ∈ keys -> k <> key +:+ "$") ->
       data !! k = area a w !! k).
Proof.
  eexists. split; [|split].
  - unfold storage.snapshot, lift, bind, getDriver.
    rewrite drivers_area_name. reflexivity.
  - intros k Hk. change (k +:+ "$") with (getMetaKey k).
    simpl. rewrite !exclude_lookup.
    split; (rewrite decide_True; [done|]);
      apply elem_of_app; [left|right]; [done|].
    apply list_elem_of_fmap. eauto.
  - intros k Hk Hmeta. simpl. rewrite exclude_lookup.
    case_decide as H; [|done]. exfalso.
    apply elem_of_app in H as [H|H]; [done|].
    apply list_elem_of_fmap in H as (key & -> & Hkey). by apply (Hmeta key).
Qed.

(** ** Migrations *)

Lemma add_trace_nil w : add_trace [] w = w.
Proof. destruct w. unfold add_trace. simpl. by rewrite app_nil_r. Qed.

Lemma add_trace_app es es' w :
  add_trace es' (add_trace es w) = add_trace (es ++ es') w.
Proof. unfold add_trace. simpl. by rewrite app_assoc. Qed.

Lemma area_add_trace a es w : area a (add_trace es w) = area a w.
Proof. by destruct a. Qed.

Lemma record_add_trace e w : record e w = add_trace [e] w.
Proof. done. Qed.

Lemma Array_from_succ (n : nat) (from : Z) :
  Array_from (Z.of_nat (S n)) (fun i => from + i + 1) =
    (from + 1) :: Array_from (Z.of_nat n) (fun i => (from + 1) + i + 1).
Proof.
  unfold Array_from. rewrite !Nat2Z.id. simpl seq. simpl map.
  f_equal; [lia|].
  rewrite <- seq_shift, map_map. apply map_ext. intros i. lia.
Qed.

Lemma callMigration_eq migs version value w :
  callMigration migs version value w =
    (Ok (migs !! version ≫= fun f => f value),
     add_trace (match migs !! version with
                | Some _ => [MigrationCall version value]
                | None => []
                end) w).
Proof.
  unfold callMigration. destruct (migs !! version); simpl; [done|].
  by rewrite add_trace_nil.
Qed.

Lemma migration_loop migs (n : nat) (from : Z) (value : JSON) w :
  forOf (fun migratedValue migrateToVersion =>
           r <- callMigration migs migrateToVersion migratedValue ;;
           ret (orElse r migratedValue))
        (Array_from (Z.of_nat n) (fun i => from + i + 1)) value w =
    (Ok (chain migs n from value), add_trace (chain_calls migs n from value) w).
Proof.
  revert from value w. induction n as [|n IH]; intros from value w.
  - simpl. by rewrite add_trace_nil.
  - rewrite Array_from_succ. simpl forOf. unfold bind at 1. unfold bind at 1.
    rewrite callMigration_eq. unfold ret at 1. rewrite IH.
    rewrite add_trace_app. simpl chain. simpl chain_calls. unfold step.
    by destruct (migs !! (from + 1)).
Qed.

Lemma length_append s1 s2 :
  String.length (s1 +:+ s2) = (String.length s1 + String.length s2)%nat.
Proof. induction s1 as [|c s1 IH]; simpl; [done|]. by rewrite IH. Qed.

(** The shadow key of a key is another key. *)
Lemma getMetaKey_ne k : getMetaKey k <> k.
Proof.
  intros Heq. apply (f_equal String.length) in Heq.
  unfold getMetaKey in Heq. rewrite length_append in Heq. simpl in Heq. lia.
Qed.

Lemma prop_orNull x p : prop (Some (orNull x)) p = prop x p.
Proof. by destruct x as [[]|]. Qed.

Lemma spread_orNull x : spread (Some (orNull x)) = spread x.
Proof. by destruct x as [[]|]. Qed.

Lemma fold_reduce_step inherits values (m : gmap string JSAny) :
  (fold_left Driver.reduce_step values (m, inherits)).1 =
    fold_left (fun m (kv : string * JSAny) => <[kv.1 := kv.2]> m)
      (own_fields inherits values) m.
Proof.
  revert m inherits.
  induction values as [|[k v] values IH]; intros m inherits; [done|].
  cbn [fold_left own_fields]. unfold Driver.reduce_step at 2. cbn [fst snd].
  destruct (decide (k = "__proto__")) as [->|]; [|apply IH].
  destruct inherits; apply IH.
Qed.

Lemma own_fields_other inherits values :
  Forall (fun kv : string * JSAny => kv.1 <> "__proto__") values ->
  own_fields inherits values = values.
Proof.
  induction 1 as [|kv values Hkv _ IH]; [done|].
  cbn [own_fields]. by rewrite decide_False, IH.
Qed.

Lemma filter_own_fields_other k inherits values :
  k <> "__proto__" ->
  filter (fun kv : string * JSAny => kv.1 = k) (own_fields inherits values) =
    filter (fun kv : string * JSAny => kv.1 = k) values.
Proof.
  intros Hk. revert inherits.
  induction values as [|[k0 v0] values IH]; intros inherits; [done|].
  cbn [own_fields fst snd].
  destruct (decide (k0 = "__proto__")) as [->|].
  - rewrite (filter_cons_False _ ("__proto__", v0)) by (simpl; congruence).
    destruct inherits; [apply IH|].
    rewrite filter_cons_False by (simpl; congruence). apply IH.
  - rewrite !filter_cons. by rewrite IH.
Qed.

Lemma filter_own_fields_proto inherits values :
  (filter (fun kv : string * JSAny => kv.1 = "__proto__")
     (own_fields inherits values)).*2 =
    let writes :=
      (filter (fun kv : string * JSAny => kv.1 = "__proto__") values).*2 in
    if inherits then after_null writes else writes.
Proof.
  revert inherits.
  induction values as [|[k0 v0] values IH]; intros inherits;
    [by destruct inherits|].
  cbn [own_fields fst snd].
  destruct (decide (k0 = "__proto__")) as [->|].
  - rewrite (filter_cons_True _ ("__proto__", v0)) by done.
    cbn zeta. cbn [fmap list_fmap snd]. destruct inherits.
    + rewrite IH. by destruct v0 as [[]|].
    + rewrite filter_cons_True by done. cbn [fmap list_fmap snd].
      by rewrite IH.
  - rewrite (filter_cons_False _ (k0, v0)) by done.
    rewrite filter_cons_False by done. apply IH.
Qed.

Lemma Driver_setItems_pair a k1 k2 (v1 v2 : JSON) w :
  k2 <> "__proto__" ->
  Driver.setItems a [(k1, Some v1); (k2, Some v2)] w =
    (Ok tt,
     record (AreaSet a (<[k2 := Some v2]>
                          (if decide (k1 = "__proto__") then ∅
                           else {[ k1 := Some v1 ]})))
       (set_area a (<[k2 := v2]>
                      (if decide (k1 = "__proto__") then area a w
                       else <[k1 := v1]> (area a w))) w)).
Proof.
  intros Hk2. unfold Driver.setItems, area_set. cbn zeta.
  rewrite fold_reduce_step. cbn [own_fields fst snd].
  destruct (decide (k1 = "__proto__")) as [->|Hk1];
    cbn [own_fields fst snd];
    rewrite (decide_False (P := k2 = "__proto__")) by done;
    cbn [fold_left fst snd].
  - do 3 f_equal.
    rewrite insert_empty, (omap_singleton_Some _ _ _ v2) by done.
    by rewrite <- insert_union_singleton_l.
  - rewrite insert_empty.
    do 3 f_equal.
    rewrite (omap_insert_Some _ _ _ _ v2) by done.
    rewrite (omap_singleton_Some _ _ _ v1) by done.
    by rewrite <- insert_union_l, <- insert_union_singleton_l.
Qed.

Section Migrate.

Variable it : WxtStorageItem.

#[local] Abbreviation d := (driver (resolved it)).
#[local] Abbreviation dk := (driverKey (resolved it)).
#[local] Abbreviation mk := (getMetaKey (driverKey (resolved it))).
#[local] Abbreviation target := (targetVersion (opts it)).
#[local] Abbreviation migs := (migrations_of (opts it)).

Lemma migrate_absent w :
  nullish (stored_value it w) = true ->
  migrate it w = (Ok tt, record (AreaGet d [dk; mk]) w).
Proof.
  unfold stored_value. intros Hv. unfold migrate, bind.
  rewrite Driver_getItems_eq. simpl.
  by destruct (area d w !! dk) as [[]|].
Qed.

Lemma migrate_downgrade w value cur :
  stored_value it w = Some value -> value <> JNull ->
  version_of (stored_meta it w) = Some cur -> target < cur ->
  migrate it w =
    (Throw (VersionDowngrade cur target (key it)),
     record (AreaGet d [dk; mk]) w).
Proof.
  unfold stored_value, version_of, stored_meta.
  intros Hv Hnn Hver Hlt. unfold migrate, bind.
  rewrite Driver_getItems_eq. cbn [map]. rewrite Hv, orNull_Some.
  replace (nullish (Some value)) with false by by destruct value.
  rewrite prop_orNull.
  destruct (prop (area d w !! mk) "v") as [[]|]; simplify_eq; simpl.
  - replace (1 >? target) with true by lia. done.
  - replace (cur >? target) with true by lia. done.
  - replace (1 >? target) with true by lia. done.
Qed.

Lemma migrate_upgrade w value cur :
  stored_value it w = Some value -> value <> JNull ->
  version_of (stored_meta it w) = Some cur -> cur <= target ->
  let n := Z.to_nat (target - cur) in
  migrate it w =
    (Ok tt,
     record (AreaSet d (<[mk := Some (JObj (committed_meta it w))]>
                          (if decide (dk = "__proto__") then ∅
                           else {[ dk := Some (chain migs n cur value) ]})))
       (set_area d
          (<[mk := JObj (committed_meta it w)]>
             (if decide (dk = "__proto__") then area d w
              else <[dk := chain migs n cur value]> (area d w)))
          (add_trace (AreaGet d [dk; mk] :: chain_calls migs n cur value) w))).
Proof.
  intros Hv Hnn Hver Hle n.
  unfold stored_value, version_of, committed_meta, stored_meta in *.
  unfold migrate, bind at 1.
  rewrite Driver_getItems_eq. cbn [map]. rewrite Hv, orNull_Some.
  replace (nullish (Some value)) with false by by destruct value.
  rewrite prop_orNull, spread_orNull.
  assert (orElse (prop (area d w !! mk) "v") (JNum 1) = JNum cur) as ->.
  { destruct (prop (area d w !! mk) "v") as [[]|]; by simplify_eq. }
  replace (cur >? target) with false by lia.
  unfold bind at 1. replace (target - cur) with (Z.of_nat n) by lia.
  rewrite migration_loop, Driver_setItems_pair by apply append_dollar_not_proto.
  rewrite area_add_trace, area_record.
  by rewrite (record_add_trace (AreaGet _ _)), add_trace_app.
Qed.

End Migrate.

Lemma chain_calls_are_calls migs n from value :
  Forall (fun e => exists version arg, e = MigrationCall version arg)
         (chain_calls migs n from value).
Proof.
  revert from value. induction n as [|n IH]; intros from value; simpl.
  - constructor.
  - apply Forall_app. split; [|apply IH].
    destruct (migs !! (from + 1)); repeat constructor. eauto.
Qed.

(** A stored value without version metadata is at version 1. *)
Lemma stored_version_default it w :
  nullish (stored_value it w) = false ->
  prop (stored_meta it w) "v" = None -> stored_version it w = Some 1.
Proof. unfold stored_version, version_of. by intros -> ->. Qed.

Lemma stored_version_Some it w cur :
  stored_version it w = Some cur ->
  exists value,
    stored_value it w = Some value /\ value <> JNull /\
    version_of (stored_meta it w) = Some cur.
Proof.
  unfold stored_version.
  destruct (stored_value it w) as [value|]; [|done].
  destruct value; try done; intros Hver; by eexists.
Qed.

Lemma stored_after_upgrade it w st es :
  let w' := record es
              (set_area (driver (resolved it)) st w) in
  stored_value it w' = st !! driverKey (resolved it) /\
  stored_meta it w' = st !! getMetaKey (driverKey (resolved it)).
Proof.
  unfold stored_value, stored_meta. simpl.
  rewrite area_record, area_set_area. by destruct (decide _).
Qed.

(** C1 (amended): for an item whose local key is not one of the names
    that objects inherit ([prototype_members]).  When no value is stored,
    [migrate] reads once and does nothing else: no migration function is
    called and nothing is written.  When a value is stored, with stored
    version [cur] (1 without version metadata) not above the target,
    both within the integers that a JavaScript number holds exactly and
    fewer than [2^32] versions apart, [migrate] succeeds; the registered
    functions of the versions [cur + 1 .. target] are called in ascending
    order, each on the running value, and no other; the running value
    becomes a function's result when that result is neither null nor
    undefined and is kept otherwise, as it is at a version without
    function; the final running value is what is stored afterwards.
    (The migration functions of the model return; one that throws is
    outside it.) *)
Theorem migrate_runs_migrations_in_order it w :
  let d := driver (resolved it) in
  let dk := driverKey (resolved it) in
  let target := targetVersion (opts it) in
  let migs := migrations_of (opts it) in
  prototype_member dk = false ->
  match stored_value it w with
  | None | Some JNull =>
      migrate it w = (Ok tt, record (AreaGet d [dk; dk +:+ "$"]) w)
  | Some value =>
      forall cur, stored_version it w = Some cur -> cur <= target ->
        - 2 ^ 53 <= cur -> target <= 2 ^ 53 -> target - cur < 2 ^ 32 ->
        let n := Z.to_nat (target - cur) in
        exists items w',
          migrate it w = (Ok tt, w') /\
          stored_value it w' = Some (chain migs n cur value) /\
          w_trace w' =
            w_trace w ++ AreaGet d [dk; dk +:+ "$"]
              :: chain_calls migs n cur value ++ [AreaSet d items]
  end.
Proof.
  intros d dk target migs Hkey.
  apply prototype_member_proto in Hkey.
  destruct (stored_value it w) as [value|] eqn:Hv;
    [|by apply migrate_absent; rewrite Hv].
  assert (value <> JNull ->
    forall cur, stored_version it w = Some cur -> cur <= target ->
      let n := Z.to_nat (target - cur) in
      exists items w',
        migrate it w = (Ok tt, w') /\
        stored_value it w' = Some (chain migs n cur value) /\
        w_trace w' =
          w_trace w ++ AreaGet d [dk; dk +:+ "$"]
            :: chain_calls migs n cur value ++ [AreaSet d items]) as Hup.
  { intros Hnn cur Hcur Hle n.
    apply stored_version_Some in Hcur as (value' & Hv' & _ & Hcur).
    rewrite Hv in Hv'. injection Hv' as <-.
    do 2 eexists. split; [by apply (migrate_upgrade it w value cur)|].
    split.
    - rewrite (proj1 (stored_after_upgrade it _ _ _)).
      rewrite lookup_insert_ne by apply getMetaKey_ne.
      rewrite decide_False by done. apply lookup_insert_eq.
    - rewrite trace_record, trace_set_area. simpl.
      by rewrite <- app_assoc. }
  destruct value; try (intros cur Hcur Hle _ _ _; by apply Hup).
  by apply migrate_absent; rewrite Hv.
Qed.

Lemma migrate_runs_migrations_in_order_witness :
  let grow (field : string) (n : Z) (v : JSON) : JSAny :=
    Some (JObj (<[field := JNum n]> (spread (Some v)))) in
  let it :=
    {| key := "local:prefs";
       resolved := {| driverArea := "local"; driverKey := "prefs"; driver := local |};
       opts := Some {| opt_defaultValue := None; opt_fallback := None;
                       init := None; version := Some 3;
                       migrations := Some (<[2 := grow "y" 2]> {[ 3 := grow "z" 3 ]}) |} |} in
  let w := mkWorld {[ "prefs" := JObj {[ "x" := JNum 1 ]} ]} ∅ ∅ ∅ [] in
  prototype_member "prefs" = false /\
  stored_version it w = Some 1 /\
  exists items w',
    migrate it w = (Ok tt, w') /\
    stored_value it w' =
      Some (JObj (<["z" := JNum 3]> (<["y" := JNum 2]> {[ "x" := JNum 1 ]}))) /\
    w_trace w' =
      [ AreaGet local ["prefs"; "prefs$"];
        MigrationCall 2 (JObj {[ "x" := JNum 1 ]});
        MigrationCall 3 (JObj (<["y" := JNum 2]> {[ "x" := JNum 1 ]}));
        AreaSet local items ].
Proof.
  intros grow it w. split; [reflexivity|].
  split; [vm_compute; reflexivity|].
  pose proof (migrate_runs_migrations_in_order it w eq_refl) as H.
  hnf in H. specialize (H 1 eq_refl).
  assert (1 <= 3 /\ - 2 ^ 53 <= 1 /\ 3 <= 2 ^ 53 /\ 3 - 1 < 2 ^ 32)
    as (H1 & H2 & H3 & H4) by (vm_compute; repeat split; discriminate).
  specialize (H H1 H2 H3 H4).
  vm_compute in H. vm_compute. exact H.
Defined.

(** C1, as the claim words it, fails: a registered function that returns
    null does not make null the running value.  Stored 5 at version 1,
    target 2, and a migration to version 2 that returns null: the claim's
    chain ends with null, the code keeps and stores 5. *)
Lemma migrate_keeps_value_when_migration_returns_null :
  let it :=
    {| key := "local:count";
       resolved := {| driverArea := "local"; driverKey := "count"; driver := local |};
       opts := Some {| opt_defaultValue := None; opt_fallback := None;
                       init := None; version := Some 2;
                       migrations := Some {[ 2 := fun _ => Some JNull ]} |} |} in
  let w := mkWorld {[ "count" := JNum 5 ]} ∅ ∅ ∅ [] in
  (migrate it w).1 = Ok tt /\
  stored_value it (migrate it w).2 = Some (JNum 5) /\
  claimed_chain (migrations_of (opts it)) 1 1 (stored_value it w) = Some JNull /\
  stored_value it (migrate it w).2 <>
    claimed_chain (migrations_of (opts it)) 1 1 (stored_value it w).
Proof.
  intros it w. split; [|split; [|split]]; vm_compute; try reflexivity.
  discriminate.
Qed.

(** C2: when the stored version (the version of a stored value) is above
    the target, [migrate] fails with the downgrade error; the only backend
    call of the failed run is its one read, so every area, and with it
    the stored value and the stored version, is as before. *)
Theorem migrate_rejects_downgrade it w cur :
  stored_version it w = Some cur -> targetVersion (opts it) < cur ->
  exists w',
    migrate it w =
      (Throw (VersionDowngrade cur (targetVersion (opts it)) (key it)), w') /\
    (forall a, area a w' = area a w) /\
    stored_value it w' = stored_value it w /\
    stored_version it w' = Some cur /\
    w_trace w' =
      w_trace w ++ [AreaGet (driver (resolved it))
                      [driverKey (resolved it);
                       getMetaKey (driverKey (resolved it))]].
Proof.
  intros Hcur Hlt. eexists.
  destruct (stored_version_Some it w cur Hcur) as (value & Hv & Hnn & Hver).
  split; [by apply (migrate_downgrade it w value cur)|].
  unfold stored_version, stored_meta, stored_value in *.
  rewrite !area_record. split; [intros a; apply area_record|done].
Qed.

Lemma migrate_rejects_downgrade_witness :
  let it :=
    {| key := "local:count";
       resolved := {| driverArea := "local"; driverKey := "count"; driver := local |};
       opts := Some {| opt_defaultValue := None; opt_fallback := None;
                       init := None; version := Some 1;
                       migrations := Some ∅ |} |} in
  let w := mkWorld (<["count$" := JObj {[ "v" := JNum 3 ]}]> {[ "count" := JNum 5 ]})
                   ∅ ∅ ∅ [] in
  stored_version it w = Some 3 /\
  exists w',
    migrate it w = (Throw (VersionDowngrade 3 1 "local:count"), w') /\
    (forall a, area a w' = area a w) /\
    stored_value it w' = Some (JNum 5) /\
    stored_version it w' = Some 3 /\
    w_trace w' = [AreaGet local ["count"; "count$"]].
Proof.
  intros it w. split; [reflexivity|].
  apply (migrate_rejects_downgrade it w 3); reflexivity.
Defined.

(** C3 (code defect at the local key [__proto__]): a successful migration
    ends with exactly one backend write, a single [set].  For every local
    key but [__proto__] its object holds the migrated value, the outcome
    of the migration loop, under the value key and the metadata under the
    shadow key (the key followed by [$]), and both keys hold the new
    contents afterwards.  For the local key [__proto__] the object of the
    write has the shadow key only: the assignment that builds it adds no
    field of that name, so the stored value stays what it was while the
    version moves on.  In both cases the metadata written has the target
    version in [v] and, in every other field, what the stored metadata
    had (what the object spread copies from it: for a metadata object,
    its fields), and nothing else in the area changed.  Versions are
    within the integers that a JavaScript number holds exactly, fewer
    than [2^32] apart. *)
Theorem migrate_commits_in_one_write it w cur :
  let d := driver (resolved it) in
  let dk := driverKey (resolved it) in
  let shadow := driverKey (resolved it) +:+ "$" in
  let target := targetVersion (opts it) in
  let n := Z.to_nat (targetVersion (opts it) - cur) in
  stored_version it w = Some cur -> cur <= target ->
  - 2 ^ 53 <= cur -> target <= 2 ^ 53 -> target - cur < 2 ^ 32 ->
  exists value w',
    area d w !! dk = Some value /\
    migrate it w = (Ok tt, w') /\
    w_trace w' =
      w_trace w ++ AreaGet d [dk; shadow]
        :: chain_calls (migrations_of (opts it)) n cur value ++
        [AreaSet d (<[shadow := Some (JObj (committed_meta it w))]>
                      (if decide (dk = "__proto__") then ∅
                       else {[ dk := Some (chain (migrations_of (opts it)) n
                                             cur value) ]}))] /\
    area d w' !! dk =
      Some (if decide (dk = "__proto__") then value
            else chain (migrations_of (opts it)) n cur value) /\
    area d w' !! shadow = Some (JObj (committed_meta it w)) /\
    committed_meta it w !! "v" = Some (JNum target) /\
    (forall field, field <> "v" ->
       committed_meta it w !! field = spread (area d w !! shadow) !! field) /\
    (forall m, area d w !! shadow = Some (JObj m) ->
       forall field, field <> "v" -> committed_meta it w !! field = m !! field) /\
    (forall k, k <> dk -> k <> shadow -> area d w' !! k = area d w !! k) /\
    (forall a, a <> d -> area a w' = area a w).
Proof.
  intros d dk shadow target n Hcur Hle _ _ _. subst d dk shadow target n.
  change (driverKey (resolved it) +:+ "$")
    with (getMetaKey (driverKey (resolved it))).
  destruct (stored_version_Some it w cur Hcur) as (value & Hv & Hnn & Hver).
  pose proof (migrate_upgrade it w value cur Hv Hnn Hver Hle) as Hrun.
  cbv zeta in Hrun.
  exists value. eexists.
  split; [exact Hv|]. split; [exact Hrun|].
  split; [|split; [|split; [|split; [|split; [|split; [|split]]]]]].
  - rewrite trace_record, trace_set_area. simpl. by rewrite <- app_assoc.
  - rewrite area_record, area_set_area.
    destruct (decide (_ = "__proto__"));
      (destruct (decide _); [|done]);
      rewrite lookup_insert_ne by apply getMetaKey_ne;
      [exact Hv|apply lookup_insert_eq].
  - rewrite area_record, area_set_area.
    destruct (decide (_ = "__proto__"));
      (destruct (decide _); [|done]); apply lookup_insert_eq.
  - apply lookup_insert_eq.
  - intros field Hne. unfold committed_meta. by rewrite lookup_insert_ne.
  - intros m Hm field Hne. unfold committed_meta.
    rewrite lookup_insert_ne by done. unfold stored_meta. by rewrite Hm.
  - intros k Hk Hmk. rewrite area_record, area_set_area.
    destruct (decide (_ = "__proto__"));
      (destruct (decide _); [|done]);
      by rewrite !lookup_insert_ne by done.
  - intros a Ha. rewrite area_record, area_set_area.
    destruct (decide (a = _)); [done|]. apply area_add_trace.
Qed.

Lemma migrate_commits_in_one_write_witness :
  let item (name : string) :=
    {| key := "local:" +:+ name;
       resolved := {| driverArea := "local"; driverKey := name; driver := local |};
       opts := Some {| opt_defaultValue := None; opt_fallback := None;
                       init := None; version := Some 2;
                       migrations := Some {[ 2 := fun _ => Some (JNum 6) ]} |} |} in
  let w := mkWorld (<["count$" := JObj (<["v" := JNum 1]> {[ "app" := JStr "1.0" ]})]>
                      {[ "count" := JNum 5 ]}) ∅ ∅ ∅ [] in
  let w0 := mkWorld {[ "__proto__" := JNum 5 ]} ∅ ∅ ∅ [] in
  stored_version (item "count") w = Some 1 /\
  (exists w',
     migrate (item "count") w = (Ok tt, w') /\
     w_trace w' =
       [ AreaGet local ["count"; "count$"];
         MigrationCall 2 (JNum 5);
         AreaSet local
           (<["count$" := Some (JObj (<["v" := JNum 2]> {[ "app" := JStr "1.0" ]}))]>
              {[ "count" := Some (JNum 6) ]}) ] /\
     area local w' !! "count" = Some (JNum 6) /\
     area local w' !! "count$" =
       Some (JObj (<["v" := JNum 2]> {[ "app" := JStr "1.0" ]}))) /\
  stored_version (item "__proto__") w0 = Some 1 /\
  (exists w',
     migrate (item "__proto__") w0 = (Ok tt, w') /\
     w_trace w' =
       [ AreaGet local ["__proto__"; "__proto__$"];
         MigrationCall 2 (JNum 5);
         AreaSet local {[ "__proto__$" := Some (JObj {[ "v" := JNum 2 ]}) ]} ] /\
     area local w' !! "__proto__" = Some (JNum 5) /\
     area local w' !! "__proto__$" = Some (JObj {[ "v" := JNum 2 ]})).
Proof.
  intros item w w0. split; [reflexivity|]. split; [|split; [reflexivity|]].
  - destruct (migrate_commits_in_one_write (item "count") w 1)
      as (value & w' & Hv & Hrun & Htrace & Hvalue & Hmeta & _);
      [reflexivity | by vm_compute..|].
    vm_compute in Hv. injection Hv as <-.
    exists w'. split; [exact Hrun|].
    split; [exact (eq_trans Htrace eq_refl)|].
    split; [exact Hvalue|]. exact (eq_trans Hmeta eq_refl).
  - destruct (migrate_commits_in_one_write (item "__proto__") w0 1)
      as (value & w' & Hv & Hrun & Htrace & Hvalue & Hmeta & _);
      [reflexivity | by vm_compute..|].
    vm_compute in Hv. injection Hv as <-.
    exists w'. split; [exact Hrun|].
    split; [exact (eq_trans Htrace eq_refl)|].
    split; [exact Hvalue|]. exact (eq_trans Hmeta eq_refl).
Defined.

(** ** Resolved keys are the area, the delimiter and the local key *)

Lemma substring_all s : String.substring 0 (String.length s) s = s.
Proof. induction s as [|c s IH]; simpl; [done|]. by rewrite IH. Qed.

Lemma index_cons_single a c s :
  String.index 0 (String a "") (String c s) =
    if Ascii.ascii_dec a c then Some 0%nat
    else S <$> String.index 0 (String a "") s.
Proof.
  cbn [String.index String.prefix].
  destruct (Ascii.ascii_dec a c); [by destruct s|].
  by destruct (String.index 0 (String a "") s).
Qed.

Lemma index_colon_split s n :
  String.index 0 ":" s = Some n ->
  (n < String.length s)%nat /\
  s = String.substring 0 n s +:+ ":" +:+
      String.substring (n + 1) (String.length s - (n + 1)) s.
Proof.
  revert n. induction s as [|c s IH]; intros n; [done|].
  rewrite index_cons_single.
  destruct (Ascii.ascii_dec _ c) as [<-|Hc].
  - intros [= <-]. split; [simpl; lia|].
    cbn [String.substring String.length Nat.add Nat.sub String.append].
    by rewrite Nat.sub_0_r, substring_all.
  - destruct (String.index 0 ":" s) as [n'|]; [|done].
    intros [= <-]. destruct (IH n' eq_refl) as [Hlt Heq].
    split; [simpl; lia|].
    cbn [String.substring String.length Nat.add Nat.sub String.append].
    by rewrite Heq at 1.
Qed.

Lemma resolveKey_Ok k rk :
  resolveKey k = Ok rk ->
  k = driverArea rk +:+ ":" +:+ driverKey rk /\
  drivers (driverArea rk) = Some (driver rk).
Proof.
  unfold resolveKey, indexOf, getDriver. simpl.
  destruct (String.index 0 ":" k) as [n|] eqn:Hidx.
  - destruct (index_colon_split k n Hidx) as [Hlt Heq].
    destruct (drivers _) as [d|] eqn:Hd; simpl; [|done].
    intros [= <-]. simpl. split; [|done].
    unfold substring.
    replace (Z.to_nat (Z.min _ _)) with 0%nat by lia.
    replace (Z.to_nat (Z.max (Z.max 0 (Z.min 0 _)) _ - _)) with n by lia.
    replace (Z.to_nat (Z.min _ _)) with (n + 1)%nat by lia.
    replace (Z.to_nat (Z.max _ _ - _))
      with (String.length k - (n + 1))%nat by lia.
    exact Heq.
  - replace (substring k 0 (Some (-1))) with "".
    + done.
    + unfold substring.
      replace (Z.to_nat (Z.min _ _)) with 0%nat by lia.
      replace (Z.to_nat (Z.max _ _ - _)) with 0%nat by lia.
      by destruct k.
Qed.

(** ** Batched reads *)

Lemma JsMap_get_set {V} k k' (v : V) m :
  JsMap.get k' (JsMap.set k v m) = if decide (k = k') then Some v else JsMap.get k' m.
Proof.
  induction m as [|[k0 v0] m IH]; simpl.
  - destruct (String.eqb_spec k k'); by case_decide.
  - destruct (String.eqb_spec k0 k) as [->|Hne]; simpl.
    + destruct (String.eqb_spec k k'); by case_decide.
    + rewrite IH. destruct (String.eqb_spec k0 k') as [->|]; [|done].
      by rewrite decide_False by done.
Qed.

Lemma JsMap_get_In {V} k (v : V) m : JsMap.get k m = Some v -> (k, v) ∈ m.
Proof.
  induction m as [|[k0 v0] m IH]; simpl; [done|].
  destruct (String.eqb_spec k0 k) as [->|].
  - intros [= ->]. apply list_elem_of_here.
  - intros H. apply list_elem_of_further. by apply IH.
Qed.

Lemma JsMap_set_Forall {V} (P : string * V -> Prop) k v m :
  Forall P m -> P (k, v) -> Forall P (JsMap.set k v m).
Proof.
  intros Hm Hkv. induction Hm as [|[k0 v0] m H0 Hm IH]; simpl.
  - by constructor.
  - destruct (String.eqb k0 k); by constructor.
Qed.

Section GetItems.

Import storage.

Lemma request_step_spec rq entry rk :
  resolveKey (keyStr_of entry) = Ok rk ->
  Forall filed (areaToKeyMap rq) ->
  Forall (covered rq) (orderedKeys rq) ->
  exists rq',
    request_step rq entry = Ok rq' /\
    orderedKeys rq' = orderedKeys rq ++ [keyStr_of entry] /\
    keyToOptsMap rq' = <[keyStr_of entry := opts_of entry]> (keyToOptsMap rq) /\
    Forall filed (areaToKeyMap rq') /\
    Forall (covered rq') (orderedKeys rq').
Proof.
  intros Hrk Hfiled Hcov. unfold request_step. rewrite Hrk. simpl.
  eexists. split; [done|]. simpl. split; [done|]. split; [done|].
  destruct (resolveKey_Ok _ _ Hrk) as [Hkey Hdrv].
  set (areaKeys := default [] (JsMap.get (driverArea rk) (areaToKeyMap rq))).
  split.
  - apply JsMap_set_Forall; [done|]. split; [by simpl; rewrite Hdrv|].
    intros k Hk. simpl in *.
    apply elem_of_app in Hk as [Hk|Hk].
    + subst areaKeys.
      destruct (JsMap.get _ _) as [ks|] eqn:Hget; simpl in Hk;
        [|by apply elem_of_nil in Hk].
      apply JsMap_get_In in Hget.
      rewrite Forall_forall in Hfiled. by apply (Hfiled _ Hget).
    + apply list_elem_of_singleton in Hk as ->.
      exists (driver rk). rewrite <- Hkey, Hrk. by destruct rk.
  - apply Forall_app. split.
    + eapply Forall_impl; [exact Hcov|].
      intros k (rk' & ks & Hrk' & Hget & Hin). unfold covered. simpl.
      destruct (decide (driverArea rk = driverArea rk')) as [Heq|Hne].
      * exists rk', (areaKeys ++ [driverKey rk]).
        split; [done|]. rewrite JsMap_get_set, decide_True by done.
        split; [done|]. subst areaKeys. rewrite Heq, Hget. simpl.
        apply elem_of_app. by left.
      * exists rk', ks. split; [done|].
        by rewrite JsMap_get_set, decide_False by done.
    + repeat constructor. exists rk, (areaKeys ++ [driverKey rk]). simpl.
      split; [done|]. rewrite JsMap_get_set, decide_True by done.
      split; [done|]. apply elem_of_app. right. apply list_elem_of_here.
Qed.


Lemma build_request keys rq :
  Forall (fun entry => exists rk, resolveKey (keyStr_of entry) = Ok rk) keys ->
  Forall filed (areaToKeyMap rq) ->
  Forall (covered rq) (orderedKeys rq) ->
  exists rq',
    foldResult request_step keys rq = Ok rq' /\
    orderedKeys rq' = orderedKeys rq ++ (keyStr_of <$> keys) /\
    (forall k,
       mjoin (keyToOptsMap rq' !! k) =
         match last (filter (fun entry => keyStr_of entry = k) keys) with
         | Some entry => opts_of entry
         | None => mjoin (keyToOptsMap rq !! k)
         end) /\
    Forall filed (areaToKeyMap rq') /\
    Forall (covered rq') (orderedKeys rq').
Proof.
  intros Hkeys. revert rq.
  induction Hkeys as [|entry keys [rk Hrk] Hkeys IH]; intros rq Hfiled Hcov.
  - exists rq. simpl. by rewrite app_nil_r.
  - destruct (request_step_spec rq entry rk Hrk Hfiled Hcov)
      as (rq1 & Hstep & Hord1 & Hopts1 & Hfiled1 & Hcov1).
    destruct (IH rq1 Hfiled1 Hcov1) as (rq' & Hfold & Hord & Hopts & Hf & Hc).
    exists rq'. simpl. rewrite Hstep. simpl.
    split; [done|]. split; [by rewrite Hord, Hord1, <- app_assoc|].
    split; [|done].
    intros k. rewrite Hopts, Hopts1, filter_cons.
    destruct (decide (keyStr_of entry = k)) as [<-|Hne].
    + rewrite last_cons, lookup_insert_eq. by destruct (last _).
    + by rewrite lookup_insert_ne by done.
Qed.

Lemma fetch_eq a ks d w :
  drivers a = Some d ->
  fetch (a, ks) w =
    (Ok (a, map (fun k => (k, orNull (area d w !! k))) ks),
     record (AreaGet d ks) w).
Proof.
  intros Hd. unfold fetch. rewrite Hd. unfold bind, ret.
  by rewrite Driver_getItems_eq.
Qed.

Lemma answered_eq a ks d w :
  drivers a = Some d ->
  answered w (a, ks) = (a, map (fun k => (k, orNull (area d w !! k))) ks).
Proof. intros Hd. unfold answered. simpl. by rewrite Hd. Qed.

Lemma fetch_all entries w :
  Forall filed entries ->
  exists w',
    Promise_all (map fetch entries) w = (Ok (answered w <$> entries), w') /\
    (forall a, area a w' = area a w) /\
    w_trace w' = w_trace w ++ omap batch_call entries.
Proof.
  intros Hentries. revert w.
  induction Hentries as [|[a ks] entries [[d Hd] _] _ IH]; intros w.
  - exists w. simpl. by rewrite app_nil_r.
  - simpl in Hd. simpl map. cbn [Promise_all]. rewrite (fetch_eq a ks d) by done.
    destruct (IH (record (AreaGet d ks) w)) as (w' & Hall & Hareas & Htrace).
    exists w'. rewrite Hall. split; [|split].
    + by rewrite fmap_cons, (answered_eq a ks d).
    + intros a'. by rewrite Hareas, area_record.
    + rewrite Htrace, trace_record, <- app_assoc. simpl.
      unfold batch_call at 2. simpl. by rewrite Hd.
Qed.

Lemma getValueOrFallback_orNull x fb :
  getValueOrFallback (Some (orNull x)) fb = getValueOrFallback x fb.
Proof. by destruct x as [[]|]. Qed.

(** What one batch's continuation leaves in [resultsMap]. *)
Lemma collect_lookup optsMap a rs rm k :
  collect optsMap rm (a, rs) !! k =
    match last (filter (fun r : string * JSON => a +:+ ":" +:+ r.1 = k) rs) with
    | Some r =>
        Some (getValueOrFallback (Some r.2) (fallback_of (mjoin (optsMap !! k))))
    | None => rm !! k
    end.
Proof.
  unfold collect. revert rm. induction rs as [|r rs IH]; intros rm; [done|].
  cbn [fold_left]. rewrite IH, filter_cons.
  destruct (decide (a +:+ ":" +:+ r.1 = k)) as [<-|Hne].
  - rewrite last_cons, lookup_insert_eq. by destruct (last _).
  - by rewrite lookup_insert_ne by done.
Qed.

Section Collected.

Variables (keys : list GetItemsKey) (w : World).
Variable optsMap : gmap string (option GetItemOptions).
Hypothesis optsMap_last : forall k, mjoin (optsMap !! k) = last_opts keys k.

Lemma collect_answered entry rm k :
  filed entry ->
  collect optsMap rm (answered w entry) !! k =
    if decide (k ∈ (fun dk => entry.1 +:+ ":" +:+ dk) <$> entry.2)
    then Some (expected_value keys w k)
    else rm !! k.
Proof.
  destruct entry as [a ks]. intros [[d Hd] Hfiled]. simpl in Hd, Hfiled.
  rewrite (answered_eq a ks d) by done. rewrite collect_lookup. simpl.
  destruct (last _) as [[dk x]|] eqn:Hlast.
  - apply last_Some_elem_of, list_elem_of_filter in Hlast as [Hk Hin].
    simpl in Hk. apply list_elem_of_fmap in Hin as (dk' & [= -> ->] & Hin).
    rewrite decide_True by (subst k; apply list_elem_of_fmap; eauto).
    destruct (Hfiled dk' Hin) as [d' Hres].
    destruct (resolveKey_Ok _ _ Hres) as [_ Hd']. simpl in Hd'.
    assert (d' = d) as -> by congruence.
    unfold expected_value. subst k. rewrite Hres. simpl.
    by rewrite getValueOrFallback_orNull, optsMap_last.
  - rewrite decide_False; [done|].
    intros (dk & -> & Hin)%list_elem_of_fmap.
    apply last_None in Hlast.
    assert ((dk, orNull (area d w !! dk)) ∈
              filter (fun r : string * JSON => a +:+ ":" +:+ r.1 = a +:+ ":" +:+ dk)
                (map (fun k => (k, orNull (area d w !! k))) ks)) as Hmem.
    { apply list_elem_of_filter. split; [done|].
      apply list_elem_of_fmap. eauto. }
    rewrite Hlast in Hmem. by apply elem_of_nil in Hmem.
Qed.

Lemma collect_all entries rm k :
  Forall filed entries ->
  (forall v, rm !! k = Some v -> v = expected_value keys w k) ->
  (forall v, fold_left (collect optsMap) (answered w <$> entries) rm !! k = Some v ->
     v = expected_value keys w k) /\
  ((is_Some (rm !! k) \/
    exists entry, entry ∈ entries /\
      k ∈ (fun dk => entry.1 +:+ ":" +:+ dk) <$> entry.2) ->
   is_Some (fold_left (collect optsMap) (answered w <$> entries) rm !! k)).
Proof.
  intros Hentries. revert rm.
  induction Hentries as [|entry entries Hentry _ IH]; intros rm Hrm.
  - simpl. split; [done|]. intros [H|(entry & Hin & _)]; [done|].
    by apply elem_of_nil in Hin.
  - rewrite fmap_cons. cbn [fold_left].
    destruct (IH (collect optsMap rm (answered w entry))) as [Hsound Hcover].
    { intros v. rewrite collect_answered by done.
      case_decide; [by intros [= <-]|auto]. }
    split; [done|]. intros Hk. apply Hcover.
    rewrite collect_answered by done.
    destruct (decide (k ∈ _)) as [Hin|Hnin]; [by left; eexists|].
    destruct Hk as [Hk|(entry' & Hin' & Hk)]; [by left|].
    apply elem_of_cons in Hin' as [->|Hin']; [done|]. right. eauto.
Qed.

End Collected.


End GetItems.


Lemma build_request_fails keys rq :
  Exists (fun entry => exists e, resolveKey (storage.keyStr_of entry) = Throw e)
         keys ->
  exists e, foldResult storage.request_step keys rq = Throw e.
Proof.
  intros Hkeys. revert rq.
  induction Hkeys as [entry keys [e He]|entry keys _ IH]; intros rq; simpl.
  - exists e. unfold storage.request_step. by rewrite He.
  - unfold storage.request_step at 1.
    destruct (resolveKey _) as [rk|e]; simpl; [apply IH|eauto].
Qed.

(** A request with a key that does not resolve throws before any backend
    call is made. *)
Lemma getItems_throws_early completion keys w :
  Exists (fun entry => exists e, resolveKey (storage.keyStr_of entry) = Throw e)
         keys ->
  exists e, storage.getItems completion keys w = (Throw e, w).
Proof.
  intros Hkeys.
  destruct (build_request_fails keys storage.empty_request Hkeys) as [e Hfold].
  exists e. unfold storage.getItems, bind, lift. by rewrite Hfold.
Qed.

(** ** Concurrent initialisation *)

Section InitOnce.

Variables (it : WxtStorageItem) (v : JSON) (inits sets : nat).
Hypothesis init_yields : opts it ≫= init = Some (Some v).
Hypothesis init_not_null : v <> JNull.

#[local] Abbreviation d := (driver (resolved it)).
#[local] Abbreviation dk := (driverKey (resolved it)).

Lemma init_calls_record e w :
  init_calls (record e w) = (init_calls w + if is_init_call e then 1 else 0)%nat.
Proof.
  unfold init_calls. rewrite trace_record, List.filter_app, length_app.
  simpl. by destruct (is_init_call e).
Qed.

Lemma writes_record e w :
  writes (record e w) = (writes w + if is_write e then 1 else 0)%nat.
Proof.
  unfold writes. rewrite trace_record, List.filter_app, length_app.
  simpl. by destruct (is_write e).
Qed.

Lemma init_calls_set_area a st w : init_calls (set_area a st w) = init_calls w.
Proof. unfold init_calls. by rewrite trace_set_area. Qed.

Lemma writes_set_area a st w : writes (set_area a st w) = writes w.
Proof. unfold writes. by rewrite trace_set_area. Qed.

Lemma task_insert_same (ts : list Task) i t0 t :
  ts !! i = Some t0 -> <[i := t]> ts !! i = Some t.
Proof. intros Hi. apply list_lookup_insert_eq. by eapply lookup_lt_Some. Qed.

Lemma task_insert_other (ts : list Task) i j t t' :
  j <> i -> <[i := t]> ts !! j = Some t' -> ts !! j = Some t'.
Proof. intros Hne. by rewrite list_lookup_insert_ne. Qed.

Lemma task_insert_all (P : Task -> Prop) (ts : list Task) i t :
  P t -> (forall j t', j <> i -> ts !! j = Some t' -> P t') ->
  forall j t', <[i := t]> ts !! j = Some t' -> P t'.
Proof.
  intros Ht Hothers j t' Hj. destruct (decide (j = i)) as [->|Hne].
  - apply list_lookup_insert_Some in Hj as [(_ & <- & _)|[? _]]; done.
  - eapply Hothers; [done|]. by eapply task_insert_other.
Qed.

(** Resuming a task leads from a state of [reachable] to another. *)
Lemma resume_reachable i s s' :
  reachable it v inits sets s ->
  resume it i s = Some s' ->
  reachable it v inits sets s'.
Proof.
  intros Hr Hres. unfold resume in Hres.
  destruct (tasks s !! i) as [t|] eqn:Hi; [|done].
  rewrite Driver_getItem_eq, init_yields in Hres.
  rewrite Driver_setItem_defined in Hres by done.
  destruct Hr as [s Hl Hn Hic Hw Hall
                 |s i0 Hl Hn Hic Hw Hi0 Hothers
                 |s i0 Hl Hn Hic Hw Hi0 Hothers
                 |s i0 t0 Hl Hst Hic Hw Ht0 Hi0 Hothers
                 |s Hl Hst Hic Hw Hall].
  - rewrite (Hall i t Hi), Hl in Hres. injection Hres as <-.
    apply (fresh_reading _ _ _ _ _ i); simpl; try done.
    + by eapply task_insert_same.
    + intros j t' Hne Hj. apply (Hall j). by eapply task_insert_other.
  - destruct (decide (i = i0)) as [->|Hne];
      [|by rewrite (Hothers i t Hne Hi), Hl in Hres].
    rewrite Hi0 in Hi. injection Hi as <-.
    unfold stored_value in Hn. rewrite Hn in Hres. simpl in Hres.
    injection Hres as <-.
    apply (initialising _ _ _ _ _ i0); simpl.
    + done.
    + unfold stored_value. by rewrite !area_record.
    + rewrite !init_calls_record. simpl. lia.
    + rewrite !writes_record. simpl. lia.
    + by eapply task_insert_same.
    + intros j t' Hne Hj. apply (Hothers j); [done|].
      by eapply task_insert_other.
  - destruct (decide (i = i0)) as [->|Hne];
      [|by rewrite (Hothers i t Hne Hi), Hl in Hres].
    rewrite Hi0 in Hi. injection Hi as <-. injection Hres as <-.
    apply (stored_busy _ _ _ _ _ i0 (Writing (Some v))); simpl.
    + done.
    + unfold stored_value. rewrite area_record, area_set_area.
      destruct (decide _); [|done]. apply lookup_insert_eq.
    + rewrite init_calls_record, init_calls_set_area. simpl. lia.
    + rewrite writes_record, writes_set_area. simpl. lia.
    + by right.
    + by eapply task_insert_same.
    + intros j t' Hne Hj. left. apply (Hothers j); [done|].
      by eapply task_insert_other.
  - destruct (decide (i = i0)) as [->|Hne].
    + rewrite Hi0 in Hi. injection Hi as <-.
      assert (s' = settle i0 (Ok (Some v))
                     (match t0 with
                      | Reading => record (AreaGet d [dk]) (world s)
                      | _ => world s
                      end) s) as ->.
      { destruct Ht0 as [-> | ->].
        - unfold stored_value in Hst. rewrite Hst in Hres.
          replace (nullish (Some v)) with false in Hres by by destruct v.
          simpl in Hres. by injection Hres as <-.
        - by injection Hres as <-. }
      apply stored_free; simpl; try done.
      * destruct Ht0 as [-> | ->]; [|done].
        unfold stored_value. by rewrite area_record.
      * destruct Ht0 as [-> | ->]; [|done].
        rewrite init_calls_record. simpl. lia.
      * destruct Ht0 as [-> | ->]; [|done].
        rewrite writes_record. simpl. lia.
      * apply task_insert_all; [by right|done].
    + destruct (Hothers i t Hne Hi) as [-> | ->]; [|done].
      by rewrite Hl in Hres.
  - destruct (Hall i t Hi) as [-> | ->]; [|done].
    rewrite Hl in Hres. injection Hres as <-.
    apply (stored_busy _ _ _ _ _ i Reading); simpl; try done.
    + by left.
    + by eapply task_insert_same.
    + intros j t' Hne Hj. apply (Hall j). by eapply task_insert_other.
Qed.

Lemma run_reachable schedule s :
  reachable it v inits sets s -> reachable it v inits sets (run it schedule s).
Proof.
  revert s. induction schedule as [|i schedule IH]; intros s Hr; [done|].
  simpl. apply IH. destruct (resume it i s) as [s'|] eqn:Hres; [|done].
  by eapply resume_reachable.
Qed.

(** Mutual exclusion: at most one task is inside the callback, and only
    while the mutex is taken. *)
Lemma one_task_inside s i j ti tj :
  reachable it v inits sets s ->
  tasks s !! i = Some ti -> tasks s !! j = Some tj ->
  inside ti -> inside tj ->
  i = j /\ locked s = true.
Proof.
  intros [s' Hl Hn Hic Hw Hall
         |s' i0 Hl Hn Hic Hw Hi0 Hothers
         |s' i0 Hl Hn Hic Hw Hi0 Hothers
         |s' i0 t0 Hl Hst Hic Hw Ht0 Hi0 Hothers
         |s' Hl Hst Hic Hw Hall] Hi Hj Hti Htj.
  - by rewrite (Hall i ti Hi) in Hti.
  - destruct (decide (i = i0)) as [->|Hne];
      [|by rewrite (Hothers i ti Hne Hi) in Hti].
    destruct (decide (j = i0)) as [->|Hne];
      [done|by rewrite (Hothers j tj Hne Hj) in Htj].
  - destruct (decide (i = i0)) as [->|Hne];
      [|by rewrite (Hothers i ti Hne Hi) in Hti].
    destruct (decide (j = i0)) as [->|Hne];
      [done|by rewrite (Hothers j tj Hne Hj) in Htj].
  - destruct (decide (i = i0)) as [->|Hne];
      [|by destruct (Hothers i ti Hne Hi) as [-> | ->]].
    destruct (decide (j = i0)) as [->|Hne];
      [done|by destruct (Hothers j tj Hne Hj) as [-> | ->]].
  - by destruct (Hall i ti Hi) as [-> | ->].
Qed.

Lemma reachable_bounds s :
  reachable it v inits sets s ->
  (init_calls (world s) <= S inits)%nat /\ (writes (world s) <= S sets)%nat.
Proof. intros []; lia. Qed.

Lemma forallb_is_done_false (ts : list Task) :
  forallb is_done ts = false ->
  exists i t, ts !! i = Some t /\ is_done t = false.
Proof.
  induction ts as [|t ts IH]; simpl; [done|].
  destruct (is_done t) eqn:Ht; simpl.
  - intros (i & t' & Hi & Ht')%IH. by exists (S i), t'.
  - intros _. by exists 0%nat, t.
Qed.

Lemma forallb_is_done_true (ts : list Task) i t :
  forallb is_done ts = true -> ts !! i = Some t -> is_done t = true.
Proof.
  rewrite forallb_forall. intros Hall Hi. apply Hall.
  apply list_elem_of_In. by eapply list_elem_of_lookup_2.
Qed.

(** In a finished state with at least one task, [init] was called once
    and one write was made. *)
Lemma reachable_finished s :
  reachable it v inits sets s ->
  finished s = true -> tasks s <> [] ->
  init_calls (world s) = S inits /\ writes (world s) = S sets /\
  stored_value it (world s) = Some v /\
  Forall (fun t => t = Done (Ok (Some v))) (tasks s).
Proof.
  unfold finished.
  intros [s' Hl Hn Hic Hw Hall
         |s' i0 Hl Hn Hic Hw Hi0 Hothers
         |s' i0 Hl Hn Hic Hw Hi0 Hothers
         |s' i0 t0 Hl Hst Hic Hw Ht0 Hi0 Hothers
         |s' Hl Hst Hic Hw Hall] Hfin Hne.
  - destruct (tasks s') as [|t ts] eqn:Hts; [done|].
    by rewrite (Hall 0%nat t eq_refl) in Hfin.
  - by pose proof (forallb_is_done_true _ _ _ Hfin Hi0).
  - by pose proof (forallb_is_done_true _ _ _ Hfin Hi0).
  - pose proof (forallb_is_done_true _ _ _ Hfin Hi0).
    by destruct Ht0 as [-> | ->].
  - repeat split; try done. apply Forall_lookup. intros j t Hj.
    pose proof (forallb_is_done_true _ _ _ Hfin Hj).
    by destruct (Hall j t Hj) as [-> | ->].
Qed.

(** A state that is not finished has a task that can be resumed: the
    mutex never blocks every caller. *)
Lemma reachable_progress s :
  reachable it v inits sets s ->
  finished s = false ->
  exists i s', resume it i s = Some s'.
Proof.
  unfold finished.
  intros [s' Hl Hn Hic Hw Hall
         |s' i0 Hl Hn Hic Hw Hi0 Hothers
         |s' i0 Hl Hn Hic Hw Hi0 Hothers
         |s' i0 t0 Hl Hst Hic Hw Ht0 Hi0 Hothers
         |s' Hl Hst Hic Hw Hall] Hfin.
  - apply forallb_is_done_false in Hfin as (i & t & Hi & _).
    exists i. unfold resume. rewrite Hi, (Hall i t Hi), Hl. eauto.
  - exists i0. unfold resume.
    rewrite Hi0, Driver_getItem_eq, init_yields.
    unfold stored_value in Hn. rewrite Hn. simpl. eauto.
  - exists i0. unfold resume. rewrite Hi0, init_yields.
    rewrite Driver_setItem_defined by done. eauto.
  - exists i0. unfold resume. rewrite Hi0.
    destruct Ht0 as [-> | ->]; [|eauto].
    rewrite Driver_getItem_eq, init_yields.
    destruct (negb _); eauto.
  - apply forallb_is_done_false in Hfin as (i & t & Hi & Ht).
    exists i. unfold resume. rewrite Hi.
    destruct (Hall i t Hi) as [-> | ->]; [|done]. rewrite Hl. eauto.
Qed.

End InitOnce.

(** *** Every run can be brought to its end *)

Lemma weight_insert (ts : list Task) i t t' :
  ts !! i = Some t ->
  (sum_list (weight <$> <[i := t']> ts) + weight t =
   sum_list (weight <$> ts) + weight t')%nat.
Proof.
  revert i. induction ts as [|t0 ts IH]; intros [|i] Hi; simplify_eq/=.
  - lia.
  - specialize (IH i Hi). lia.
Qed.

Lemma resume_weight it i s s' :
  resume it i s = Some s' ->
  (sum_list (weight <$> tasks s') < sum_list (weight <$> tasks s))%nat.
Proof.
  unfold resume. destruct (tasks s !! i) as [t|] eqn:Hi; [|done].
  intros Hres.
  assert (exists t', tasks s' = <[i := t']> (tasks s) /\
                     (weight t' < weight t)%nat) as (t' & -> & Hlt).
  { destruct t; try done.
    - destruct (locked s); [done|]. injection Hres as <-.
      exists Reading. simpl. split; [done|lia].
    - destruct (Driver.getItem _ _ _) as [[value|e] w].
      + destruct (opts it ≫= init);
          [destruct (negb _)|]; injection Hres as <-; eexists;
          (split; [reflexivity|simpl; lia]).
      + injection Hres as <-. eexists. split; [reflexivity|simpl; lia].
    - destruct (opts it ≫= init) as [newValue|]; [|done].
      destruct (Driver.setItem _ _ _ _) as [[?|e] w];
        injection Hres as <-; eexists; (split; [reflexivity|simpl; lia]).
    - injection Hres as <-. eexists. split; [reflexivity|simpl; lia]. }
  pose proof (weight_insert (tasks s) i t t' Hi). lia.
Qed.

Lemma run_app it schedule schedule' s :
  run it (schedule ++ schedule') s = run it schedule' (run it schedule s).
Proof.
  revert s. induction schedule as [|i schedule IH]; intros s; [done|].
  simpl. apply IH.
Qed.

Lemma reachable_completes it v inits sets s :
  opts it ≫= init = Some (Some v) -> v <> JNull ->
  reachable it v inits sets s ->
  exists schedule, finished (run it schedule s) = true.
Proof.
  intros Hinit Hv.
  remember (sum_list (weight <$> tasks s)) as n eqn:Hn.
  revert s Hn. induction (lt_wf n) as [n _ IH]. intros s -> Hr.
  destruct (finished s) eqn:Hfin; [by exists []|].
  destruct (reachable_progress it v inits sets Hinit Hv s Hr Hfin)
    as (i & s' & Hres).
  destruct (IH _ (resume_weight it i s s' Hres) s' eq_refl) as [schedule Hs].
  { by eapply resume_reachable. }
  exists (i :: schedule). simpl. by rewrite Hres.
Qed.

Lemma resume_length it i s s' :
  resume it i s = Some s' -> length (tasks s') = length (tasks s).
Proof.
  unfold resume. intros Hres.
  repeat case_match; simplify_eq; simpl; apply length_insert.
Qed.

Lemma run_length it schedule s :
  length (tasks (run it schedule s)) = length (tasks s).
Proof.
  revert s. induction schedule as [|i schedule IH]; intros s; [done|].
  simpl. rewrite IH. destruct (resume it i s) as [s'|] eqn:Hres; [|done].
  by eapply resume_length.
Qed.

Lemma start_reachable it v n w :
  nullish (stored_value it w) = true ->
  reachable it v (init_calls w) (writes w) (start n w).
Proof.
  intros Hn. apply fresh_free; simpl; try done.
  intros j t Hj. by apply lookup_replicate in Hj as [-> _].
Qed.

(** C9 (amended): for an item whose local key is not the name of a member
    of [Object.prototype] ([prototype_members]; under such a name the
    read of the empty key finds the inherited member and [init] is never
    called).  When [init] yields a value that is not null and none is
    stored, any number of concurrent calls of [getOrInitValue], resumed
    in any order, call [init] at most once and write at most once; when
    all of them (at least one) have settled, [init] was called exactly
    once, exactly one backend write was made, the value is stored and
    every call answered it.  Every run can be brought to that end: the
    mutex never blocks all callers. *)
Theorem init_runs_once it v n schedule w :
  prototype_member (driverKey (resolved it)) = false ->
  opts it ≫= init = Some (Some v) -> v <> JNull ->
  nullish (stored_value it w) = true ->
  let s := run it schedule (start n w) in
  ((init_calls (world s) <= init_calls w + 1)%nat /\
   (writes (world s) <= writes w + 1)%nat) /\
  (n <> 0%nat -> finished s = true ->
     init_calls (world s) = (init_calls w + 1)%nat /\
     writes (world s) = (writes w + 1)%nat /\
     stored_value it (world s) = Some v /\
     Forall (fun t => t = Done (Ok (Some v))) (tasks s)) /\
  (exists rest, finished (run it (schedule ++ rest) (start n w)) = true).
Proof.
  intros _ Hinit Hv Hn s.
  assert (reachable it v (init_calls w) (writes w) s) as Hr.
  { apply run_reachable; [done..|]. by apply start_reachable. }
  split; [|split].
  - destruct (reachable_bounds it v _ _ s Hr). lia.
  - intros Hn0 Hfin.
    destruct (reachable_finished it v _ _ s Hr Hfin) as (Hi & Hw & Hst & Hall).
    + intros Hnil. apply (f_equal length) in Hnil.
      subst s. rewrite run_length in Hnil. simpl in Hnil.
      by rewrite length_replicate in Hnil.
    + repeat split; try done; lia.
  - destruct (reachable_completes it v _ _ s Hinit Hv Hr) as [rest Hrest].
    exists rest. by rewrite run_app.
Qed.

Lemma init_runs_once_witness :
  let it :=
    {| key := "local:installDate";
       resolved := {| driverArea := "local"; driverKey := "installDate";
                      driver := local |};
       opts := Some {| opt_defaultValue := None; opt_fallback := None;
                       init := Some (Some (JNum 20240101)); version := None;
                       migrations := None |} |} in
  let s := run it [0; 1; 0; 1; 0; 1; 0; 1; 1; 1]%nat (start 2 empty_world) in
  finished s = true /\
  init_calls (world s) = 1%nat /\
  writes (world s) = 1%nat /\
  stored_value it (world s) = Some (JNum 20240101) /\
  Forall (fun t => t = Done (Ok (Some (JNum 20240101)))) (tasks s).
Proof.
  intros it s.
  destruct (init_runs_once it (JNum 20240101) 2
              [0; 1; 0; 1; 0; 1; 0; 1; 1; 1]%nat empty_world)
    as (_ & Hfinished & _);
    [reflexivity | reflexivity | discriminate | reflexivity |].
  split; [reflexivity|]. apply Hfinished; [discriminate | reflexivity].
Defined.

(** C9, as the claim words it, fails for an [init] that yields null: the
    write of null is a removal, the second caller finds no value either
    and calls [init] again.  Two calls, one after the other. *)
Lemma init_runs_twice_when_it_yields_null :
  let it :=
    {| key := "local:installDate";
       resolved := {| driverArea := "local"; driverKey := "installDate";
                      driver := local |};
       opts := Some {| opt_defaultValue := None; opt_fallback := None;
                       init := Some (Some JNull); version := None;
                       migrations := None |} |} in
  let s := run it [0; 0; 0; 0; 1; 1; 1; 1]%nat (start 2 empty_world) in
  nullish (stored_value it empty_world) = true /\
  finished s = true /\
  init_calls (world s) = 2%nat /\
  writes (world s) = 2%nat.
Proof. repeat split. Qed.

(** One call alone goes through the steps of the sequential
    [getOrInitValue]. *)
Lemma solo_call it w :
  let s := run it [0; 0; 0; 0]%nat (start 1 w) in
  tasks s = [Done (getOrInitValue it w).1] /\
  world s = (getOrInitValue it w).2 /\
  locked s = false.
Proof.
  unfold getOrInitValue, bind, ret. rewrite Driver_getItem_eq.
  cbn -[Driver.getItem Driver.setItem]. rewrite Driver_getItem_eq.
  destruct (opts it ≫= init) as [newValue|] eqn:Hinit;
    cbn -[Driver.getItem Driver.setItem]; [|done].
  destruct (nullish (area _ w !! _)) eqn:Hnull;
    cbn -[Driver.getItem Driver.setItem]; [|done].
  rewrite Hinit.
  destruct (Driver.setItem _ _ _ _) as [[[]|e] w'] eqn:Hset;
    cbn -[Driver.getItem Driver.setItem]; [done|].
  unfold Driver.setItem, area_remove, area_set in Hset.
  by destruct (nullish newValue).
Qed.

(** * Further properties of the module *)

(** ** Keys *)

Lemma append_cons c s t : String c s +:+ t = String c (s +:+ t).
Proof. reflexivity. Qed.

Lemma append_empty t : "" +:+ t = t.
Proof. reflexivity. Qed.

Lemma index_after_area_name a k :
  String.index 0 ":" (area_name a +:+ ":" +:+ k) =
    Some (String.length (area_name a)).
Proof.
  destruct a; simpl area_name; simpl String.length;
    rewrite ?append_cons, ?append_empty;
    repeat (rewrite index_cons_single;
            destruct (Ascii.ascii_dec _ _) as [Heq|_];
            [discriminate Heq|]);
    rewrite index_cons_single;
    by destruct (Ascii.ascii_dec _ _).
Qed.

(** X1: A key made of an area's name, the delimiter and any local key, be it
    empty or with delimiters of its own, resolves to that area and that
    local key: the split is at the first delimiter. *)
Theorem resolveKey_area_and_local_key a k :
  resolveKey (area_name a +:+ ":" +:+ k) =
    Ok {| driverArea := area_name a; driverKey := k; driver := a |}.
Proof.
  unfold resolveKey, indexOf. rewrite index_after_area_name.
  simpl string_nullish. cbv iota.
  assert (substring (area_name a +:+ ":" +:+ k) 0
            (Some (Z.of_nat (String.length (area_name a)))) = area_name a) as ->.
  { unfold substring. rewrite !length_append.
    replace (Z.to_nat (Z.min _ _)) with 0%nat by lia.
    replace (Z.to_nat (Z.max _ _ - _)) with (String.length (area_name a)) by lia.
    by destruct a. }
  assert (substring (area_name a +:+ ":" +:+ k)
            (Z.of_nat (String.length (area_name a)) + 1) None = k) as ->.
  { unfold substring. rewrite !length_append.
    replace (Z.to_nat (Z.min _ _))
      with (String.length (area_name a) + 1)%nat by (simpl; lia).
    replace (Z.to_nat (Z.max _ _ - _)) with (String.length k) by (simpl; lia).
    destruct a; simpl; apply substring_all. }
  unfold getDriver. by rewrite drivers_area_name.
Qed.

(** ** Removing values and metadata *)

Lemma Driver_removeItem_eq a k w :
  Driver.removeItem a k w =
    (Ok tt, record (AreaRemove a [k]) (set_area a (delete k (area a w)) w)).
Proof. done. Qed.

Ltac area_simpl :=
  repeat first
    [ rewrite area_record
    | rewrite area_set_area
    | rewrite decide_True by done
    | rewrite decide_False by done ].

(** X6: [removeItem] deletes the value; the metadata goes with it only when
    [removeMeta] is asked for; nothing else changes. *)
Theorem removeItem_removes k rk opts w :
  resolveKey k = Ok rk ->
  exists w',
    storage.removeItem k opts w = (Ok tt, w') /\
    area (driver rk) w' !! driverKey rk = None /\
    area (driver rk) w' !! getMetaKey (driverKey rk) =
      (if Internal.wants_removeMeta opts then None
       else area (driver rk) w !! getMetaKey (driverKey rk)) /\
    (forall k', k' <> driverKey rk -> k' <> getMetaKey (driverKey rk) ->
       area (driver rk) w' !! k' = area (driver rk) w !! k') /\
    (forall a, a <> driver rk -> area a w' = area a w).
Proof.
  intros Hrk. unfold storage.removeItem, lift, bind at 1. rewrite Hrk.
  unfold Internal.removeItem, bind. rewrite Driver_removeItem_eq.
  destruct (Internal.wants_removeMeta opts).
  - rewrite Driver_removeItem_eq. eexists. split; [done|]. area_simpl.
    split; [|split; [|split]].
    + rewrite lookup_delete_ne by apply getMetaKey_ne. apply lookup_delete_eq.
    + apply lookup_delete_eq.
    + intros k' Hk Hm. by rewrite !lookup_delete_ne.
    + intros a Ha. by area_simpl.
  - eexists. split; [done|]. unfold ret. area_simpl.
    split; [|split; [|split]].
    + apply lookup_delete_eq.
    + apply lookup_delete_ne. intros Heq. by apply (getMetaKey_ne (driverKey rk)).
    + intros k' Hk Hm. by rewrite !lookup_delete_ne.
    + intros a Ha. by area_simpl.
Qed.

Lemma removeItem_removes_witness :
  let w := mkWorld (<["k$" := JObj ∅]> {[ "k" := JNum 1 ]}) ∅ ∅ ∅ [] in
  exists w',
    storage.removeItem "local:k" (Some {| removeMeta_opt := true |}) w =
      (Ok tt, w') /\
    area local w' !! "k" = None /\ area local w' !! "k$" = None.
Proof.
  intros w.
  destruct (removeItem_removes "local:k" _ (Some {| removeMeta_opt := true |})
              w eq_refl) as (w' & Hrun & Hk & Hm & _).
  exists w'. split; [exact Hrun|]. split; [exact Hk|exact Hm].
Defined.

Lemma lookup_fold_delete (fields : list string) (m : gmap string JSON) f :
  fold_left (fun m field => delete field m) fields m !! f =
    if decide (f ∈ fields) then None else m !! f.
Proof.
  revert m. induction fields as [|field fields IH]; intros m; simpl.
  - destruct (decide (f ∈ [])) as [H|]; [by apply elem_of_nil in H|done].
  - rewrite IH. destruct (decide (f = field)) as [->|Hne].
    + rewrite lookup_delete_eq.
      rewrite (decide_True (P := field ∈ field :: fields))
        by apply list_elem_of_here.
      by destruct (decide _).
    + rewrite lookup_delete_ne by done.
      destruct (decide (f ∈ fields)).
      * by rewrite (decide_True (P := f ∈ field :: fields))
          by by apply list_elem_of_further.
      * rewrite (decide_False (P := f ∈ field :: fields)); [done|].
        by intros [?|?]%elem_of_cons.
Qed.

(** X7: [removeMeta] without field names deletes the shadow key and leaves
    the value alone; [getMeta] answers the empty mapping afterwards. *)
Theorem removeMeta_all k rk w :
  resolveKey k = Ok rk ->
  exists w',
    storage.removeMeta k None w = (Ok tt, w') /\
    area (driver rk) w' !! getMetaKey (driverKey rk) = None /\
    (forall k', k' <> getMetaKey (driverKey rk) ->
       area (driver rk) w' !! k' = area (driver rk) w !! k') /\
    (forall a, a <> driver rk -> area a w' = area a w) /\
    (storage.getMeta k w').1 = Ok (Some (JObj ∅)).
Proof.
  intros Hrk. unfold storage.removeMeta, storage.getMeta, lift, bind.
  rewrite Hrk. unfold Internal.removeMeta. rewrite Driver_removeItem_eq.
  eexists. split; [done|]. rewrite getMeta_eq. area_simpl.
  split; [apply lookup_delete_eq|].
  split; [by intros k' Hk; rewrite lookup_delete_ne|].
  split; [by intros a Ha; area_simpl|].
  simpl. by rewrite lookup_delete_eq.
Qed.

Lemma removeMeta_all_witness :
  let w := mkWorld (<["k$" := JObj {[ "a" := JNum 1 ]}]> {[ "k" := JNum 1 ]})
                   ∅ ∅ ∅ [] in
  exists w',
    storage.removeMeta "local:k" None w = (Ok tt, w') /\
    area local w' !! "k$" = None /\
    area local w' !! "k" = Some (JNum 1) /\
    (storage.getMeta "local:k" w').1 = Ok (Some (JObj ∅)).
Proof.
  intros w.
  destruct (removeMeta_all "local:k" _ w eq_refl)
    as (w' & Hrun & Hm & Hothers & _ & Hget).
  exists w'. split; [exact Hrun|]. split; [exact Hm|].
  split; [|exact Hget].
  exact (eq_trans (Hothers "k" ltac:(discriminate)) eq_refl).
Defined.

(** X8: [removeMeta] with field names deletes those fields from the stored
    mapping and keeps the others; a shadow key that held no object holds
    the empty object afterwards.  The shadow key must not hold [null]. *)
Theorem removeMeta_fields k rk fields w :
  resolveKey k = Ok rk ->
  area (driver rk) w !! getMetaKey (driverKey rk) <> Some JNull ->
  exists newFields w',
    storage.removeMeta k (Some fields) w = (Ok tt, w') /\
    area (driver rk) w' !! getMetaKey (driverKey rk) = Some (JObj newFields) /\
    (forall field,
       newFields !! field =
         if decide (field ∈ fields) then None
         else spread (getMetaValue
                        (area (driver rk) w !! getMetaKey (driverKey rk)))
                !! field) /\
    (forall k', k' <> getMetaKey (driverKey rk) ->
       area (driver rk) w' !! k' = area (driver rk) w !! k') /\
    (forall a, a <> driver rk -> area a w' = area a w).
Proof.
  intros Hrk Hnull. unfold storage.removeMeta, lift, bind at 1. rewrite Hrk.
  unfold Internal.removeMeta, bind. rewrite Driver_getItem_eq.
  remember (area (driver rk) w !! getMetaKey (driverKey rk)) as stored.
  assert (exists m, getMetaValue stored = Some (JObj m)) as [m ->].
  { clear Heqstored. destruct stored as [[]|]; try done; by eexists. }
  rewrite Driver_setItem_defined by done.
  eexists _, _. split; [done|]. area_simpl.
  split; [apply lookup_insert_eq|].
  split; [by intros field; rewrite lookup_fold_delete|].
  split; [by intros k' Hk; rewrite lookup_insert_ne|].
  by intros a Ha; area_simpl.
Qed.

Lemma removeMeta_fields_witness :
  let w := mkWorld {[ "k$" := JObj (<["a" := JNum 1]> {[ "b" := JNum 2 ]}) ]}
                   ∅ ∅ ∅ [] in
  exists newFields w',
    storage.removeMeta "local:k" (Some ["a"]) w = (Ok tt, w') /\
    area local w' !! "k$" = Some (JObj newFields) /\
    newFields !! "a" = None /\ newFields !! "b" = Some (JNum 2).
Proof.
  intros w.
  destruct (removeMeta_fields "local:k" _ ["a"] w eq_refl)
    as (newFields & w' & Hrun & Hm & Hfields & _); [discriminate|].
  exists newFields, w'. split; [exact Hrun|]. split; [exact Hm|].
  split; [exact (Hfields "a")|exact (Hfields "b")].
Defined.

(** X5: The two ways the metadata operations throw: [setMeta] given [null]
    for the properties, and [removeMeta] given field names while the
    shadow key holds [null].  Both have read the shadow key by then and
    write nothing. *)
Theorem metadata_type_errors k rk w :
  resolveKey k = Ok rk ->
  let metaKey := getMetaKey (driverKey rk) in
  let w' := record (AreaGet (driver rk) [metaKey]) w in
  (exists what, storage.setMeta k None w = (Throw (TypeError what), w')) /\
  (forall field fields,
     area (driver rk) w !! metaKey = Some JNull ->
     exists what,
       storage.removeMeta k (Some (field :: fields)) w =
         (Throw (TypeError what), w')).
Proof.
  intros Hrk metaKey w'. split.
  - unfold storage.setMeta, lift, bind at 1. rewrite Hrk.
    unfold Internal.setMeta, bind. rewrite Driver_getItem_eq. by eexists.
  - intros field fields Hnull.
    unfold storage.removeMeta, lift, bind at 1. rewrite Hrk.
    unfold Internal.removeMeta, bind. rewrite Driver_getItem_eq.
    fold metaKey. rewrite Hnull. by eexists.
Qed.

Lemma metadata_type_errors_witness :
  let w := mkWorld {[ "k$" := JNull ]} ∅ ∅ ∅ [] in
  (exists what,
     storage.setMeta "local:k" None w =
       (Throw (TypeError what), record (AreaGet local ["k$"]) w)) /\
  (exists what,
     storage.removeMeta "local:k" (Some ["a"]) w =
       (Throw (TypeError what), record (AreaGet local ["k$"]) w)).
Proof.
  intros w.
  destruct (metadata_type_errors "local:k" _ w eq_refl) as [Hset Hremove].
  split; [exact Hset|]. by apply (Hremove "a" []).
Defined.

(** ** Migrations, continued *)

Lemma orElse_not_null a b : b <> JNull -> orElse a b <> JNull.
Proof. unfold orElse, coalesce. destruct a as [[]|]; simpl; done. Qed.

Lemma chain_not_null migs n from value :
  value <> JNull -> chain migs n from value <> JNull.
Proof.
  revert from value. induction n as [|n IH]; intros from value Hv; [done|].
  simpl. apply IH. unfold step. destruct (migs !! _); [|done].
  by apply orElse_not_null.
Qed.



Lemma getOrInitValue_stored it value w :
  stored_value it w = Some value -> value <> JNull ->
  getOrInitValue it w =
    (Ok (Some value),
     record (AreaGet (driver (resolved it)) [driverKey (resolved it)]) w).
Proof.
  unfold stored_value. intros Hv Hnn. unfold getOrInitValue, bind.
  rewrite Driver_getItem_eq, Hv.
  replace (nullish (Some value)) with false by by destruct value.
  by destruct (opts it ≫= init).
Qed.

Lemma getValue_stored it value w :
  stored_value it w = Some value -> value <> JNull ->
  Item.getValue it w =
    (Ok (Some value),
     record (AreaGet (driver (resolved it)) [driverKey (resolved it)]) w).
Proof.
  intros Hv Hnn. unfold Item.getValue.
  destruct (opts it ≫= init); [by apply getOrInitValue_stored|].
  unfold bind, ret. rewrite getItem_eq. unfold stored_value in Hv.
  by rewrite Hv, getValueOrFallback_present.
Qed.

(** X16: A migration that fails at start-up does not fail the item: the
    failure is caught, nothing has been written, and [getValue] answers
    the value stored before. *)
Theorem failed_migration_keeps_item_usable it w cur :
  is_Some (opts it ≫= migrations) ->
  stored_version it w = Some cur -> targetVersion (opts it) < cur ->
  exists w',
    migrationsDone it w = (Ok tt, w') /\
    (forall a, area a w' = area a w) /\
    (Item.getValue it w').1 = Ok (stored_value it w).
Proof.
  intros [migs Hmigs] Hcur Hlt.
  destruct (stored_version_Some it w cur Hcur) as (value & Hv & Hnn & Hver).
  unfold migrationsDone, catch. rewrite Hmigs.
  rewrite (migrate_downgrade it w value cur) by done.
  eexists. split; [done|]. split; [intros a; apply area_record|].
  rewrite (getValue_stored it value); [by rewrite Hv|..]; [|done].
  unfold stored_value in *. by rewrite area_record.
Qed.

Lemma failed_migration_keeps_item_usable_witness :
  let it :=
    {| key := "local:count";
       resolved := {| driverArea := "local"; driverKey := "count"; driver := local |};
       opts := Some {| opt_defaultValue := None; opt_fallback := None;
                       init := None; version := Some 1;
                       migrations := Some ∅ |} |} in
  let w := mkWorld (<["count$" := JObj {[ "v" := JNum 3 ]}]> {[ "count" := JNum 5 ]})
                   ∅ ∅ ∅ [] in
  exists w',
    migrationsDone it w = (Ok tt, w') /\
    (forall a, area a w' = area a w) /\
    (Item.getValue it w').1 = Ok (Some (JNum 5)).
Proof.
  intros it w.
  apply (failed_migration_keeps_item_usable it w 3);
    [by eexists | reflexivity | reflexivity].
Defined.

(** ** Reading a defined item *)

Lemma getValueOrFallback_getFallback it value :
  getValueOrFallback value (fallback_of (as_GetItemOptions (opts it))) =
    orElse value (getFallback it).
Proof.
  unfold getValueOrFallback, fallback_of, getFallback, as_GetItemOptions.
  destruct (opts it) as [o|]; simpl.
  - destruct value as [[]|]; try done;
      destruct (opt_fallback o) as [[]|]; try done;
      by destruct (opt_defaultValue o) as [[]|].
  - by destruct value as [[]|].
Qed.

Lemma getValue_without_init_run it w :
  opts it ≫= init = None ->
  Item.getValue it w =
    (Ok (Some (orElse (stored_value it w) (getFallback it))),
     record (AreaGet (driver (resolved it)) [driverKey (resolved it)]) w).
Proof.
  intros Hinit. unfold Item.getValue. rewrite Hinit.
  unfold bind, ret. rewrite getItem_eq.
  by rewrite getValueOrFallback_getFallback.
Qed.

(** X18: Without an initialiser, and for a local key that is not the name
    of a member of [Object.prototype] ([prototype_members]; under such a
    name a read of an unstored key finds the inherited member), [getValue]
    makes one read and answers the stored value, or, when nothing or
    [null] is stored, exactly what the item's [fallback] getter answers. *)
Theorem getValue_without_init it w :
  prototype_member (driverKey (resolved it)) = false ->
  opts it ≫= init = None ->
  Item.getValue it w =
    (Ok (Some (orElse (stored_value it w) (getFallback it))),
     record (AreaGet (driver (resolved it)) [driverKey (resolved it)]) w).
Proof. intros _. apply getValue_without_init_run. Qed.

Lemma getValue_without_init_witness :
  let it :=
    {| key := "local:count";
       resolved := {| driverArea := "local"; driverKey := "count"; driver := local |};
       opts := Some {| opt_defaultValue := Some (JNum 1); opt_fallback := None;
                       init := None; version := None; migrations := None |} |} in
  (Item.getValue it empty_world).1 = Ok (Some (JNum 1)).
Proof.
  intros it.
  exact (f_equal fst (getValue_without_init it empty_world eq_refl eq_refl)).
Defined.

Lemma getValue_with_init_run it newValue w :
  opts it ≫= init = Some newValue ->
  exists w',
    Item.getValue it w = (Ok (stored_value it w ?? newValue), w') /\
    stored_value it w' =
      (if nullish (stored_value it w ?? newValue) then None
       else stored_value it w ?? newValue) /\
    filter (fun e => is_init_call e = true) (w_trace w') =
      filter (fun e => is_init_call e = true) (w_trace w) ++
      (if nullish (stored_value it w) then [InitCall] else []) /\
    (forall k, k <> driverKey (resolved it) ->
       area (driver (resolved it)) w' !! k = area (driver (resolved it)) w !! k) /\
    (forall a, a <> driver (resolved it) -> area a w' = area a w).
Proof.
  intros Hinit. unfold Item.getValue, getOrInitValue, stored_value.
  rewrite Hinit. unfold bind at 1. rewrite Driver_getItem_eq.
  set (d := driver (resolved it)). set (dk := driverKey (resolved it)).
  unfold coalesce.
  destruct (nullish (area d w !! dk)) eqn:Hnull; simpl.
  - unfold bind, ret.
    destruct (nullish newValue) eqn:Hnew.
    + rewrite Driver_setItem_nullish by done.
      eexists. split; [done|]. area_simpl.
      rewrite lookup_delete_eq. split; [done|]. split.
      { rewrite !trace_record, trace_set_area, !trace_record.
        rewrite !filter_app. simpl. by rewrite <- app_assoc, app_nil_r. }
      split; [intros k Hk; by rewrite lookup_delete_ne|].
      intros a Ha. by area_simpl.
    + destruct newValue as [v|]; [|done].
      rewrite Driver_setItem_defined by by destruct v.
      eexists. split; [done|]. area_simpl.
      rewrite lookup_insert_eq. split; [done|]. split.
      { rewrite !trace_record, trace_set_area, !trace_record.
        rewrite !filter_app. simpl. by rewrite <- app_assoc, app_nil_r. }
      split; [intros k Hk; by rewrite lookup_insert_ne|].
      intros a Ha. by area_simpl.
  - eexists. split; [done|]. area_simpl.
    split; [by rewrite Hnull|]. split.
    { rewrite trace_record, filter_app. simpl. by rewrite !app_nil_r. }
    split; [done|]. intros a Ha. by area_simpl.
Qed.

(** X19: With an initialiser, and for a local key that is not the name of a
    member of [Object.prototype] ([prototype_members]; under such a name
    a read of an unstored key finds the inherited member, and the
    initialiser is not called), [getValue] never consults the fallback.
    It answers the stored value when there is one, reading only;
    otherwise it answers what the initialiser returned, after one call of
    it, and that value is what a later read of the key finds (nothing,
    when the initialiser returned [null] or [undefined]). *)
Theorem getValue_with_init it newValue w :
  prototype_member (driverKey (resolved it)) = false ->
  opts it ≫= init = Some newValue ->
  exists w',
    Item.getValue it w = (Ok (stored_value it w ?? newValue), w') /\
    stored_value it w' =
      (if nullish (stored_value it w ?? newValue) then None
       else stored_value it w ?? newValue) /\
    filter (fun e => is_init_call e = true) (w_trace w') =
      filter (fun e => is_init_call e = true) (w_trace w) ++
      (if nullish (stored_value it w) then [InitCall] else []) /\
    (forall k, k <> driverKey (resolved it) ->
       area (driver (resolved it)) w' !! k = area (driver (resolved it)) w !! k) /\
    (forall a, a <> driver (resolved it) -> area a w' = area a w).
Proof. intros _. apply getValue_with_init_run. Qed.

Lemma getValue_with_init_witness :
  let it :=
    {| key := "local:count";
       resolved := {| driverArea := "local"; driverKey := "count"; driver := local |};
       opts := Some {| opt_defaultValue := Some (JNum 1); opt_fallback := None;
                       init := Some (Some (JNum 7)); version := None;
                       migrations := None |} |} in
  exists w',
    Item.getValue it empty_world = (Ok (Some (JNum 7)), w') /\
    stored_value it w' = Some (JNum 7).
Proof.
  intros it.
  destruct (getValue_with_init it (Some (JNum 7)) empty_world eq_refl eq_refl)
    as (w' & Hrun & Hstored & _).
  exists w'. split; [exact Hrun|exact Hstored].
Defined.

(** ** Snapshots *)

Lemma lookup_area_set a items w k :
  area a (area_set a items w).2 !! k =
    match items !! k with
    | Some (Some v) => Some v
    | _ => area a w !! k
    end.
Proof.
  unfold area_set. simpl. area_simpl.
  rewrite lookup_union, lookup_omap.
  destruct (items !! k) as [[v|]|]; simpl;
    by destruct (area a w !! k).
Qed.

(** X12: [restoreSnapshot] merges: every key of the data with a defined value
    takes that value ([null] included); every other key of the area,
    whether absent from the data or [undefined] in it, keeps what it
    had.  Nothing is removed, and the other areas are untouched. *)
Theorem restoreSnapshot_merges a data w :
  exists w',
    storage.restoreSnapshot (area_name a) data w = (Ok tt, w') /\
    (forall k, area a w' !! k =
                 match data !! k with
                 | Some (Some v) => Some v
                 | _ => area a w !! k
                 end) /\
    (forall b, b <> a -> area b w' = area b w) /\
    w_trace w' = w_trace w ++ [AreaSet a data].
Proof.
  eexists. split; [|split; [|split]].
  - unfold storage.restoreSnapshot, lift, bind, getDriver.
    rewrite drivers_area_name. reflexivity.
  - intros k. apply lookup_area_set.
  - intros b Hb. unfold Driver.restoreSnapshot, area_set. simpl. by area_simpl.
  - simpl. by rewrite trace_set_area.
Qed.

(** X13: Restoring a snapshot does not bring the area back to the state of
    the snapshot: the keys the snapshot had get their values back, and
    the keys written since, and the keys the snapshot excluded, stay as
    they are. *)
Theorem snapshot_then_restore a o w w2 :
  exists data w1 w3,
    storage.snapshot (area_name a) o w = (Ok data, w1) /\
    storage.restoreSnapshot (area_name a) (Some <$> data) w2 = (Ok tt, w3) /\
    (forall k, area a w3 !! k =
       if decide (k ∈ default [] (o ≫= excludeKeys) ++
                        (getMetaKey <$> default [] (o ≫= excludeKeys)))
       then area a w2 !! k
       else match area a w !! k with
            | Some v => Some v
            | None => area a w2 !! k
            end).
Proof.
  eexists _, _, _. split; [|split].
  - unfold storage.snapshot, lift, bind, getDriver.
    rewrite drivers_area_name. reflexivity.
  - unfold storage.restoreSnapshot, lift, bind, getDriver.
    rewrite drivers_area_name. reflexivity.
  - intros k. etrans; [apply (lookup_area_set a (Some <$> _) w2 k)|].
    rewrite lookup_fmap, exclude_lookup.
    destruct (decide _); [done|].
    by destruct (area a w !! k).
Qed.

(** ** Batched writes and removals *)

Lemma drivers_Some name a : drivers name = Some a -> name = area_name a.
Proof.
  unfold drivers.
  repeat match goal with
         | |- context [String.eqb name ?s] =>
             destruct (String.eqb_spec name s) as [->|_]; [by intros [= <-]|]
         end.
  done.
Qed.

Lemma JsMap_set_keys {V} k (v : V) m :
  (JsMap.set k v m).*1 = if decide (k ∈ m.*1) then m.*1 else m.*1 ++ [k].
Proof.
  induction m as [|[k0 v0] m IH].
  - destruct (decide (k ∈ ([] : JsMap.t V).*1)) as [H|]; [|done].
    by apply elem_of_nil in H.
  - cbn [JsMap.set]. destruct (String.eqb_spec k0 k) as [->|Hne].
    + rewrite !fmap_cons. cbn [fst].
      destruct (decide (k ∈ k :: m.*1)) as [|H]; [done|].
      destruct H. apply list_elem_of_here.
    + rewrite fmap_cons, IH, fmap_cons. cbn [fst].
      destruct (decide (k ∈ m.*1)) as [Hin|Hin];
        destruct (decide (k ∈ k0 :: m.*1)) as [Hin'|Hin']; try done.
      * destruct Hin'. by apply list_elem_of_further.
      * apply elem_of_cons in Hin' as [?|?]; [by subst|done].
Qed.

Lemma JsMap_set_NoDup {V} k (v : V) m :
  NoDup m.*1 -> NoDup (JsMap.set k v m).*1.
Proof.
  intros Hm. rewrite JsMap_set_keys. destruct (decide _); [done|].
  apply NoDup_app. split; [done|]. split; [|apply NoDup_singleton].
  intros x Hx ->%list_elem_of_singleton. done.
Qed.

Lemma JsMap_get_None {V} k (m : JsMap.t V) :
  JsMap.get k m = None <-> k ∉ m.*1.
Proof.
  induction m as [|[k0 v0] m IH]; simpl.
  - split; [intros _; apply not_elem_of_nil|done].
  - destruct (String.eqb_spec k0 k) as [->|Hne].
    + split; [done|]. intros []. apply list_elem_of_here.
    + rewrite IH, not_elem_of_cons.
      split; [intros H; split; [by intros ->|done] | by intros [_ ?]].
Qed.

Section Batches.

Context {E V : Type} (locate : E -> Result (string * list V)).

Lemma bucket_untouched name entries :
  touched locate name entries = false -> bucket locate name entries = [].
Proof.
  induction entries as [|e entries IH]; simpl; [done|].
  destruct (locate e) as [[n items]|]; simpl; [|done].
  case_bool_decide; simpl; [done|]. by rewrite decide_False.
Qed.

(** The first loop fails on the first entry that cannot be located, and
    otherwise files every entry: an area has a list exactly when it had
    one or some entry names it, and the list is what it was, followed by
    what the entries add, in order. *)
Lemma file_all entries acc :
  Forall (fun e => exists l, locate e = Ok l) entries ->
  exists acc',
    foldResult (file_under locate) entries acc = Ok acc' /\
    (NoDup acc.*1 -> NoDup acc'.*1) /\
    (forall name,
      JsMap.get name acc' =
        if touched locate name entries
        then Some (default [] (JsMap.get name acc) ++ bucket locate name entries)
        else JsMap.get name acc) /\
    (forall P : string * list V -> Prop,
       Forall P acc ->
       (forall e n items l, e ∈ entries -> locate e = Ok (n, items) ->
          P (n, l ++ items)) ->
       (forall n l items, P (n, l) -> P (n, l ++ items)) ->
       Forall P acc').
Proof.
  intros Hall. revert acc.
  induction Hall as [|e entries [[n items] He] _ IH]; intros acc.
  { exists acc. simpl. split; [done|]. split; [done|]. split; done. }
  simpl. unfold file_under at 1. rewrite He. simpl.
  destruct (IH (JsMap.set n (default [] (JsMap.get n acc) ++ items) acc))
    as (acc' & Hfold & Hnodup & Hget & Hforall).
  exists acc'. split; [done|]. split; [|split].
  - intros Hacc. apply Hnodup. by apply JsMap_set_NoDup.
  - intros name. rewrite Hget, JsMap_get_set.
    destruct (decide (n = name)) as [->|Hne].
    + rewrite bool_decide_eq_true_2 by done. simpl.
      destruct (touched locate name entries) eqn:Ht.
      * by rewrite <- app_assoc.
      * by rewrite (bucket_untouched _ _ Ht), app_nil_r.
    + by rewrite bool_decide_eq_false_2 by done.
  - intros P Hacc Hnew Hmore. apply Hforall.
    + apply JsMap_set_Forall; [done|].
      destruct (JsMap.get n acc) as [l|] eqn:Hl; simpl.
      * apply Hmore. apply JsMap_get_In in Hl.
        rewrite Forall_forall in Hacc. by apply Hacc.
      * apply (Hnew e n items []); [apply list_elem_of_here|done].
    + intros e' n' items' l' Hin. apply Hnew. by apply list_elem_of_further.
    + done.
Qed.

Lemma file_fails entries acc :
  Exists (fun e => exists err, locate e = Throw err) entries ->
  exists err, foldResult (file_under locate) entries acc = Throw err.
Proof.
  intros Hex. revert acc.
  induction Hex as [e entries [err He]|e entries _ IH]; intros acc; simpl.
  - exists err. unfold file_under. by rewrite He.
  - unfold file_under at 1.
    destruct (locate e) as [[n items]|err]; simpl; [apply IH|eauto].
Qed.

(** The second part: one call per area of the map, in the order of the
    map.  [call] is a driver operation that makes one backend call,
    recorded as [ev], with effect [upd] on its area. *)
Context (call : StorageArea -> list V -> M unit)
        (ev : StorageArea -> list V -> Event)
        (upd : list V -> gmap string JSON -> gmap string JSON).
Hypothesis call_eq : forall d items w,
  call d items w =
    (Ok tt, record (ev d items) (set_area d (upd items (area d w)) w)).

Lemma call_all (entries : JsMap.t (list V)) w :
  NoDup entries.*1 ->
  Forall (fun e => is_Some (drivers e.1)) entries ->
  exists w' areas,
    Promise_all
      (map (fun entry : string * list V =>
              driver <- lift (getDriver entry.1) ;; call driver entry.2)
           entries) w = (Ok (map (fun _ => tt) entries), w') /\
    (forall a, area a w' =
       match JsMap.get (area_name a) entries with
       | Some items => upd items (area a w)
       | None => area a w
       end) /\
    NoDup areas /\
    (forall a, a ∈ areas <-> area_name a ∈ entries.*1) /\
    w_trace w' =
      w_trace w ++
      map (fun a => ev a (default [] (JsMap.get (area_name a) entries))) areas.
Proof.
  intros Hnodup Hdrv. revert w.
  induction Hdrv as [|[name items] entries [d Hd] _ IH]; intros w.
  { exists w, []. simpl. split; [done|]. split; [done|].
    split; [constructor|]. split; [|by rewrite app_nil_r].
    intros a. split; intros H; by apply elem_of_nil in H. }
  simpl in Hd. pose proof (drivers_Some _ _ Hd) as ->.
  apply NoDup_cons in Hnodup as [Hfresh Hnodup]. simpl in Hfresh.
  cbn [map Promise_all fst snd]. unfold lift at 1, bind at 1, getDriver at 1.
  rewrite Hd, call_eq.
  destruct (IH Hnodup (record (ev d items)
              (set_area d (upd items (area d w)) w)))
    as (w' & areas & Hrun & Hareas & Hnd & Hin & Htrace).
  rewrite Hrun. exists w', (d :: areas).
  assert (d ∉ areas) as Hd_fresh by by rewrite Hin.
  split; [done|]. split; [|split; [|split]].
  - intros a. rewrite Hareas. simpl. area_simpl.
    destruct (String.eqb_spec (area_name d) (area_name a)) as [Heq|Hne].
    + assert (d = a) as <- by by destruct d, a.
      apply JsMap_get_None in Hfresh. rewrite Hfresh. by area_simpl.
    + rewrite decide_False by by intros ->. done.
  - by apply NoDup_cons.
  - intros a. rewrite elem_of_cons, Hin. simpl. rewrite elem_of_cons.
    split; (intros [H|H]; [left|by right]); [by subst|by destruct a, d].
  - rewrite Htrace, trace_record, trace_set_area, <- app_assoc. simpl.
    rewrite String.eqb_refl. simpl. do 2 f_equal.
    apply map_ext_in. intros a Ha%list_elem_of_In.
    destruct (String.eqb_spec (area_name d) (area_name a)) as [Heq|]; [|done].
    assert (d = a) as -> by by destruct d, a. done.
Qed.

End Batches.

Lemma foldResult_ext {A S} (f g : S -> A -> Result S) xs s :
  (forall s x, f s x = g s x) -> foldResult f xs s = foldResult g xs s.
Proof.
  intros Hfg. revert s. induction xs as [|x xs IH]; intros s; [done|].
  simpl. rewrite Hfg. destruct (g s x); simpl; [apply IH|done].
Qed.

Lemma touched_true {E V} (locate : E -> Result (string * list V)) name entries :
  touched locate name entries = true <->
  Exists (fun e => exists items, locate e = Ok (name, items)) entries.
Proof.
  induction entries as [|e entries IH]; simpl.
  - split; [done|]. by intros ?%Exists_nil.
  - rewrite Exists_cons, orb_true_iff, IH.
    destruct (locate e) as [[n items]|err].
    + rewrite bool_decide_eq_true.
      split; (intros [H|H]; [left|by right]).
      * subst. by eexists.
      * destruct H as [items' [= -> _]]. done.
    + split; (intros [H|H]; [|by right]); [done|]. by destruct H.
Qed.

Section BatchRun.

Context {E V : Type} (locate : E -> Result (string * list V))
        (step : JsMap.t (list V) -> E -> Result (JsMap.t (list V)))
        (call : StorageArea -> list V -> M unit)
        (ev : StorageArea -> list V -> Event)
        (upd : list V -> gmap string JSON -> gmap string JSON).
Hypothesis step_eq : forall acc e, step acc e = file_under locate acc e.
Hypothesis call_eq : forall d items w,
  call d items w =
    (Ok tt, record (ev d items) (set_area d (upd items (area d w)) w)).
Hypothesis upd_nil : forall st, upd [] st = st.
Hypothesis located_area : forall e n items,
  locate e = Ok (n, items) -> is_Some (drivers n).

(** A batch whose entries can all be located makes one call per area
    that some entry names, in the order of the first entry of each area;
    every area ends as [upd] makes it from what the entries file under
    it. *)
Lemma batch_run entries w :
  Forall (fun e => exists l, locate e = Ok l) entries ->
  exists w' areas,
    (acc <- lift (foldResult step entries []) ;;
     Promise_all
       (map (fun entry : string * list V =>
               driver <- lift (getDriver entry.1) ;; call driver entry.2)
            (JsMap.entries acc)) ;;;
     ret tt) w = (Ok tt, w') /\
    (forall a, area a w' = upd (bucket locate (area_name a) entries) (area a w)) /\
    NoDup areas /\
    (forall a, a ∈ areas <-> touched locate (area_name a) entries = true) /\
    w_trace w' =
      w_trace w ++
      map (fun a => ev a (bucket locate (area_name a) entries)) areas.
Proof.
  intros Hall.
  destruct (file_all locate entries [] Hall)
    as (acc & Hfold & Hnodup & Hget & Hforall).
  assert (foldResult step entries [] = Ok acc) as Hstep
    by (rewrite <- Hfold; apply foldResult_ext, step_eq).
  specialize (Hnodup (NoDup_nil_2 : NoDup ([] : JsMap.t (list V)).*1)).
  assert (Forall (fun e => is_Some (drivers e.1)) acc) as Hdrv.
  { apply Hforall; [constructor| |done].
    intros e n items l _ He. simpl. by eapply located_area. }
  destruct (call_all call ev upd call_eq acc w Hnodup Hdrv)
    as (w' & areas & Hrun & Hareas & Hnd & Hin & Htrace).
  exists w', areas. unfold bind at 1, lift at 1. rewrite Hstep.
  unfold bind at 1, JsMap.entries. rewrite Hrun.
  split; [done|].
  assert (forall a, default [] (JsMap.get (area_name a) acc) =
                    bucket locate (area_name a) entries) as Hbucket.
  { intros a. rewrite Hget. simpl.
    destruct (touched locate (area_name a) entries) eqn:Ht; simpl; [done|].
    by rewrite bucket_untouched. }
  split; [|split; [done|split]].
  - intros a. rewrite Hareas, <- Hbucket, Hget. simpl.
    destruct (touched locate (area_name a) entries); simpl; [done|].
    by rewrite upd_nil.
  - intros a. rewrite Hin. pose proof (Hget (area_name a)) as Hg.
    destruct (touched locate (area_name a) entries).
    + split; [done|]. intros _. apply JsMap_get_In in Hg.
      apply list_elem_of_fmap. by eexists (_, _).
    + split; [|done]. intros Hk. simpl in Hg. by apply JsMap_get_None in Hg.
  - rewrite Htrace. f_equal. apply map_ext. intros a. by rewrite Hbucket.
Qed.

Lemma batch_fails entries w :
  Exists (fun e => exists err, locate e = Throw err) entries ->
  exists err,
    (acc <- lift (foldResult step entries []) ;;
     Promise_all
       (map (fun entry : string * list V =>
               driver <- lift (getDriver entry.1) ;; call driver entry.2)
            (JsMap.entries acc)) ;;;
     ret tt) w = (Throw err, w).
Proof.
  intros Hex. destruct (file_fails locate entries [] Hex) as [err Hfold].
  assert (foldResult step entries [] = Throw err) as Hstep
    by (rewrite <- Hfold; apply foldResult_ext, step_eq).
  exists err. unfold bind at 1, lift at 1. by rewrite Hstep.
Qed.

End BatchRun.

Lemma area_name_inj a b : area_name a = area_name b -> a = b.
Proof. by destruct a, b. Qed.

Lemma resolveKey_area k rk :
  resolveKey k = Ok rk -> driverArea rk = area_name (driver rk).
Proof. intros [_ Hd]%resolveKey_Ok. by apply drivers_Some. Qed.

Lemma resolveKey_in_area k rk a :
  resolveKey k = Ok rk -> driverArea rk = area_name a <-> driver rk = a.
Proof.
  intros Hrk. rewrite (resolveKey_area _ _ Hrk).
  split; [apply area_name_inj|by intros ->].
Qed.

Lemma setItems_step_eq acc e :
  storage.setItems_step acc e = file_under located_value acc e.
Proof.
  unfold storage.setItems_step, file_under, located_value.
  by destruct (resolveKey e.1).
Qed.

Lemma removeItems_step_eq acc e :
  storage.removeItems_step acc e = file_under located_removal acc e.
Proof.
  unfold storage.removeItems_step, file_under, located_removal.
  destruct (resolveKey _); simpl; [|done].
  destruct (Internal.wants_removeMeta _); [|done].
  by rewrite <- app_assoc.
Qed.

Lemma located_value_area e n items :
  located_value e = Ok (n, items) -> is_Some (drivers n).
Proof.
  unfold located_value. destruct (resolveKey e.1) as [rk|] eqn:Hrk; [|done].
  intros [= <- _]. apply resolveKey_Ok in Hrk as [_ Hd]. by eexists.
Qed.

Lemma located_removal_area e n items :
  located_removal e = Ok (n, items) -> is_Some (drivers n).
Proof.
  unfold located_removal.
  destruct (resolveKey _) as [rk|] eqn:Hrk; [|done].
  intros [= <- _]. apply resolveKey_Ok in Hrk as [_ Hd]. by eexists.
Qed.

Lemma lookup_fold_insert {V} (l : list (string * V)) (m0 : gmap string V) k :
  fold_left (fun m (kv : string * V) => <[kv.1 := kv.2]> m) l m0 !! k =
    match last (filter (fun kv : string * V => kv.1 = k) l) with
    | Some kv => Some kv.2
    | None => m0 !! k
    end.
Proof.
  revert m0. induction l as [|[k0 v0] l IH]; intros m0; [done|].
  simpl fold_left. rewrite IH, filter_cons. simpl.
  destruct (decide (k0 = k)) as [->|Hne].
  - rewrite last_cons, lookup_insert_eq. by destruct (last _).
  - by rewrite lookup_insert_ne.
Qed.

Lemma after_null_without writes :
  Some JNull ∉ writes -> after_null writes = [].
Proof.
  induction writes as [|v writes IH]; [done|].
  intros Hnot. apply not_elem_of_cons in Hnot as [Hv Hnot].
  destruct v as [[]|]; simpl; auto. done.
Qed.

Lemma bucket_cons {E V} (locate : E -> Result (string * list V)) name e entries :
  bucket locate name (e :: entries) =
    match locate e with
    | Ok (n, items) => if decide (n = name) then items else []
    | Throw _ => []
    end ++ bucket locate name entries.
Proof. done. Qed.

Lemma bucket_writes a k values :
  (filter (fun kv : string * JSAny => kv.1 = k)
     (bucket located_value (area_name a) values)).*2 = writes_to a k values.
Proof.
  unfold writes_to. induction values as [|e values IH]; [done|].
  rewrite bucket_cons, filter_app, fmap_app, IH, filter_cons. clear IH.
  unfold located_value, resolves_to.
  destruct (resolveKey e.1) as [rk|] eqn:Hrk; simpl; [|done].
  destruct (decide (driverArea rk = area_name a)) as [Ha|Ha].
  - apply (resolveKey_in_area _ _ _ Hrk) in Ha.
    rewrite (bool_decide_eq_true_2 _ Ha). simpl.
    rewrite filter_cons, filter_nil. simpl.
    destruct (decide (driverKey rk = k)) as [Hk|Hk].
    + rewrite (bool_decide_eq_true_2 _ Hk). by rewrite decide_True.
    + rewrite (bool_decide_eq_false_2 _ Hk). by rewrite decide_False.
  - rewrite filter_nil. simpl.
    rewrite bool_decide_eq_false_2; [by rewrite decide_False|].
    by rewrite <- (resolveKey_in_area _ _ _ Hrk).
Qed.

Lemma lookup_foldr_delete {V} keys (m : gmap string V) k :
  foldr delete m keys !! k = if decide (k ∈ keys) then None else m !! k.
Proof.
  induction keys as [|k0 keys IH]; simpl.
  - destruct (decide (k ∈ [])) as [H|]; [by apply elem_of_nil in H|done].
  - destruct (decide (k = k0)) as [->|Hne].
    + rewrite lookup_delete_eq, decide_True; [done|apply list_elem_of_here].
    + rewrite lookup_delete_ne, IH by done.
      destruct (decide (k ∈ keys)) as [Hin|Hin].
      * rewrite decide_True; [done|by apply list_elem_of_further].
      * rewrite decide_False; [done|]. by intros [?|?]%elem_of_cons.
Qed.

Lemma bucket_removes a k keys :
  k ∈ bucket located_removal (area_name a) keys <->
  existsb (removes a k) keys = true.
Proof.
  induction keys as [|e keys IH].
  - simpl. split; [by intros ?%elem_of_nil|done].
  - rewrite bucket_cons, elem_of_app, IH. simpl existsb.
    rewrite orb_true_iff. clear IH.
    assert (forall P Q R : Prop, (P <-> Q) -> (P \/ R <-> Q \/ R)) as Hor
      by tauto.
    apply Hor. unfold located_removal, removes.
    destruct (resolveKey _) as [rk|] eqn:Hrk; simpl;
      [|split; [by intros ?%elem_of_nil|done]].
    destruct (decide (driverArea rk = area_name a)) as [Ha|Ha].
    + apply (resolveKey_in_area _ _ _ Hrk) in Ha.
      rewrite (bool_decide_eq_true_2 _ Ha). simpl.
      rewrite elem_of_cons, orb_true_iff, bool_decide_eq_true.
      apply or_iff_compat_l.
      destruct (Internal.wants_removeMeta _); simpl.
      * by rewrite list_elem_of_singleton, bool_decide_eq_true.
      * split; [by intros ?%elem_of_nil|done].
    + rewrite bool_decide_eq_false_2
        by by rewrite <- (resolveKey_in_area _ _ _ Hrk).
      simpl. split; [by intros ?%elem_of_nil|done].
Qed.

Lemma Exists_equiv {A} (P Q : A -> Prop) l :
  (forall x, P x <-> Q x) -> Exists P l <-> Exists Q l.
Proof.
  intros H.
  split; intros Hex; (eapply Exists_impl; [exact Hex|]); intros x; apply H.
Qed.

Lemma touched_value a values :
  touched located_value (area_name a) values = true <->
  Exists (fun e => exists rk, resolveKey e.1 = Ok rk /\ driver rk = a) values.
Proof.
  rewrite touched_true. apply Exists_equiv. intros e. unfold located_value.
  destruct (resolveKey e.1) as [rk|] eqn:Hrk; simpl.
  - split.
    + intros [items [= Ha _]]. exists rk. split; [done|].
      by apply (resolveKey_in_area _ _ _ Hrk).
    + intros [rk' [[= <-] Ha]]. apply (resolveKey_in_area _ _ _ Hrk) in Ha.
      rewrite Ha. eauto.
  - split; [by intros [? ?]|by intros [? [? ?]]].
Qed.

Lemma touched_removal a keys :
  touched located_removal (area_name a) keys = true <->
  Exists (fun e => exists rk,
            resolveKey (storage.removed_keyStr e) = Ok rk /\ driver rk = a) keys.
Proof.
  rewrite touched_true. apply Exists_equiv. intros e. unfold located_removal.
  destruct (resolveKey _) as [rk|] eqn:Hrk; simpl.
  - split.
    + intros [items [= Ha _]]. exists rk. split; [done|].
      by apply (resolveKey_in_area _ _ _ Hrk).
    + intros [rk' [[= <-] Ha]]. apply (resolveKey_in_area _ _ _ Hrk) in Ha.
      rewrite Ha. eauto.
  - split; [by intros [? ?]|by intros [? [? ?]]].
Qed.



(** X10: [removeItems] with keys that all resolve: afterwards every named key
    is absent, and so is the shadow key of every key named with
    [removeMeta]; every other key of every area keeps what it had.  The
    backend is called once for each area that some entry names. *)
Theorem removeItems_removes keys w :
  Forall (fun e => exists rk, resolveKey (storage.removed_keyStr e) = Ok rk)
         keys ->
  exists w' areas payload,
    storage.removeItems keys w = (Ok tt, w') /\
    (forall a k,
       area a w' !! k =
         if existsb (removes a k) keys then None else area a w !! k) /\
    NoDup areas /\
    (forall a, a ∈ areas <->
       Exists (fun e => exists rk,
                 resolveKey (storage.removed_keyStr e) = Ok rk /\
                 driver rk = a) keys) /\
    w_trace w' = w_trace w ++ map (fun a => AreaRemove a (payload a)) areas.
Proof.
  intros Hall.
  destruct (batch_run located_removal storage.removeItems_step
              Driver.removeItems AreaRemove
              (fun items st => foldr delete st items)
              removeItems_step_eq ltac:(done) ltac:(done)
              located_removal_area keys w)
    as (w' & areas & Hrun & Hareas & Hnd & Hin & Htrace).
  { eapply Forall_impl; [exact Hall|]. intros e [rk Hrk].
    unfold located_removal. rewrite Hrk. by eexists. }
  exists w', areas. eexists. split; [exact Hrun|].
  split; [|split; [done|split]].
  - intros a k. rewrite Hareas, lookup_foldr_delete.
    destruct (existsb (removes a k) keys) eqn:Hex.
    + rewrite decide_True; [done|]. by apply bucket_removes.
    + rewrite decide_False; [done|]. rewrite bucket_removes. by rewrite Hex.
  - intros a. by rewrite Hin, touched_removal.
  - exact Htrace.
Qed.

Lemma removeItems_removes_witness :
  let w := mkWorld (<["a$" := JObj ∅]> (<["b" := JNum 2]> {[ "a" := JNum 1 ]}))
                   ∅ ∅ ∅ [] in
  exists w',
    storage.removeItems
      [RemoveKeyWith "local:a" (Some {| removeMeta_opt := true |})] w =
      (Ok tt, w') /\
    area local w' !! "a" = None /\
    area local w' !! "a$" = None /\
    area local w' !! "b" = Some (JNum 2).
Proof.
  intros w.
  destruct (removeItems_removes
              [RemoveKeyWith "local:a" (Some {| removeMeta_opt := true |})] w)
    as (w' & areas & payload & Hrun & Hareas & _).
  { repeat constructor; by eexists. }
  exists w'. split; [exact Hrun|].
  split; [exact (eq_trans (Hareas local "a") eq_refl)|].
  split; [exact (eq_trans (Hareas local "a$") eq_refl)|].
  exact (eq_trans (Hareas local "b") eq_refl).
Defined.


(** X11: A batch is refused as a whole: one key that does not resolve,
    wherever it stands in the list, makes [setItems], [removeItems] and
    [getItems] throw before any backend call, so that the keys that do
    resolve are not written, removed or read either.  This is for a key
    whose area token is not the name of a member of [Object.prototype]
    ([prototype_members]): for such a token the lookup of the area in the
    source finds the inherited member, the key is not refused, and the
    batch fails only when that area is called. *)
Theorem batch_with_bad_key_changes_nothing k err w :
  prototype_member (area_token k) = false ->
  resolveKey k = Throw err ->
  (forall before after v, exists err',
     storage.setItems (before ++ (k, v) :: after) w = (Throw err', w)) /\
  (forall before after opts, exists err',
     storage.removeItems (before ++ RemoveKeyWith k opts :: after) w =
       (Throw err', w)) /\
  (forall completion before after, exists err',
     storage.getItems completion (before ++ KeyString k :: after) w =
       (Throw err', w)).
Proof.
  intros _ Hk. split; [|split].
  - intros before after v.
    apply (batch_fails located_value storage.setItems_step Driver.setItems
             setItems_step_eq).
    apply Exists_app. right. apply Exists_cons_hd.
    exists err. unfold located_value. simpl. by rewrite Hk.
  - intros before after opts.
    apply (batch_fails located_removal storage.removeItems_step
             Driver.removeItems removeItems_step_eq).
    apply Exists_app. right. apply Exists_cons_hd.
    exists err. unfold located_removal. simpl. by rewrite Hk.
  - intros completion before after. apply getItems_throws_early.
    apply Exists_app. right. apply Exists_cons_hd. by exists err.
Qed.

Lemma batch_with_bad_key_changes_nothing_witness :
  exists err,
    storage.setItems [("local:a", Some (JNum 1)); ("cookie:b", Some (JNum 2))]
      empty_world = (Throw err, empty_world).
Proof.
  destruct (batch_with_bad_key_changes_nothing "cookie:b"
              (InvalidArea "cookie") empty_world eq_refl eq_refl)
    as (Hset & _ & _).
  exact (Hset [("local:a", Some (JNum 1))] [] (Some (JNum 2))).
Defined.

(** ** Metadata of several items *)

Lemma split_area_key a k :
  split colon (area_name a +:+ ":" +:+ k) =
    (area_name a, first_segment k :: (split colon k).2).
Proof.
  unfold first_segment.
  destruct a; simpl area_name; rewrite ?append_cons, ?append_empty;
    cbn [split Ascii.eqb Bool.eqb colon]; by destruct (split colon k).
Qed.

Lemma split_no_colon k :
  String.index 0 ":" k = None -> split colon k = (k, []).
Proof.
  induction k as [|c k IH]; [done|].
  rewrite index_cons_single.
  destruct (Ascii.ascii_dec _ c) as [|Hc]; [done|].
  destruct (String.index 0 ":" k); [done|]. intros _.
  cbn [split]. rewrite IH by done.
  destruct (Ascii.eqb_spec c colon) as [->|]; [by destruct Hc|done].
Qed.

Lemma getItemMetas_step_eq items acc :
  foldResult (file_under located_meta) items acc =
    Ok (fold_left storage.getItemMetas_step items acc).
Proof.
  revert acc. induction items as [|e items IH]; intros acc; [done|].
  simpl. unfold file_under at 1, located_meta, storage.getItemMetas_step at 2.
  destruct (split colon (key e.2)) as [n segments]. simpl. apply IH.
Qed.

Lemma JsMap_get_elem {V} k (v : V) m :
  NoDup m.*1 -> (k, v) ∈ m -> JsMap.get k m = Some v.
Proof.
  induction m as [|[k0 v0] m IH]; [by intros _ ?%elem_of_nil|].
  rewrite fmap_cons, NoDup_cons. cbn [fst]. intros [Hfresh Hm] Hin. simpl.
  apply elem_of_cons in Hin as [[= <- <-]|Hin].
  - by rewrite String.eqb_refl.
  - destruct (String.eqb_spec k0 k) as [->|]; [|by apply IH].
    destruct Hfresh. apply list_elem_of_fmap. by exists (k, v).
Qed.

Lemma elem_of_bucket {E V} (locate : E -> Result (string * list V)) name
    entries x :
  x ∈ bucket locate name entries <->
  exists e items, e ∈ entries /\ locate e = Ok (name, items) /\ x ∈ items.
Proof.
  induction entries as [|e entries IH].
  - split; [by intros ?%elem_of_nil|]. by intros (? & ? & ?%elem_of_nil & _).
  - rewrite bucket_cons, elem_of_app, IH. clear IH. split.
    + intros [Hx|(e' & items & Hin & He' & Hx)].
      * destruct (locate e) as [[n items]|] eqn:He;
          [|by apply elem_of_nil in Hx].
        destruct (decide (n = name)) as [->|]; [|by apply elem_of_nil in Hx].
        exists e, items. split; [apply list_elem_of_here|done].
      * exists e', items. split; [by apply list_elem_of_further|done].
    + intros (e' & items & Hin & He' & Hx).
      apply elem_of_cons in Hin as [->|Hin].
      * left. rewrite He'. by rewrite decide_True.
      * right. eauto.
Qed.

(** One area's answers, as the loop files them. *)
Lemma lookup_valueMap (g : string -> JSON) keys k :
  fold_left (fun map (r : string * JSON) => <[r.1 := r.2]> map)
    (map (fun key => (key, g key)) keys) (∅ : gmap string JSON) !! k =
    if decide (k ∈ keys) then Some (g k) else None.
Proof.
  rewrite lookup_fold_insert.
  induction keys as [|k0 keys IH] using rev_ind.
  - simpl. destruct (decide (k ∈ [])) as [H|]; [by apply elem_of_nil in H|done].
  - rewrite map_app, filter_app. simpl map. rewrite filter_cons, filter_nil.
    simpl. destruct (decide (k0 = k)) as [->|Hne].
    + rewrite last_snoc. simpl. rewrite decide_True; [done|].
      apply elem_of_app. right. apply list_elem_of_here.
    + rewrite app_nil_r, IH.
      destruct (decide (k ∈ keys)) as [Hin|Hin].
      * rewrite decide_True; [done|]. apply elem_of_app. by left.
      * rewrite decide_False; [done|].
        intros [?|?%list_elem_of_singleton]%elem_of_app; [done|by subst].
Qed.

Lemma meta_object_eq stored :
  orElse (getMetaValue (Some (orNull stored))) (JObj ∅) = meta_object stored.
Proof. by destruct stored as [[]|]. Qed.

Lemma fill_results (f : string * option string -> JSON) itemList
    (R : gmap string JSON) :
  let R' := fold_left (fun R item => <[item.1 := f item]> R) itemList R in
  (forall name v, R' !! name = Some v ->
     R !! name = Some v \/ exists sk, (name, sk) ∈ itemList /\ v = f (name, sk)) /\
  (forall name sk, (name, sk) ∈ itemList -> is_Some (R' !! name)) /\
  (forall name, is_Some (R !! name) -> is_Some (R' !! name)).
Proof.
  revert R. induction itemList as [|[nm sk] itemList IH]; intros R.
  { simpl. split; [by left|]. split; [by intros ? ? ?%elem_of_nil|done]. }
  simpl. destruct (IH (<[nm := f (nm, sk)]> R)) as (Hfrom & Hall & Hkeep).
  split; [|split].
  - intros name v Hv. destruct (Hfrom name v Hv) as [Hin|(sk' & Hin & ->)].
    + destruct (decide (nm = name)) as [->|Hne].
      * rewrite lookup_insert_eq in Hin. injection Hin as <-.
        right. exists sk. split; [apply list_elem_of_here|done].
      * rewrite lookup_insert_ne in Hin by done. by left.
    + right. exists sk'. split; [by apply list_elem_of_further|done].
  - intros name sk' [[= -> ->]|Hin]%elem_of_cons.
    + apply Hkeep. rewrite lookup_insert_eq. by eexists.
    + by eapply Hall.
  - intros name Hname. apply Hkeep.
    destruct (decide (nm = name)) as [->|Hne].
    + rewrite lookup_insert_eq. by eexists.
    + by rewrite lookup_insert_ne.
Qed.

Lemma getItemMetas_area_eq d itemList R w :
  storage.getItemMetas_area R (area_name d, itemList) w =
    (Ok (fold_left
           (fun R (item : string * option string) =>
              <[item.1 :=
                  orElse
                    (getMetaValue
                       (fold_left
                          (fun map (r : string * JSON) => <[r.1 := r.2]> map)
                          (map (fun key => (key, orNull (area d w !! key)))
                             (map (fun item : string * option string =>
                                     storage.getMetaKey_of item.2) itemList))
                          (∅ : gmap string JSON)
                        !! storage.getMetaKey_of item.2))
                    (JObj ∅)]> R)
           itemList R),
     record (AreaGet d (map (fun item : string * option string =>
                               storage.getMetaKey_of item.2) itemList)) w).
Proof.
  unfold storage.getItemMetas_area, lift, bind at 1, getDriver.
  rewrite drivers_area_name. unfold bind, ret.
  by rewrite Driver_getItems_eq.
Qed.

Lemma getItemMetas_loop entries R w :
  Forall (fun e : string * list (string * option string) =>
            is_Some (drivers e.1)) entries ->
  exists R' w',
    forOf storage.getItemMetas_area entries R w = (Ok R', w') /\
    (forall a, area a w' = area a w) /\
    (forall name v, R' !! name = Some v ->
       R !! name = Some v \/
       exists d l sk,
         (area_name d, l) ∈ entries /\ (name, sk) ∈ l /\
         v = meta_object (area d w !! storage.getMetaKey_of sk)) /\
    (forall n l name sk, (n, l) ∈ entries -> (name, sk) ∈ l ->
       is_Some (R' !! name)) /\
    (forall name, is_Some (R !! name) -> is_Some (R' !! name)).
Proof.
  intros Hdrv. revert R w.
  induction Hdrv as [|[n l] entries [d Hd] _ IH]; intros R w.
  { exists R, w. split; [done|]. split; [done|]. split; [by left|].
    split; [by intros ? ? ? ? ?%elem_of_nil|done]. }
  simpl in Hd. apply drivers_Some in Hd as ->.
  cbn [forOf]. unfold bind at 1. rewrite getItemMetas_area_eq.
  match goal with
  | |- context [forOf _ entries ?R1 ?w1] =>
      destruct (IH R1 w1) as (R' & w' & Hrun & Hareas & Hfrom & Hall & Hkeep);
      destruct (fill_results
                  (fun item : string * option string =>
                     orElse
                       (getMetaValue
                          (fold_left
                             (fun map (r : string * JSON) => <[r.1 := r.2]> map)
                             (map (fun key => (key, orNull (area d w !! key)))
                                (map (fun item : string * option string =>
                                        storage.getMetaKey_of item.2) l))
                             (∅ : gmap string JSON)
                           !! storage.getMetaKey_of item.2))
                       (JObj ∅)) l R) as (Hfrom1 & Hall1 & Hkeep1)
  end.
  rewrite Hrun. exists R', w'. split; [done|]. split; [|split; [|split]].
  - intros a. by rewrite Hareas, area_record.
  - intros name v Hv. destruct (Hfrom name v Hv) as [Hin|(d' & l' & sk & ? & ? & ->)].
    + destruct (Hfrom1 name v Hin) as [?|(sk & Hsk & ->)]; [by left|].
      right. exists d, l, sk. split; [apply list_elem_of_here|]. split; [done|].
      rewrite lookup_valueMap, decide_True.
      * apply meta_object_eq.
      * apply list_elem_of_In, in_map_iff. exists (name, sk).
        split; [done|by apply list_elem_of_In].
    + right. exists d', l', sk. split; [by apply list_elem_of_further|].
      split; [done|]. by rewrite area_record.
  - intros n' l' name sk [[= -> ->]|Hin]%elem_of_cons Hsk.
    + apply Hkeep. by eapply Hall1.
    + by eapply Hall.
  - intros name Hname. by apply Hkeep, Hkeep1.
Qed.

Lemma NoDup_fst_eq {A B} (l : list (A * B)) x y :
  NoDup l.*1 -> x ∈ l -> y ∈ l -> x.1 = y.1 -> x = y.
Proof.
  induction l as [|z l IH]; [by intros _ ?%elem_of_nil|].
  rewrite fmap_cons, NoDup_cons. intros [Hfresh Hl] Hx Hy Heq.
  apply elem_of_cons in Hx as [->|Hx]; apply elem_of_cons in Hy as [->|Hy].
  - done.
  - destruct Hfresh. rewrite Heq. apply list_elem_of_fmap. by exists y.
  - destruct Hfresh. rewrite <- Heq. apply list_elem_of_fmap. by exists x.
  - by apply IH.
Qed.

Lemma getItemMetas_answer items w :
  NoDup items.*1 ->
  Forall (fun e => resolveKey (key e.2) = Ok (resolved e.2)) items ->
  exists w',
    storage.getItemMetas items w =
      (Ok (map (fun e : string * WxtStorageItem =>
                  (e.1,
                   Some (meta_object
                           (area (driver (resolved e.2)) w
                              !! getMetaKey
                                   (first_segment (driverKey (resolved e.2)))))))
               items), w') /\
    (forall a, area a w' = area a w).
Proof.
  intros Hnames Hitems.
  assert (forall e, e ∈ items ->
            located_meta e =
              Ok (area_name (driver (resolved e.2)),
                  [(e.1, Some (first_segment (driverKey (resolved e.2))))]))
    as Hlocated.
  { intros e He. rewrite Forall_forall in Hitems.
    pose proof (Hitems e He) as Hrk.
    destruct (resolveKey_Ok _ _ Hrk) as [Hkey _].
    unfold located_meta.
    rewrite Hkey, (resolveKey_area _ _ Hrk), split_area_key. done. }
  destruct (file_all located_meta items []) as (acc & Hfold & Hnodup & Hget & _).
  { apply Forall_forall. intros e He. rewrite (Hlocated e He). by eexists. }
  rewrite getItemMetas_step_eq in Hfold. injection Hfold as Hacc.
  specialize (Hnodup (NoDup_nil_2 : NoDup ([] : JsMap.t (list (string * option string))).*1)).
  assert (forall n l, (n, l) ∈ acc ->
            l = bucket located_meta n items /\
            touched located_meta n items = true) as Hentries.
  { intros n l Hin. apply JsMap_get_elem in Hin; [|done].
    rewrite Hget in Hin. destruct (touched located_meta n items); [|done].
    by injection Hin as <-. }
  assert (Forall (fun e : string * list (string * option string) =>
                    is_Some (drivers e.1)) acc) as Hdrv.
  { apply Forall_forall. intros [n l] Hin.
    destruct (Hentries n l Hin) as [_ Ht].
    apply touched_true, Exists_exists in Ht as (e & He & items' & Hloc).
    rewrite (Hlocated e He) in Hloc. injection Hloc as <- _.
    simpl. rewrite drivers_area_name. by eexists. }
  destruct (getItemMetas_loop acc ∅ w Hdrv)
    as (R' & w' & Hrun & Hareas & Hfrom & Hall & _).
  exists w'. split; [|done].
  unfold storage.getItemMetas, bind, ret, JsMap.entries.
  rewrite Hacc, Hrun. f_equal. f_equal. rewrite map_map.
  apply map_ext_in. intros e He%list_elem_of_In. f_equal.
  assert ((e.1, Some (first_segment (driverKey (resolved e.2))))
            ∈ bucket located_meta (area_name (driver (resolved e.2))) items)
    as Hfiled.
  { apply elem_of_bucket. eexists e, _. split; [done|].
    split; [by apply Hlocated|apply list_elem_of_here]. }
  assert (touched located_meta (area_name (driver (resolved e.2))) items = true)
    as Ht.
  { apply touched_true, Exists_exists. exists e. split; [done|].
    eexists. by apply Hlocated. }
  pose proof (Hget (area_name (driver (resolved e.2)))) as Hg.
  rewrite Ht in Hg. simpl in Hg. apply JsMap_get_In in Hg.
  destruct (Hall _ _ _ _ Hg Hfiled) as [v Hv]. rewrite Hv. f_equal.
  destruct (Hfrom _ _ Hv) as [Hempty|(d & l & sk & Hin & Hsk & ->)];
    [by rewrite lookup_empty in Hempty|].
  destruct (Hentries _ _ Hin) as [-> _].
  apply elem_of_bucket in Hsk as (e' & items' & He' & Hloc & Hsk).
  rewrite (Hlocated e' He') in Hloc. injection Hloc as Hd <-.
  apply list_elem_of_singleton in Hsk. injection Hsk as Hname ->.
  apply area_name_inj in Hd.
  assert (e = e') as <- by by apply (NoDup_fst_eq items).
  by rewrite Hd.
Qed.

(** X22: [getItemMetas] for items as [defineItem] makes them, under distinct
    names: the answer lists the names in the order given, each with an
    object, never [null]: the object stored at the shadow key of the
    first segment of the item's local key, and the empty object when
    anything else, or nothing, is stored there.  The areas are only
    read. *)
Theorem getItemMetas_reads_first_segment items w :
  NoDup items.*1 ->
  Forall (fun e => resolveKey (key e.2) = Ok (resolved e.2)) items ->
  exists w',
    storage.getItemMetas items w =
      (Ok (map (fun e : string * WxtStorageItem =>
                  (e.1,
                   Some (meta_object
                           (area (driver (resolved e.2)) w
                              !! getMetaKey
                                   (first_segment (driverKey (resolved e.2)))))))
               items), w') /\
    (forall a, area a w' = area a w).
Proof. apply getItemMetas_answer. Qed.

Lemma getItemMetas_reads_first_segment_witness :
  let it :=
    {| key := "local:a:b";
       resolved := {| driverArea := "local"; driverKey := "a:b"; driver := local |};
       opts := None |} in
  let w := mkWorld (<["a:b$" := JObj {[ "v" := JNum 2 ]}]>
                      {[ "a$" := JObj {[ "v" := JNum 1 ]} ]}) ∅ ∅ ∅ [] in
  (exists w',
     storage.getItemMetas [("x", it)] w =
       (Ok [("x", Some (JObj {[ "v" := JNum 1 ]}))], w')) /\
  (Item.getMeta it w).1 = Ok (Some (JObj {[ "v" := JNum 2 ]})).
Proof.
  intros it w. split; [|reflexivity].
  destruct (getItemMetas_reads_first_segment [("x", it)] w)
    as (w' & Hrun & _).
  - apply NoDup_singleton.
  - repeat constructor.
  - exists w'. exact (eq_trans Hrun eq_refl).
Defined.

(** X23: For an item whose local key has no delimiter, and whose shadow key
    does not hold [null], [getItemMetas] answers what the item's
    [getMeta] answers. *)
Theorem getItemMetas_agrees_with_getMeta name it w :
  resolveKey (key it) = Ok (resolved it) ->
  String.index 0 ":" (driverKey (resolved it)) = None ->
  stored_meta it w <> Some JNull ->
  exists meta,
    (Item.getMeta it w).1 = Ok (Some meta) /\
    (storage.getItemMetas [(name, it)] w).1 = Ok [(name, Some meta)].
Proof.
  intros Hrk Hplain Hnull.
  destruct (getItemMetas_answer [(name, it)] w) as (w' & Hrun & _).
  { apply NoDup_singleton. }
  { by repeat constructor. }
  unfold Item.getMeta. rewrite getMeta_eq, Hrun. cbn [fst snd map].
  unfold first_segment. rewrite (split_no_colon _ Hplain). cbn [fst].
  unfold stored_meta in Hnull.
  exists (meta_object (area (driver (resolved it)) w
                         !! getMetaKey (driverKey (resolved it)))).
  split; [|done].
  by destruct (area _ w !! getMetaKey _) as [[]|].
Qed.

Lemma getItemMetas_agrees_with_getMeta_witness :
  let it :=
    {| key := "local:a";
       resolved := {| driverArea := "local"; driverKey := "a"; driver := local |};
       opts := None |} in
  let w := mkWorld {[ "a$" := JObj {[ "v" := JNum 1 ]} ]} ∅ ∅ ∅ [] in
  exists meta,
    (Item.getMeta it w).1 = Ok (Some meta) /\
    (storage.getItemMetas [("x", it)] w).1 = Ok [("x", Some meta)].
Proof.
  intros it w.
  apply (getItemMetas_agrees_with_getMeta "x" it w);
    [reflexivity | reflexivity | discriminate].
Defined.

(** ** Metadata of several items, written *)

Lemma setItemMetas_step_eq metas acc e :
  storage.setItemMetas_step metas acc e =
    file_under (located_update metas) acc e.
Proof.
  unfold storage.setItemMetas_step, file_under, located_update.
  by destruct (resolveKey _).
Qed.

Lemma fulfilled_Ok {A} (l : list A) : fulfilled (Ok <$> l) = l.
Proof.
  unfold fulfilled. induction l as [|x l IH]; [done|].
  simpl. f_equal. exact IH.
Qed.

Lemma first_failure_Ok {A} (l : list A) : first_failure (Ok <$> l) = None.
Proof.
  unfold first_failure.
  assert (omap (fun r : Result A =>
                  match r with Ok _ => None | Throw e => Some e end)
               (Ok <$> l) = []) as ->; [|done].
  induction l as [|x l IH]; [done|]. simpl. exact IH.
Qed.

Lemma start_reads entries w0 w :
  Forall (fun e : string * list (string * option (gmap string JSAny)) =>
            is_Some (drivers e.1)) entries ->
  (forall a, area a w = area a w0) ->
  exists w1,
    start_all (map storage.setItemMetas_read entries) w =
      (Ok <$> (batch_of w0 <$> entries), w1) /\
    (forall a, area a w1 = area a w0).
Proof.
  intros Hdrv. revert w.
  induction Hdrv as [|[n l] entries [d Hd] _ IH]; intros w Hw.
  { by exists w. }
  cbn [map start_all]. simpl in Hd.
  unfold storage.setItemMetas_read at 1, lift, bind at 1, getDriver.
  rewrite Hd. unfold bind, ret. rewrite Driver_getItems_eq.
  destruct (IH (record (AreaGet d
                  (map (fun update : string * option (gmap string JSAny) =>
                          getMetaKey update.1) l)) w))
    as (w1 & Hrun & Hw1).
  { intros a. by rewrite area_record. }
  rewrite Hrun. exists w1. split; [|done].
  rewrite !fmap_cons. do 3 f_equal.
  unfold batch_of, area_of_name, existing_metas. simpl. rewrite Hd. simpl.
  by rewrite Hw.
Qed.

Lemma lookup_metaMap (f : JSON -> JSAny) (g : string -> JSON) keys k :
  fold_left (fun m (r : string * JSON) => <[r.1 := f r.2]> m)
    (map (fun key => (key, g key)) keys) (∅ : gmap string JSAny) !! k =
    if decide (k ∈ keys) then Some (f (g k)) else None.
Proof.
  induction keys as [|k0 keys IH] using rev_ind.
  - simpl. destruct (decide (k ∈ [])) as [H|]; [by apply elem_of_nil in H|done].
  - rewrite map_app, fold_left_app. simpl.
    destruct (decide (k0 = k)) as [->|Hne].
    + rewrite lookup_insert_eq, decide_True; [done|].
      apply elem_of_app. right. apply list_elem_of_here.
    + rewrite lookup_insert_ne, IH by done.
      destruct (decide (k ∈ keys)) as [Hin|Hin].
      * rewrite decide_True; [done|]. apply elem_of_app. by left.
      * rewrite decide_False; [done|].
        intros [?|?%list_elem_of_singleton]%elem_of_app; [done|by subst].
Qed.

Lemma spread_meta_object stored :
  spread (Some (meta_object stored)) = spread (getMetaValue stored).
Proof. by destruct stored as [[]|]. Qed.

Lemma setItemMetas_write_eq w0 d updates w :
  Forall (fun u : string * option (gmap string JSAny) => is_Some u.2) updates ->
  storage.setItemMetas_write (d, updates, existing_metas w0 d updates) w =
    Driver.setItems d (meta_updates w0 d updates) w.
Proof.
  intros Hprops. unfold storage.setItemMetas_write, bind, lift.
  match goal with
  | |- context [mapResult (storage.metaUpdate ?M) updates] =>
      assert (forall sub,
                sub ⊆ updates ->
                mapResult (storage.metaUpdate M) sub =
                  Ok (meta_updates w0 d sub)) as Hmap
  end.
  { intros sub. induction sub as [|u sub IH]; intros Hsub; [done|].
    assert (u ∈ updates) as Hu by (apply Hsub, list_elem_of_here).
    cbn [mapResult]. rewrite IH
      by (intros x Hx; by apply Hsub, list_elem_of_further).
    rewrite Forall_forall in Hprops. destruct (Hprops u Hu) as [props Hp].
    unfold storage.metaUpdate at 1, existing_metas. cbv zeta.
    rewrite (lookup_metaMap (fun j => getMetaValue (Some j))
               (fun key => orNull (area d w0 !! key))), decide_True.
    2:{ apply list_elem_of_In, in_map_iff. exists u.
        split; [done|by apply list_elem_of_In]. }
    cbn [mjoin option_join]. rewrite meta_object_eq, spread_meta_object, Hp.
    cbn [bindR]. unfold meta_updates at 2. cbn [map]. by rewrite Hp. }
  by rewrite (Hmap updates).
Qed.

Lemma meta_updates_other w d updates :
  Forall (fun kv : string * JSAny => kv.1 <> "__proto__")
         (meta_updates w d updates).
Proof.
  unfold meta_updates. apply Forall_forall.
  intros kv (u & <- & _)%list_elem_of_In%in_map_iff.
  apply append_dollar_not_proto.
Qed.

Lemma start_writes
    (bs : list (StorageArea * list (string * option (gmap string JSAny)) *
                list (string * JSON)))
    (payload : StorageArea * list (string * option (gmap string JSAny)) *
               list (string * JSON) -> list (string * JSAny)) w :
  NoDup (bs.*1.*1) ->
  Forall (fun b => forall w,
            storage.setItemMetas_write b w =
              Driver.setItems b.1.1 (payload b) w) bs ->
  exists w',
    start_all (map storage.setItemMetas_write bs) w = (Ok <$> (const tt <$> bs), w') /\
    (forall b, b ∈ bs ->
       area b.1.1 w' =
         omap id (fold_left Driver.reduce_step (payload b) (∅, true)).1
           ∪ area b.1.1 w) /\
    (forall a, a ∉ bs.*1.*1 -> area a w' = area a w).
Proof.
  intros Hnodup Hbs. revert w.
  induction Hbs as [|b bs Hb _ IH]; intros w.
  { exists w. split; [done|]. split; [by intros b ?%elem_of_nil|done]. }
  rewrite !fmap_cons in Hnodup. apply NoDup_cons in Hnodup as [Hfresh Hnodup].
  cbn [map start_all]. rewrite Hb.
  unfold Driver.setItems at 1, area_set at 1.
  match goal with
  | |- context [start_all _ ?w1] =>
      destruct (IH Hnodup w1) as (w' & Hrun & Hin & Hout)
  end.
  rewrite Hrun. exists w'. split; [done|]. split.
  - intros b' [->|Hb']%elem_of_cons.
    + rewrite Hout by done. by area_simpl.
    + rewrite (Hin b' Hb'). area_simpl.
      rewrite decide_False; [done|]. intros Heq. apply Hfresh.
      rewrite <- Heq. apply list_elem_of_fmap. exists b'.1.
      split; [done|]. apply list_elem_of_fmap. by exists b'.
  - intros a Ha. rewrite !fmap_cons in Ha.
    apply not_elem_of_cons in Ha as [Hne Ha].
    rewrite (Hout a Ha). by area_simpl.
Qed.

Lemma bucket_updates a k items metas :
  Forall (fun e => resolveKey (key e.2) = Ok (resolved e.2)) items ->
  (filter (fun u : string * option (gmap string JSAny) => getMetaKey u.1 = k)
     (bucket (located_update metas) (area_name a) items)).*2 =
    updates_to a k items metas.
Proof.
  unfold updates_to. induction 1 as [|e items Hrk _ IH]; [done|].
  rewrite bucket_cons, filter_app, fmap_app, IH, filter_cons. clear IH.
  unfold located_update. rewrite Hrk. simpl.
  destruct (decide (driverArea (resolved e.2) = area_name a)) as [Ha|Ha].
  - apply (resolveKey_in_area _ _ _ Hrk) in Ha.
    rewrite filter_cons, filter_nil. simpl.
    destruct (decide (getMetaKey (driverKey (resolved e.2)) = k)) as [Hk|Hk].
    + by rewrite decide_True.
    + rewrite decide_False; [done|]. by intros [_ ?].
  - rewrite filter_nil. simpl. rewrite decide_False; [done|].
    intros [Hd _]. by apply (resolveKey_in_area _ _ _ Hrk) in Hd.
Qed.

Lemma located_update_area metas e n items :
  located_update metas e = Ok (n, items) -> is_Some (drivers n).
Proof.
  unfold located_update.
  destruct (resolveKey _) as [rk|] eqn:Hrk; [|done].
  intros [= <- _]. apply resolveKey_Ok in Hrk as [_ Hd]. by eexists.
Qed.

Lemma filter_meta_updates w d k updates :
  filter (fun kv : string * JSAny => kv.1 = k) (meta_updates w d updates) =
    meta_updates w d
      (filter (fun u : string * option (gmap string JSAny) =>
                 getMetaKey u.1 = k) updates).
Proof.
  unfold meta_updates. induction updates as [|u updates IH]; [done|].
  cbn [map]. rewrite !filter_cons. simpl.
  destruct (decide (getMetaKey u.1 = k)); by rewrite IH.
Qed.

(** X25: [setItemMetas] for items as [defineItem] makes them, each with its
    properties: whatever the order in which the reads are answered, a
    shadow key that some item names ends with the object that the last
    such item's properties make of what was stored before the call, field
    by field as [setMeta] does; the properties of an earlier item of the
    same key leave no trace.  Every other key keeps what it had. *)
Theorem setItemMetas_merges_last completion items metas w :
  (forall bs, Permutation (completion bs) bs) ->
  Forall (fun e => resolveKey (key e.2) = Ok (resolved e.2) /\
                   is_Some (mjoin (metas !! e.1))) items ->
  exists w',
    storage.setItemMetas completion items metas w = (Ok tt, w') /\
    (forall a k,
       area a w' !! k =
         match last (updates_to a k items metas) with
         | Some (Some properties) =>
             Some (JObj (map_fold mergeField
                           (spread (getMetaValue (area a w !! k))) properties))
         | _ => area a w !! k
         end).
Proof.
  intros Hperm Hitems.
  assert (Forall (fun e => resolveKey (key e.2) = Ok (resolved e.2)) items)
    as Hresolved by (eapply Forall_impl; [exact Hitems|]; by intros e [? _]).
  destruct (file_all (located_update metas) items [])
    as (acc & Hfold & Hnodup & Hget & _).
  { eapply Forall_impl; [exact Hitems|]. intros e [Hrk _].
    unfold located_update. rewrite Hrk. by eexists. }
  assert (foldResult (storage.setItemMetas_step metas) items [] = Ok acc)
    as Hstep by (rewrite <- Hfold; apply foldResult_ext, setItemMetas_step_eq).
  specialize (Hnodup
    (NoDup_nil_2 :
       NoDup ([] : JsMap.t (list (string * option (gmap string JSAny)))).*1)).
  assert (forall n l, (n, l) ∈ acc ->
            l = bucket (located_update metas) n items /\
            touched (located_update metas) n items = true) as Hentries.
  { intros n l Hin. apply JsMap_get_elem in Hin; [|done].
    rewrite Hget in Hin.
    destruct (touched (located_update metas) n items); [|done].
    by injection Hin as <-. }
  assert (Forall (fun e : string * list (string * option (gmap string JSAny)) =>
                    is_Some (drivers e.1)) acc) as Hdrv.
  { apply Forall_forall. intros [n l] Hin.
    destruct (Hentries n l Hin) as [_ Ht].
    apply touched_true, Exists_exists in Ht as (e & He & items' & Hloc).
    by eapply located_update_area. }
  destruct (start_reads acc w w Hdrv ltac:(done)) as (w1 & Hreads & Hw1).
  assert (forall n (u : string * option (gmap string JSAny)),
            u ∈ bucket (located_update metas) n items -> is_Some u.2) as Hprops.
  { intros n u (e & its & He & Hloc & Hu)%elem_of_bucket.
    rewrite Forall_forall in Hitems. destruct (Hitems e He) as [Hrk Hp].
    unfold located_update in Hloc. rewrite Hrk in Hloc. simpl in Hloc.
    injection Hloc as _ <-. by apply list_elem_of_singleton in Hu as ->. }
  destruct (start_writes (completion (batch_of w <$> acc))
              (fun b => meta_updates w b.1.1 b.1.2) w1)
    as (w2 & Hwrites & Hin & Hout).
  { rewrite (Hperm _), <- !list_fmap_compose.
    apply (NoDup_fmap_2_strong _ acc); [|].
    - intros [n l] [n' l'] Hnl Hnl' Heq. simpl in Heq.
      rewrite Forall_forall in Hdrv.
      destruct (Hdrv _ Hnl) as [d Hd]. destruct (Hdrv _ Hnl') as [d' Hd'].
      simpl in Hd, Hd'. unfold area_of_name in Heq. rewrite Hd, Hd' in Heq.
      simpl in Heq. subst d'.
      apply drivers_Some in Hd, Hd'. subst n n'.
      f_equal. destruct (Hentries _ _ Hnl) as [-> _].
      by destruct (Hentries _ _ Hnl') as [-> _].
    - by apply (NoDup_fmap_1 fst). }
  { apply Forall_forall. intros b Hb w3.
    rewrite (Hperm _) in Hb.
    apply list_elem_of_fmap in Hb as ([n l] & -> & Hnl).
    unfold batch_of. simpl. apply setItemMetas_write_eq.
    destruct (Hentries _ _ Hnl) as [-> _].
    apply Forall_forall. intros u. apply Hprops. }
  exists w2. split.
  { unfold storage.setItemMetas, bind at 1, lift at 1. rewrite Hstep.
    unfold JsMap.entries. rewrite Hreads, fulfilled_Ok, Hwrites.
    by rewrite !first_failure_Ok. }
  intros a k.
  destruct (touched (located_update metas) (area_name a) items) eqn:Ht.
  - pose proof (Hget (area_name a)) as Hg. rewrite Ht in Hg. simpl in Hg.
    apply JsMap_get_In in Hg.
    assert (batch_of w (area_name a, bucket (located_update metas) (area_name a) items)
              ∈ completion (batch_of w <$> acc)) as Hb.
    { rewrite (Hperm _). apply list_elem_of_fmap. by eexists. }
    pose proof (Hin _ Hb) as Harea. unfold batch_of in Harea. simpl in Harea.
    unfold area_of_name in Harea. rewrite drivers_area_name in Harea.
    simpl in Harea. rewrite Harea, Hw1.
    rewrite lookup_union, lookup_omap, fold_reduce_step.
    rewrite own_fields_other by apply meta_updates_other.
    rewrite lookup_fold_insert, filter_meta_updates.
    rewrite <- bucket_updates by done.
    set (us := filter _ (bucket _ _ _)).
    assert (Forall (fun u : string * option (gmap string JSAny) =>
                      getMetaKey u.1 = k /\ is_Some u.2) us) as Hus.
    { apply Forall_forall. intros u [Hk Hu]%list_elem_of_filter.
      split; [done|]. by eapply Hprops. }
    clearbody us. unfold meta_updates.
    induction us as [|u us _] using rev_ind.
    + simpl. by destruct (area a w !! k).
    + rewrite map_app, fmap_app. cbn [map fmap list_fmap].
      rewrite !last_snoc. simpl.
      apply Forall_app in Hus as [_ [[Hk [props Hp]] _]%Forall_cons].
      rewrite Hp, Hk. simpl. by destruct (area a w !! k).
  - rewrite Hout, Hw1.
    + rewrite <- bucket_updates by done.
      by rewrite (bucket_untouched _ _ _ Ht).
    + intros Ha. rewrite (Hperm _), <- !list_fmap_compose in Ha.
      apply list_elem_of_fmap in Ha as ([n l] & Hb1 & Hnl).
      unfold batch_of in Hb1. simpl in Hb1.
      destruct (Hentries _ _ Hnl) as [_ Ht'].
      rewrite Forall_forall in Hdrv. destruct (Hdrv _ Hnl) as [d Hd].
      simpl in Hd. unfold area_of_name in Hb1. rewrite Hd in Hb1.
      simpl in Hb1. subst d. apply drivers_Some in Hd. subst n.
      by rewrite Ht in Ht'.
Qed.

Lemma setItemMetas_merges_last_witness :
  let it :=
    {| key := "local:k";
       resolved := {| driverArea := "local"; driverKey := "k"; driver := local |};
       opts := None |} in
  let metas : gmap string (option (gmap string JSAny)) :=
    <["y" := Some {[ "b" := Some (JNum 2) ]}]>
      {[ "x" := Some {[ "a" := Some (JNum 1) ]} ]} in
  exists w',
    storage.setItemMetas reverse [("x", it); ("y", it)] metas empty_world =
      (Ok tt, w') /\
    area local w' !! "k$" = Some (JObj {[ "b" := JNum 2 ]}).
Proof.
  intros it metas.
  destruct (setItemMetas_merges_last reverse [("x", it); ("y", it)] metas
              empty_world) as (w' & Hrun & Hareas).
  - intros bs. apply reverse_Permutation.
  - repeat constructor; by eexists.
  - exists w'. split; [exact Hrun|].
    exact (eq_trans (Hareas local "k$") eq_refl).
Defined.

(** ** Defined items *)



Lemma getOrInitValue_absent it v w :
  opts it ≫= init = Some (Some v) -> v <> JNull ->
  nullish (stored_value it w) = true ->
  getOrInitValue it w =
    (Ok (Some v),
     record (AreaSet (driver (resolved it)) {[ driverKey (resolved it) := Some v ]})
       (set_area (driver (resolved it))
          (<[driverKey (resolved it) := v]> (area (driver (resolved it)) w))
          (record InitCall
             (record (AreaGet (driver (resolved it)) [driverKey (resolved it)])
                w)))).
Proof.
  unfold stored_value. intros Hinit Hv Hnull.
  unfold getOrInitValue, bind at 1. rewrite Driver_getItem_eq, Hinit, Hnull.
  unfold bind, ret. cbn [negb]. cbv beta iota.
  rewrite Driver_setItem_defined by done. by rewrite !area_record.
Qed.

(** X17: A value that the initialiser stores carries no version: at start-up
    on an empty key the value is written and the shadow key is not, so
    the value counts as version 1 whatever the item's target version is,
    and the next migration takes it through every version from 2 up to
    the target.  This is for a local key that is not the name of a member
    of [Object.prototype] ([prototype_members]; under such a name the
    read of the empty key finds the inherited member and the initialiser
    is not called), and for a target version of at most [2 ^ 32], so
    that the list of versions to go through can be built and the
    versions are exact. *)
Theorem init_value_counts_as_version_1 it v w :
  prototype_member (driverKey (resolved it)) = false ->
  opts it ≫= init = Some (Some v) -> v <> JNull ->
  stored_value it w = None -> stored_meta it w = None ->
  1 <= targetVersion (opts it) -> targetVersion (opts it) <= 2 ^ 32 ->
  exists w' w'',
    startup it w = (Ok tt, w') /\
    stored_value it w' = Some v /\
    stored_meta it w' = None /\
    stored_version it w' = Some 1 /\
    migrate it w' = (Ok tt, w'') /\
    stored_value it w'' =
      Some (chain (migrations_of (opts it))
              (Z.to_nat (targetVersion (opts it) - 1)) 1 v) /\
    stored_version it w'' = Some (targetVersion (opts it)).
Proof.
  intros Hkey%prototype_member_proto Hinit Hv Hval Hmeta Htarget _.
  assert (exists w0, migrationsDone it w = (Ok tt, w0) /\
                     forall a, area a w0 = area a w) as (w0 & Hdone & Hw0).
  { unfold migrationsDone. destruct (opts it ≫= migrations).
    - unfold catch. rewrite migrate_absent by by rewrite Hval.
      eexists. split; [done|]. intros a. apply area_record.
    - by exists w. }
  assert (nullish (stored_value it w0) = true) as Hnull0
    by (pose proof Hval as Hv0; unfold stored_value in Hv0 |- *;
        by rewrite Hw0, Hv0).
  pose proof (getOrInitValue_absent it v w0 Hinit Hv Hnull0) as Hrun.
  match type of Hrun with _ = (_, ?x) => set (w' := x) in * end.
  assert (stored_value it w' = Some v) as Hval'.
  { unfold stored_value, w'. area_simpl. apply lookup_insert_eq. }
  assert (stored_meta it w' = None) as Hmeta'.
  { unfold stored_meta, w'. area_simpl.
    rewrite lookup_insert_ne by (intros Heq; by apply (getMetaKey_ne _ (eq_sym Heq))).
    unfold stored_meta in Hmeta. by rewrite Hw0. }
  assert (version_of (stored_meta it w') = Some 1) as Hver'
    by by rewrite Hmeta'.
  pose proof (migrate_upgrade it w' v 1 Hval' Hv Hver' Htarget) as Hmig.
  cbv zeta in Hmig. rewrite !(decide_False (P := _ = "__proto__")) in Hmig by done.
  match type of Hmig with _ = (_, ?x) => set (w'' := x) in * end.
  exists w', w''. split; [|split; [done|split; [done|split; [|split; [done|]]]]].
  - unfold startup, bind at 1. rewrite Hdone. unfold bind, ret. by rewrite Hrun.
  - unfold stored_version. rewrite Hval'.
    replace (nullish (Some v)) with false by by destruct v. done.
  - assert (stored_value it w'' =
            Some (chain (migrations_of (opts it))
                    (Z.to_nat (targetVersion (opts it) - 1)) 1 v)) as Hval''.
    { unfold stored_value, w''. area_simpl.
      rewrite lookup_insert_ne by apply getMetaKey_ne. apply lookup_insert_eq. }
    split; [done|]. unfold stored_version. rewrite Hval''.
    match goal with
    | |- context [nullish (Some ?x)] =>
        replace (nullish (Some x)) with false
          by (pose proof (chain_not_null (migrations_of (opts it))
                            (Z.to_nat (targetVersion (opts it) - 1)) 1 v Hv);
              by destruct x)
    end.
    unfold stored_meta, w''. area_simpl. rewrite lookup_insert_eq.
    unfold version_of, committed_meta. simpl. by rewrite lookup_insert_eq.
Qed.

Lemma init_value_counts_as_version_1_witness :
  let it :=
    {| key := "local:count";
       resolved := {| driverArea := "local"; driverKey := "count"; driver := local |};
       opts := Some {| opt_defaultValue := None; opt_fallback := None;
                       init := Some (Some (JNum 7)); version := Some 2;
                       migrations := Some {[ 2 := fun _ => Some (JNum 8) ]} |} |} in
  exists w' w'',
    startup it empty_world = (Ok tt, w') /\
    stored_version it w' = Some 1 /\
    migrate it w' = (Ok tt, w'') /\
    stored_value it w'' = Some (JNum 8).
Proof.
  intros it.
  destruct (init_value_counts_as_version_1 it (JNum 7) empty_world)
    as (w' & w'' & Hrun & _ & _ & Hver & Hmig & Hval & _);
    [reflexivity | reflexivity | discriminate | reflexivity | reflexivity
    | by vm_compute | by vm_compute |].
  exists w', w''. split; [exact Hrun|]. split; [exact Hver|].
  split; [exact Hmig|]. exact (eq_trans Hval eq_refl).
Defined.

Lemma Internal_removeItem_stored driver driverKey opts w :
  exists w',
    Internal.removeItem driver driverKey opts w = (Ok tt, w') /\
    area driver w' !! driverKey = None.
Proof.
  unfold Internal.removeItem, bind. rewrite Driver_removeItem_eq.
  destruct (Internal.wants_removeMeta opts).
  - rewrite Driver_removeItem_eq. eexists. split; [done|]. area_simpl.
    rewrite lookup_delete_ne by apply getMetaKey_ne.
    apply lookup_delete_eq.
  - eexists. split; [done|]. area_simpl. apply lookup_delete_eq.
Qed.

(** X20: For a local key that is not the name of a member of
    [Object.prototype] ([prototype_members]; under such a name the read
    of the removed key finds the inherited member): after [removeValue],
    the next [getValue] of an item with an initialiser runs the
    initialiser again and answers its value; without an initialiser it
    answers the fallback. *)
Theorem getValue_after_removeValue it o w :
  prototype_member (driverKey (resolved it)) = false ->
  ((Item.removeValue it o ;;; Item.getValue it) w).1 =
    Ok (match opts it ≫= init with
        | Some newValue => newValue
        | None => Some (getFallback it)
        end) /\
  (is_Some (opts it ≫= init) ->
   length (filter (fun e => is_init_call e = true)
             (w_trace ((Item.removeValue it o ;;; Item.getValue it) w).2)) =
   S (length (filter (fun e => is_init_call e = true) (w_trace w)))).
Proof.
  intros _.
  destruct (Internal_removeItem_stored (driver (resolved it))
              (driverKey (resolved it)) o w) as (w1 & Hrun & Hgone).
  assert ((Item.removeValue it o ;;; Item.getValue it) w = Item.getValue it w1)
    as -> by (unfold bind, Item.removeValue; by rewrite Hrun).
  assert (filter (fun e => is_init_call e = true) (w_trace w1) =
          filter (fun e => is_init_call e = true) (w_trace w)) as Htrace.
  { unfold Internal.removeItem, bind in Hrun.
    rewrite Driver_removeItem_eq in Hrun.
    destruct (Internal.wants_removeMeta o).
    - rewrite Driver_removeItem_eq in Hrun. injection Hrun as <-.
      rewrite !trace_record, !trace_set_area, !trace_record, trace_set_area.
      rewrite !filter_app. simpl. by rewrite !app_nil_r.
    - injection Hrun as <-.
      rewrite !trace_record, trace_set_area, filter_app. simpl.
      by rewrite app_nil_r. }
  destruct (opts it ≫= init) as [newValue|] eqn:Hinit.
  - destruct (getValue_with_init_run it newValue w1 Hinit)
      as (w' & Hget & _ & Hcalls & _).
    rewrite Hget. unfold stored_value in Hcalls |- *. rewrite Hgone in *.
    simpl in *. split; [done|]. intros _.
    rewrite Hcalls, Htrace, length_app. simpl. lia.
  - rewrite getValue_without_init_run by done. unfold stored_value.
    rewrite Hgone. simpl. split; [done|]. by intros [? ?].
Qed.

Lemma getValue_after_removeValue_witness :
  let it :=
    {| key := "local:count";
       resolved := {| driverArea := "local"; driverKey := "count"; driver := local |};
       opts := Some {| opt_defaultValue := Some (JNum 1); opt_fallback := None;
                       init := Some (Some (JNum 7)); version := None;
                       migrations := None |} |} in
  let w := mkWorld {[ "count" := JNum 5 ]} ∅ ∅ ∅ [] in
  ((Item.removeValue it None ;;; Item.getValue it) w).1 = Ok (Some (JNum 7)).
Proof.
  intros it w.
  exact (proj1 (getValue_after_removeValue it None w eq_refl)).
Defined.

(** ** Watching an item *)

(** X21: The callback of an item's [watch] is called with the fallback in
    place of a missing value: its arguments are the new and the old value
    of the change to the item's key, each replaced by the fallback when
    it is [null] or [undefined].  With a fallback that is not [null], the
    callback never sees [null]. *)
Theorem item_watch_substitutes_fallback dequal it changes newV oldV :
  Item.listener dequal it changes = Some (newV, oldV) ->
  exists change,
    changes !! driverKey (resolved it) = Some change /\
    dequal (newValue change) (oldValue change) = false /\
    newV = orElse (newValue change) (getFallback it) /\
    oldV = orElse (oldValue change) (getFallback it) /\
    (getFallback it <> JNull -> newV <> JNull /\ oldV <> JNull).
Proof.
  unfold Item.listener, Driver.listener.
  destruct (changes !! driverKey (resolved it)) as [change|]; [|done].
  destruct (dequal (newValue change) (oldValue change)) eqn:Hd; [done|].
  intros [= <- <-].
  exists change. split; [done|]. split; [done|].
  split; [by destruct (newValue change) as [[]|]|].
  split; [by destruct (oldValue change) as [[]|]|].
  intros Hfb.
  split; [destruct (newValue change) as [[]|]|destruct (oldValue change) as [[]|]];
    done.
Qed.

Lemma item_watch_substitutes_fallback_witness :
  let it :=
    {| key := "local:count";
       resolved := {| driverArea := "local"; driverKey := "count"; driver := local |};
       opts := Some {| opt_defaultValue := None; opt_fallback := Some (JNum 0);
                       init := None; version := None; migrations := None |} |} in
  let changes : gmap string Change :=
    {[ "count" := {| newValue := None; oldValue := Some (JNum 5) |} ]} in
  Item.listener (fun _ _ => false) it changes = Some (JNum 0, JNum 5) /\
  exists change,
    changes !! "count" = Some change /\
    JNum 0 = orElse (newValue change) (getFallback it).
Proof.
  intros it changes. split; [reflexivity|].
  destruct (item_watch_substitutes_fallback (fun _ _ => false) it changes
              (JNum 0) (JNum 5) eq_refl)
    as (change & Hchange & _ & Hnew & _).
  exists change. split; [exact Hchange|exact Hnew].
Defined.

(** ** Instances of the properties of keys and metadata *)

Lemma resolveKey_failure_is_invalid_area_witness :
  resolveKey "cookie:b" = Throw (InvalidArea "cookie") /\
  exists name, InvalidArea "cookie" = InvalidArea name.
Proof.
  split; [reflexivity|].
  apply (resolveKey_failure_is_invalid_area "cookie:b"). reflexivity.
Defined.

Lemma unresolved_key_fails_fast_witness :
  storage.setItem "cookie:b" (Some (JNum 1)) empty_world =
    (Throw (InvalidArea "cookie"), empty_world).
Proof.
  destruct (unresolved_key_fails_fast "cookie:b" (InvalidArea "cookie")
              empty_world eq_refl eq_refl) as (_ & Hset & _).
  exact (Hset (Some (JNum 1))).
Defined.

Lemma getMeta_degrades_witness :
  let w := mkWorld {[ "k$" := JArr [JNum 1] ]} ∅ ∅ ∅ [] in
  (Internal.getMeta local "k" w).1 = Ok (Some (JObj ∅)).
Proof.
  intros w. apply (getMeta_degrades local "k" w).
  - intros H. vm_compute in H. discriminate H.
  - intros m H. vm_compute in H. discriminate H.
Defined.
